(** * ehforwarderbot.utils: path resolution, emoji lookup, extra-function marker

    A shallow embedding of [src/ehforwarderbot/utils.py].

    - Python [str] values are [string]s (their UTF-8 bytes).
    - The process environment, the password database, the current working
      directory and [coordinator.profile] are read-only ambient state,
      gathered in the record [ambient].
    - The directory tree is a finite map from canonical absolute paths
      (lists of entry names, the root being the empty list) to nodes.
    - A function that touches the directory tree is a computation in the
      state-and-exception monad [M]; a raised Python exception is [Raise],
      and the tree a raising call leaves behind is part of its outcome.

    The standard-library functions the module calls are modelled after
    CPython 3.11 on Linux: [os.path.join], [os.path.split],
    [os.path.expanduser] and [getpass.getuser] after [posixpath.py] and
    [getpass.py], [os.makedirs] after [os.py], and [os.mkdir],
    [os.path.exists] and [os.path.isdir] after the system calls [mkdir] and
    [stat].  The tree has no symbolic links; the process may search and
    write every directory; neither the disk nor the memory runs out; and the
    recursion limit of the interpreter is not reached. *)

From Stdlib Require Import Ascii.
From stdpp Require Import gmap strings list fin_maps.

Open Scope string_scope.
Open Scope list_scope.
Open Scope stdpp_scope.

(** ** Exceptions and results *)

Inductive errno := EEXIST | ENOTDIR | ENOENT | ENAMETOOLONG.

(** [OSError e] covers its subclasses: [FileExistsError] is [OSError EEXIST],
    [NotADirectoryError] is [OSError ENOTDIR], [FileNotFoundError] is
    [OSError ENOENT].  [RecursionError] is what a recursion out of fuel
    gives; no function of the module is shown to raise it. *)
Inductive exn :=
| KeyError
| OSError (e : errno)
| ValueError
| AttributeError
| TypeError
| RecursionError.

Global Instance errno_eq_dec : EqDecision errno.
Proof. solve_decision. Defined.

Global Instance exn_eq_dec : EqDecision exn.
Proof. solve_decision. Defined.

Inductive result (A : Type) :=
| Ok (x : A)
| Raise (e : exn).

Arguments Ok {A} x.
Arguments Raise {A} e.

(** Truth value of [os.environ.get(name, None)]: [None] and the empty string
    are false, every other string is true. *)
Definition py_bool (o : option string) : bool :=
  match o with
  | Some (String _ _) => true
  | _ => false
  end.

(** ** [class Emoji] *)

(** Modelled from the spec: [constants.ChatType] is not part of the sources at
    hand.  Its members are [User], [Group] and [System]; [OtherChatType]
    stands for any other value handed to the lookup. *)
Inductive ChatType :=
| User
| Group
| System
| OtherChatType (tag : string).

Module Emoji.

Definition GROUP_EMOJI : string := "👥".
Definition USER_EMOJI : string := "👤".
Definition SYSTEM_EMOJI : string := "💻".
Definition UNKNOWN_EMOJI : string := "❓".
Definition LINK_EMOJI : string := "🔗".

Definition get_source_emoji (t : ChatType) : string :=
  match t with
  | User => USER_EMOJI
  | Group => GROUP_EMOJI
  | System => SYSTEM_EMOJI
  | _ => UNKNOWN_EMOJI
  end.

End Emoji.

(** ** The [extra] decorator

    Objects live in an object store indexed by identity; a reference is
    the identity.  [f.__setattr__(k, v)] depends on what [f] refers to: an
    object that keeps its attributes in a dictionary (a function made by
    [def] or [lambda], an instance of a plain class) is updated in place; a
    built-in function and a bound method have no such dictionary and raise
    [AttributeError]; on a class, [f.__setattr__] is the unbound
    [object.__setattr__], which is then called with one argument too few and
    raises [TypeError].  Objects whose class overrides [__setattr__] are not
    modelled. *)

Inductive pyval :=
| PyBool (b : bool)
| PyStr (s : string).

Record function := {
  func_code : list pyval → pyval;
  func_dict : gmap string pyval;
}.

Inductive pyobject :=
| PyFunction (o : function)
| PyBuiltin (code : list pyval → pyval)
| PyMethod (self func : nat)
| PyClass (attrs : gmap string pyval).

Definition setattr_obj (k : string) (v : pyval) (o : function) : function :=
  {| func_code := func_code o; func_dict := <[k := v]> (func_dict o) |}.

(** The outcome of [f.__setattr__(k, v)] and the store it leaves.  [None]
    is a reference to no object, which Python never produces. *)
Definition py_setattr (f : nat) (k : string) (v : pyval)
    (h : gmap nat pyobject) : option (result unit * gmap nat pyobject) :=
  obj ← h !! f;
  Some match obj with
       | PyFunction o => (Ok (), <[f := PyFunction (setattr_obj k v o)]> h)
       | PyBuiltin _ => (Raise AttributeError, h)
       | PyMethod _ _ => (Raise AttributeError, h)
       | PyClass _ => (Raise TypeError, h)
       end.

(** Sequencing in the store: an exception ends the computation. *)
Definition and_then {A B}
    (m : option (result A * gmap nat pyobject))
    (k : A → gmap nat pyobject → option (result B * gmap nat pyobject))
    : option (result B * gmap nat pyobject) :=
  match m with
  | Some (Ok x, h) => k x h
  | Some (Raise e, h) => Some (Raise e, h)
  | None => None
  end.

Definition attr_dec (name desc : string) (f : nat)
    (h : gmap nat pyobject) : option (result nat * gmap nat pyobject) :=
  and_then (py_setattr f "extra_fn" (PyBool true) h) (λ _ h,
  and_then (py_setattr f "name" (PyStr name) h) (λ _ h,
  and_then (py_setattr f "desc" (PyStr desc) h) (λ _ h,
  Some (Ok f, h)))).

Definition extra (name desc : string) :
    nat → gmap nat pyobject → option (result nat * gmap nat pyobject) :=
  attr_dec name desc.

(** ** Strings and [posixpath] *)

Definition is_sep (c : ascii) : bool := bool_decide (c = "/"%char).

Definition starts_with_sep (s : string) : bool :=
  match s with
  | String c _ => is_sep c
  | EmptyString => false
  end.

Fixpoint ends_with_sep (s : string) : bool :=
  match s with
  | EmptyString => false
  | String c EmptyString => is_sep c
  | String _ r => ends_with_sep r
  end.

(** One round of the loop of [posixpath.join]. *)
Definition join_step (path b : string) : string :=
  if starts_with_sep b then b
  else if bool_decide (path = "") || ends_with_sep path then path +:+ b
  else path +:+ "/" +:+ b.

(** [os.path.join(a, *p)]. *)
Definition join (a : string) (p : list string) : string :=
  fold_left join_step p a.

(** [s.rstrip("/")]. *)
Fixpoint rstrip_sep (s : string) : string :=
  match s with
  | EmptyString => EmptyString
  | String c r =>
      match rstrip_sep r with
      | EmptyString => if is_sep c then EmptyString else String c EmptyString
      | r' => String c r'
      end
  end.

(** [(s[:i], s[i:])] for [i] the index of the first separator of [s], or
    the length of [s] when it has none. *)
Fixpoint break_sep (s : string) : string * string :=
  match s with
  | EmptyString => (EmptyString, EmptyString)
  | String c r =>
      if is_sep c then (EmptyString, s)
      else let '(n, t) := break_sep r in (String c n, t)
  end.

(** [s.split("/")]. *)
Fixpoint components (s : string) : list string :=
  match s with
  | EmptyString => [EmptyString]
  | String c r =>
      if is_sep c then EmptyString :: components r
      else match components r with
           | hd :: tl => String c hd :: tl
           | [] => [String c EmptyString]
           end
  end.

(** A path segment in the narrow sense: not empty and free of separators. *)
Fixpoint sep_free (s : string) : bool :=
  match s with
  | EmptyString => true
  | String c r => negb (is_sep c) && sep_free r
  end.

Definition segment (s : string) : bool :=
  negb (bool_decide (s = "")) && sep_free s.

(** [(s[:i], s[i:])] for [i = s.rfind("/") + 1]. *)
Fixpoint rsplit (s : string) : string * string :=
  match s with
  | EmptyString => (EmptyString, EmptyString)
  | String c r =>
      let '(h, t) := rsplit r in
      match h with
      | EmptyString =>
          if is_sep c then (String c EmptyString, t)
          else (EmptyString, String c t)
      | _ => (String c h, t)
      end
  end.

(** [posixpath.split(p)]: the head loses its trailing separators unless it
    consists of separators only. *)
Definition split (p : string) : string * string :=
  let '(head, tail) := rsplit p in
  (match rstrip_sep head with
   | EmptyString => head
   | stripped => stripped
   end, tail).

(** A NUL byte, which no path handed to the operating system may hold. *)
Fixpoint has_nul (s : string) : bool :=
  match s with
  | EmptyString => false
  | String c r => bool_decide (c = "000"%char) || has_nul r
  end.

(** The limits of Linux on the bytes of a name and of a path. *)
Definition NAME_MAX : nat := 255.
Definition PATH_MAX : nat := 4096.

(** ** Ambient state *)

Record pwent := {
  pw_name : string;
  pw_dir : string;
}.

Record ambient := {
  environ : gmap string string;      (* os.environ *)
  pw_self : option pwent;            (* pwd.getpwuid(os.getuid()) *)
  pw_byname : gmap string pwent;     (* pwd.getpwnam *)
  profile : string;                  (* coordinator.profile *)
  cwd : list string;                 (* os.getcwd(), as entry names *)
}.

Definition setenv (k v : string) (a : ambient) : ambient :=
  {| environ := <[k := v]> (environ a); pw_self := pw_self a;
     pw_byname := pw_byname a; profile := profile a; cwd := cwd a |}.

Definition unsetenv (k : string) (a : ambient) : ambient :=
  {| environ := delete k (environ a); pw_self := pw_self a;
     pw_byname := pw_byname a; profile := profile a; cwd := cwd a |}.

(** [getpass.getuser()]: the first non-empty one of four environment
    variables, else the login name of the password database. *)
Definition getuser (a : ambient) : result string :=
  let env_user :=
    list_find (λ o, py_bool o = true)
      ((λ name, environ a !! name) <$> ["LOGNAME"; "USER"; "LNAME"; "USERNAME"]) in
  match env_user with
  | Some (_, Some user) => Ok user
  | _ =>
      match pw_self a with
      | Some e => Ok (pw_name e)
      | None => Raise KeyError
      end
  end.

(** The directory [~] stands for: [$HOME] when that variable is present,
    else the home directory of the password database. *)
Definition home (a : ambient) : option string :=
  match environ a !! "HOME" with
  | Some h => Some h
  | None => pw_dir <$> pw_self a
  end.

(** [os.path.expanduser(path)]. *)
Definition expanduser (a : ambient) (path : string) : string :=
  match path with
  | String "~" rest =>
      let '(name, tail) := break_sep rest in
      let userhome :=
        if bool_decide (name = "") then home a
        else pw_dir <$> pw_byname a !! name in
      match userhome with
      | None => path
      | Some h =>
          match rstrip_sep h +:+ tail with
          | EmptyString => "/"
          | r => r
          end
      end
  | _ => path
  end.

(** ** The directory tree *)

Inductive node :=
| Dir
| File (data : string).

Global Instance node_eq_dec : EqDecision node.
Proof. solve_decision. Defined.

Definition is_file (fs : gmap (list string) node) (k : list string) : bool :=
  match fs !! k with
  | Some (File _) => true
  | _ => false
  end.

(** The root is a directory of every tree; it has no entry of its own. *)
Definition is_dir (fs : gmap (list string) node) (k : list string) : bool :=
  match k with
  | [] => true
  | _ => bool_decide (fs !! k = Some Dir)
  end.

Definition is_dot (c : string) : bool :=
  bool_decide (c = "") || bool_decide (c = ".").

Definition is_dotdot (c : string) : bool := bool_decide (c = "..").

(** Where the component [c] leads from the directory [cur]: empty and [.]
    components stay, [..] moves to the parent (the root is its own parent),
    a name moves to the entry of that name. *)
Definition next (cur : list string) (c : string) : list string :=
  if is_dot c then cur
  else if is_dotdot c then removelast cur
  else cur ++ [c].

(** One step of path resolution, the component [c] looked up in [cur]:
    [cur] has to be a directory, a name has to be short enough and to
    exist there. *)
Definition lookup_step (fs : gmap (list string) node) (cur : list string)
    (c : string) : result (list string) :=
  if negb (is_dir fs cur) then Raise (OSError ENOTDIR)
  else if is_dot c || is_dotdot c then Ok (next cur c)
  else if (NAME_MAX <? String.length c)%nat then Raise (OSError ENAMETOOLONG)
  else match fs !! (cur ++ [c]) with
       | Some _ => Ok (cur ++ [c])
       | None => Raise (OSError ENOENT)
       end.

(** Path resolution, one component at a time, from [cur]. *)
Fixpoint namei (fs : gmap (list string) node) (cur : list string)
    (comps : list string) : result (list string) :=
  match comps with
  | [] => Ok cur
  | c :: rest =>
      match lookup_step fs cur c with
      | Ok k => namei fs k rest
      | Raise e => Raise e
      end
  end.

Global Instance result_ret : MRet result := λ A x, Ok x.

Global Instance result_bind : MBind result := λ A B f r,
  match r with
  | Ok x => f x
  | Raise e => Raise e
  end.

(** What every call does with a path before it is resolved: Python refuses
    a NUL byte, the system an empty or too long path. *)
Definition check_path (path : string) : result unit :=
  if has_nul path then Raise ValueError
  else if bool_decide (path = "") then Raise (OSError ENOENT)
  else if (PATH_MAX <=? String.length path)%nat then Raise (OSError ENAMETOOLONG)
  else Ok ().

(** The directory resolution of [path] starts from: the root for an
    absolute path, else the working directory, which has to exist. *)
Definition start (a : ambient) (fs : gmap (list string) node)
    (path : string) : result (list string) :=
  if starts_with_sep path then Ok []
  else if is_dir fs (cwd a) then Ok (cwd a)
  else Raise (OSError ENOENT).

(** [os.stat(path)], as far as the entry it finds. *)
Definition stat (a : ambient) (fs : gmap (list string) node)
    (path : string) : result (list string) :=
  _ ← check_path path;
  cur ← start a fs path;
  namei fs cur (components path).

(** [os.path.exists(path)]: [os.stat] raises neither [OSError] nor
    [ValueError]. *)
Definition path_exists (a : ambient) (fs : gmap (list string) node)
    (path : string) : bool :=
  match stat a fs path with
  | Ok _ => true
  | Raise _ => false
  end.

(** [os.path.isdir(path)]. *)
Definition isdir (a : ambient) (fs : gmap (list string) node)
    (path : string) : bool :=
  match stat a fs path with
  | Ok k => is_dir fs k
  | Raise _ => false
  end.

Definition is_empty (c : string) : bool := bool_decide (c = "").

(** The system call [mkdir] from [cur]: all components but the last are
    resolved, trailing separators apart; the last one must be a name that
    does not exist in its directory, and is made a directory there. *)
Fixpoint mkdir_walk (fs : gmap (list string) node) (cur : list string)
    (comps : list string) : result (gmap (list string) node) :=
  match comps with
  | [] => Raise (OSError EEXIST)
  | c :: rest =>
      if forallb is_empty rest then
        if negb (is_dir fs cur) then Raise (OSError ENOTDIR)
        else if is_dot c || is_dotdot c then Raise (OSError EEXIST)
        else if (NAME_MAX <? String.length c)%nat then Raise (OSError ENAMETOOLONG)
        else match fs !! (cur ++ [c]) with
             | Some _ => Raise (OSError EEXIST)
             | None => Ok (<[cur ++ [c] := Dir]> fs)
             end
      else
        match lookup_step fs cur c with
        | Ok k => mkdir_walk fs k rest
        | Raise e => Raise e
        end
  end.

(** ** The monad of the path functions

    A computation takes the tree and gives an outcome and the tree it
    leaves, also when the outcome is an exception. *)

Definition M (A : Type) : Type :=
  gmap (list string) node → result A * gmap (list string) node.

Global Instance M_ret : MRet M := λ A x fs, (Ok x, fs).

Global Instance M_bind : MBind M := λ A B f m fs,
  match m fs with
  | (Ok x, fs') => f x fs'
  | (Raise e, fs') => (Raise e, fs')
  end.

(** A computation that reads the ambient state only. *)
Definition lift {A} (r : result A) : M A := λ fs, (r, fs).

(** [os.mkdir(path)]. *)
Definition mkdir (a : ambient) (path : string) : M unit := λ fs,
  match _ ← check_path path;
        cur ← start a fs path;
        mkdir_walk fs cur (components path) with
  | Ok fs' => (Ok (), fs')
  | Raise e => (Raise e, fs)
  end.

(** The first lines of [os.makedirs]: the path split into head and tail,
    and its head split once more when the tail is empty. *)
Definition head_tail (name : string) : string * string :=
  let '(head, tail) := split name in
  if bool_decide (tail = "") then split head else (head, tail).

(** The last lines of [os.makedirs] for [exist_ok=True]: [mkdir], whose
    [OSError] is let through only when the path is no directory. *)
Definition mkdir_exist_ok (a : ambient) (name : string) : M unit := λ fs,
  match mkdir a name fs with
  | (Raise (OSError e), fs') =>
      if isdir a fs' name then (Ok (), fs') else (Raise (OSError e), fs')
  | r => r
  end.

(** [os.makedirs(name, exist_ok=True)], after [os.py]: when the head does
    not exist it is made first, where a [FileExistsError] is passed over,
    and the call returns there when the tail is [.]; then comes [mkdir].
    The recursion is on the head, which is shorter than the path; the fuel
    stands for the depth of recursion left. *)
Fixpoint makedirs_rec (fuel : nat) (a : ambient) (name : string) : M unit :=
  λ fs,
  match fuel with
  | 0 => (Raise RecursionError, fs)
  | S fuel =>
      let '(head, tail) := head_tail name in
      if negb (bool_decide (head = "")) && negb (bool_decide (tail = ""))
         && negb (path_exists a fs head) then
        match makedirs_rec fuel a head fs with
        | (Ok _, fs1) | (Raise (OSError EEXIST), fs1) =>
            if bool_decide (tail = ".") then (Ok (), fs1)
            else mkdir_exist_ok a name fs1
        | (Raise e, fs1) => (Raise e, fs1)
        end
      else mkdir_exist_ok a name fs
  end.

(** The fuel given is never used up, so that what is modelled is an
    interpreter whose recursion limit is not reached. *)
Definition makedirs (a : ambient) (name : string) : M unit :=
  makedirs_rec (S (String.length name)) a name.

(** ** The path functions of [utils.py] *)

Section Utils.

Variable amb : ambient.

Definition get_base_path : M string :=
  let base_path := environ amb !! "EFB_DATA_PATH" in
  base_path ←
    (if py_bool base_path then
       user ← lift (getuser amb);
       mret (join (default "" base_path) [user; ""])
     else
       mret (expanduser amb "~/.ehforwarderbot/"));
  _ ← makedirs amb base_path;
  mret base_path.

Definition get_data_path (channel_id : string) : M string :=
  let profile := profile amb in
  base_path ← get_base_path;
  let data_path := join base_path [profile; channel_id; ""] in
  _ ← makedirs amb data_path;
  mret data_path.

(** The optional arguments are explicit: a call without them is
    [get_config_path None "yaml"]. *)
Definition get_config_path (channel_id : option string) (ext : string)
    : M string :=
  base_path ← get_base_path;
  let profile := profile amb in
  config_path ←
    (if py_bool channel_id then get_data_path (default "" channel_id)
     else mret (join base_path [profile]));
  _ ← makedirs amb config_path;
  mret (join config_path ["config." +:+ ext]).

Definition get_cache_path (channel : string) : M string :=
  let profile := profile amb in
  let base_path := environ amb !! "EFB_CACHE_PATH" in
  base_path ←
    (if py_bool base_path then
       user ← lift (getuser amb);
       mret (join (default "" base_path) [user; profile; channel; ""])
     else
       mret (expanduser amb
               (join (expanduser amb "~/.ehforwarderbot/.cache/")
                  [profile; channel; ""])));
  _ ← makedirs amb base_path;
  mret base_path.

Definition get_custom_channel_path : M string :=
  base_path ← get_base_path;
  let channel_path := join base_path ["plugins"] in
  _ ← makedirs amb channel_path;
  mret channel_path.

End Utils.

(** ** Auxiliary notions used to state the properties *)

(** The tail [os.makedirs] finds at the end of a path. *)
Definition last_segment (name : string) : string := (head_tail name).2.

Fixpoint all_sep (s : string) : bool :=
  match s with
  | EmptyString => true
  | String c r => is_sep c && all_sep r
  end.

(** The components of a head [ch] come first among those of the path [cn];
    a head made of separators only stands for the root. *)
Definition comps_prefix (ch cn : list string) : Prop :=
  (∃ l, cn = ch ++ l) ∨ (∃ n l, ch = replicate (S n) "" ∧ cn = "" :: l).

(** The directory resolution of [path] starts from. *)
Definition start_key (a : ambient) (path : string) : list string :=
  if starts_with_sep path then [] else cwd a.

(** The places resolution of [comps] from [cur] passes through, both ends
    included, and the one it ends in.  They do not depend on the tree. *)
Fixpoint visited (cur : list string) (comps : list string)
    : list (list string) :=
  match comps with
  | [] => [cur]
  | c :: rest => cur :: visited (next cur c) rest
  end.

Definition dest (cur : list string) (comps : list string) : list string :=
  fold_left next comps cur.

(** The entries a call on [path] may look at or make: the places on the way,
    but for the root, which is no entry of the tree. *)
Definition footprint (a : ambient) (path : string) : list (list string) :=
  filter (λ k, k ≠ []) (visited (start_key a path) (components path)).

(** The entry [os.mkdir] makes, or the exception it raises. *)
Fixpoint mkdir_key (fs : gmap (list string) node) (cur : list string)
    (comps : list string) : result (list string) :=
  match comps with
  | [] => Raise (OSError EEXIST)
  | c :: rest =>
      if forallb is_empty rest then
        if negb (is_dir fs cur) then Raise (OSError ENOTDIR)
        else if is_dot c || is_dotdot c then Raise (OSError EEXIST)
        else if (NAME_MAX <? String.length c)%nat then Raise (OSError ENAMETOOLONG)
        else match fs !! (cur ++ [c]) with
             | Some _ => Raise (OSError EEXIST)
             | None => Ok (cur ++ [c])
             end
      else
        match lookup_step fs cur c with
        | Ok k => mkdir_key fs k rest
        | Raise e => Raise e
        end
  end.

Definition mkdir_target (a : ambient) (fs : gmap (list string) node)
    (path : string) : result (list string) :=
  _ ← check_path path;
  cur ← start a fs path;
  mkdir_key fs cur (components path).

(** The outcomes of its recursive call after which [os.makedirs] goes on. *)
Definition passes (r : result unit) : bool :=
  match r with
  | Ok _ | Raise (OSError EEXIST) => true
  | Raise _ => false
  end.

(** A tree with the entries [ks] made directories, the last one first. *)
Definition add_dirs (ks : list (list string)) (fs : gmap (list string) node)
    : gmap (list string) node :=
  foldr (λ k, <[k := Dir]>) fs ks.

(** The part of a tree at the entries [ks]. *)
Definition restrict (ks : list (list string)) (fs : gmap (list string) node)
    : gmap (list string) node :=
  list_to_map (omap (λ k, pair k <$> fs !! k) ks).

(** The tree [fs'] keeps every entry of [fs], and has directories only in
    addition. *)
Definition grown (fs fs' : gmap (list string) node) : Prop :=
  fs ⊆ fs' ∧ ∀ k n, fs !! k = None → fs' !! k = Some n → n = Dir.

(** The path functions first compute strings from the ambient state, which
    may raise, and then make directories.  A plan is the outcome of the
    first half: the directories to make, in order, and the value to return. *)

Fixpoint ensure_all (a : ambient) (ds : list string) : M unit :=
  match ds with
  | [] => mret ()
  | d :: ds => _ ← makedirs a d; ensure_all a ds
  end.

Definition planned {A} (a : ambient) (plan : result (list string * A)) : M A :=
  p ← lift plan;
  _ ← ensure_all a p.1;
  mret p.2.

(** The string [get_base_path] computes, before it makes the directory. *)
Definition base_path_of (a : ambient) : result string :=
  let base_path := environ a !! "EFB_DATA_PATH" in
  if py_bool base_path then
    user ← getuser a;
    mret (join (default "" base_path) [user; ""])
  else mret (expanduser a "~/.ehforwarderbot/").

(** The string [get_cache_path] computes. *)
Definition cache_path_of (a : ambient) (channel : string) : result string :=
  let base_path := environ a !! "EFB_CACHE_PATH" in
  if py_bool base_path then
    user ← getuser a;
    mret (join (default "" base_path) [user; profile a; channel; ""])
  else
    mret (expanduser a
            (join (expanduser a "~/.ehforwarderbot/.cache/")
               [profile a; channel; ""])).

(** The directory [get_config_path] makes for a base path [b]. *)
Definition config_dir_of (a : ambient) (channel_id : option string)
    (b : string) : string :=
  if py_bool channel_id then join b [profile a; default "" channel_id; ""]
  else join b [profile a].

Definition base_plan (a : ambient) : result (list string * string) :=
  b ← base_path_of a; mret ([b], b).

Definition data_plan (a : ambient) (channel_id : string)
    : result (list string * string) :=
  b ← base_path_of a;
  let d := join b [profile a; channel_id; ""] in
  mret ([b; d], d).

Definition config_plan (a : ambient) (channel_id : option string)
    (ext : string) : result (list string * string) :=
  b ← base_path_of a;
  let c := config_dir_of a channel_id b in
  mret (if py_bool channel_id then [b; b; c; c] else [b; c],
        join c ["config." +:+ ext]).

Definition cache_plan (a : ambient) (channel : string)
    : result (list string * string) :=
  c ← cache_path_of a channel; mret ([c], c).

Definition plugins_plan (a : ambient) : result (list string * string) :=
  b ← base_path_of a;
  mret ([b; join b ["plugins"]], join b ["plugins"]).

(** The entries a plan may look at or make. *)
Definition footprints (a : ambient) (ds : list string) : list (list string) :=
  ds ≫= footprint a.

(** Two trees agree on a list of entries. *)
Definition agree_on (F : list (list string))
    (fs1 fs2 : gmap (list string) node) : Prop :=
  ∀ k, k ∈ F → fs1 !! k = fs2 !! k.

(** A segment that names an entry: neither [.] nor [..]. *)
Definition named (s : string) : bool :=
  segment s && negb (is_dot s) && negb (is_dotdot s).

(** The entry a path resolves to, when it resolves. *)
Definition resolve (a : ambient) (fs : gmap (list string) node)
    (path : string) : option (list string) :=
  match stat a fs path with
  | Ok k => Some k
  | Raise _ => None
  end.

(** Two ambient states that agree on everything but the environment
    variable [k]. *)
Definition same_but (k : string) (a a' : ambient) : Prop :=
  (∀ k', k ≠ k' → environ a' !! k' = environ a !! k') ∧
  pw_self a' = pw_self a ∧ pw_byname a' = pw_byname a ∧
  profile a' = profile a ∧ cwd a' = cwd a.

(** ** Sample ambient states, trees and objects *)

Definition alice_env : ambient :=
  {| environ := {[ "USER" := "alice"; "HOME" := "/home/alice" ]};
     pw_self := Some {| pw_name := "alice"; pw_dir := "/home/alice" |};
     pw_byname := {[ "alice" := {| pw_name := "alice"; pw_dir := "/home/alice" |} ]};
     profile := "default";
     cwd := ["home"; "alice"] |}.

Definition with_profile (p : string) (a : ambient) : ambient :=
  {| environ := environ a; pw_self := pw_self a; pw_byname := pw_byname a;
     profile := p; cwd := cwd a |}.


Definition alice_home_tree : gmap (list string) node :=
  {[ ["home"] := Dir; ["home"; "alice"] := Dir ]}.

Definition tmp_efb_tree : gmap (list string) node :=
  list_to_map
    [ (["tmp"], Dir); (["tmp"; "efb"], Dir); (["tmp"; "efb"; "alice"], Dir);
      (["tmp"; "efb"; "alice"; "default"], Dir);
      (["tmp"; "efb"; "alice"; "default"; "irc"], Dir) ].

Definition alice_base_tree : gmap (list string) node :=
  list_to_map
    [ (["home"], Dir); (["home"; "alice"], Dir);
      (["home"; "alice"; ".ehforwarderbot"], Dir) ].

Definition alice_profile_tree : gmap (list string) node :=
  <[ ["home"; "alice"; ".ehforwarderbot"; "default"] := Dir ]> alice_base_tree.

Definition alice_plugins_tree : gmap (list string) node :=
  <[ ["home"; "alice"; ".ehforwarderbot"; "plugins"] := Dir ]> alice_base_tree.

Definition alice_cache_tree : gmap (list string) node :=
  list_to_map
    [ (["home"], Dir); (["home"; "alice"], Dir);
      (["home"; "alice"; ".ehforwarderbot"], Dir);
      (["home"; "alice"; ".ehforwarderbot"; ".cache"], Dir);
      (["home"; "alice"; ".ehforwarderbot"; ".cache"; "default"], Dir);
      (["home"; "alice"; ".ehforwarderbot"; ".cache"; "default"; "irc"], Dir) ].

Definition alice_data_tree : gmap (list string) node :=
  <[ ["home"; "alice"; ".ehforwarderbot"; "default"; "irc"] := Dir ]>
    alice_profile_tree.

Definition alice_config_tree : gmap (list string) node :=
  <[ ["home"; "alice"; ".ehforwarderbot"; "default"; "foo"] := Dir ]>
    alice_profile_tree.

(** The profile directory with a regular file [file] in it. *)
Definition alice_file_tree : gmap (list string) node :=
  <[ ["home"; "alice"; ".ehforwarderbot"; "default"; "file"] := File "text" ]>
    alice_profile_tree.

(** The same after a directory [new] has been made next to the file. *)
Definition alice_new_tree : gmap (list string) node :=
  <[ ["home"; "alice"; ".ehforwarderbot"; "default"; "new"] := Dir ]>
    alice_file_tree.

(** A function object, as [def] leaves it. *)
Definition sample_function : function :=
  {| func_code := λ args, PyStr "done"; func_dict := {[ "__doc__" := PyStr "help" ]} |}.

(** A store with two function objects, a built-in function, a method bound
    to an object and a class. *)
Definition sample_heap : gmap nat pyobject :=
  {[ 1 := PyFunction sample_function;
     2 := PyFunction {| func_code := λ args, PyBool true; func_dict := ∅ |};
     3 := PyBuiltin (λ args, PyStr "len");
     4 := PyMethod 5 1;
     5 := PyClass ∅ ]}.

(** * Properties *)

(** ** Strings *)

Lemma append_cons (c : ascii) (s t : string) :
  String c s +:+ t = String c (s +:+ t).
Proof. done. Qed.

Lemma append_nil_l (t : string) : "" +:+ t = t.
Proof. done. Qed.

Lemma append_nil_r (s : string) : s +:+ "" = s.
Proof. induction s as [|c s IH]; [done |]. by rewrite append_cons, IH. Qed.

Lemma append_assoc (s t u : string) : (s +:+ t) +:+ u = s +:+ t +:+ u.
Proof. induction s as [|c s IH]; [done |]. by rewrite !append_cons, IH. Qed.

Lemma append_eq_nil (s t : string) : s +:+ t = "" → s = "" ∧ t = "".
Proof. destruct s; [done |]. rewrite append_cons. discriminate. Qed.

Lemma ends_with_sep_cons (c : ascii) (s : string) :
  s ≠ "" → ends_with_sep (String c s) = ends_with_sep s.
Proof. by destruct s. Qed.

Lemma ends_with_sep_app (s t : string) :
  t ≠ "" → ends_with_sep (s +:+ t) = ends_with_sep t.
Proof.
  intros Ht. induction s as [|c s IH]; [done |].
  rewrite append_cons, ends_with_sep_cons; [done |].
  intros [_ ?]%append_eq_nil. done.
Qed.

Lemma ends_with_sep_nonempty (s : string) : ends_with_sep s = true → s ≠ "".
Proof. by destruct s. Qed.

Lemma ends_with_sep_snoc (s : string) : ends_with_sep (s +:+ "/") = true.
Proof. by rewrite ends_with_sep_app. Qed.

(** ** [os.path.join] *)

Lemma join_nil (a : string) : join a [] = a.
Proof. done. Qed.

Lemma join_cons (a b : string) (p : list string) :
  join a (b :: p) = join (join_step a b) p.
Proof. done. Qed.

Lemma join_app (a : string) (p q : list string) :
  join a (p ++ q) = join (join a p) q.
Proof. apply fold_left_app. Qed.

Lemma join_step_nonempty (path b : string) :
  path ≠ "" → join_step path b ≠ "".
Proof.
  intros Hp. unfold join_step.
  destruct (starts_with_sep b) eqn:Hb; [by destruct b |].
  destruct (_ || _); intros [? _]%append_eq_nil; done.
Qed.

Lemma join_nonempty (a : string) (p : list string) : a ≠ "" → join a p ≠ "".
Proof.
  revert a. induction p as [|b p IH]; intros a Ha; [done |].
  rewrite join_cons. by apply IH, join_step_nonempty.
Qed.

(** Joining with a final empty component leaves a trailing separator. *)
Lemma join_step_empty (path : string) :
  path ≠ "" → ends_with_sep (join_step path "") = true.
Proof.
  intros Hp. unfold join_step. simpl.
  rewrite bool_decide_eq_false_2 by done. simpl.
  destruct (ends_with_sep path) eqn:He.
  - by rewrite append_nil_r.
  - apply ends_with_sep_snoc.
Qed.

Lemma join_trailing (a : string) (p : list string) :
  a ≠ "" → ends_with_sep (join a (p ++ [""])) = true.
Proof.
  intros Ha. rewrite join_app. simpl. by apply join_step_empty, join_nonempty.
Qed.

(** A further component never shortens a path that keeps its prefix. *)
Lemma join_step_dir (path b : string) :
  ends_with_sep path = true → starts_with_sep b = false →
  join_step path b = path +:+ b.
Proof.
  intros Hp Hb. unfold join_step. rewrite Hb, Hp.
  by rewrite orb_true_r.
Qed.

Lemma join_step_file (path b : string) :
  path ≠ "" → ends_with_sep path = false → starts_with_sep b = false →
  join_step path b = path +:+ "/" +:+ b.
Proof.
  intros Hne Hp Hb. unfold join_step. rewrite Hb, Hp.
  by rewrite bool_decide_eq_false_2.
Qed.

Lemma segment_starts (s : string) : segment s = true → starts_with_sep s = false.
Proof.
  destruct s as [|c s]; [done |]. unfold segment. simpl.
  by destruct (is_sep c).
Qed.

Lemma sep_free_ends (s : string) : sep_free s = true → ends_with_sep s = false.
Proof.
  induction s as [|c s IH]; [done |]. simpl.
  intros [Hc Hs]%andb_true_iff. destruct s; [by destruct (is_sep c) | by apply IH].
Qed.

Lemma segment_ends (s : string) : segment s = true → ends_with_sep s = false.
Proof. intros [_ ?]%andb_true_iff. by apply sep_free_ends. Qed.

Lemma segment_nonempty (s : string) : segment s = true → s ≠ "".
Proof. by destruct s. Qed.

(** Appending a segment to a directory path, then the empty component. *)
Lemma join_dir_segment (d s : string) :
  ends_with_sep d = true → segment s = true →
  join d [s; ""] = d +:+ s +:+ "/".
Proof.
  intros Hd Hs. unfold join. simpl.
  rewrite (join_step_dir d s) by auto using segment_starts.
  pose proof (segment_nonempty _ Hs) as Hne.
  rewrite join_step_file; [by rewrite append_assoc | | | done].
  - intros [_ ?]%append_eq_nil. done.
  - rewrite ends_with_sep_app by done. by apply segment_ends.
Qed.

Lemma join_file_segment (v s : string) :
  v ≠ "" → ends_with_sep v = false → segment s = true →
  join v [s; ""] = v +:+ "/" +:+ s +:+ "/".
Proof.
  intros Hv He Hs. unfold join. simpl.
  rewrite (join_step_file v s) by auto using segment_starts.
  pose proof (segment_nonempty _ Hs) as Hne.
  rewrite join_step_file; [by rewrite !append_assoc | | | done].
  - intros [? _]%append_eq_nil. done.
  - rewrite !ends_with_sep_app; [by apply segment_ends | done |].
    intros [? _]%append_eq_nil. done.
Qed.

(** ** [os.path.expanduser] *)

Lemma break_sep_app (s : string) :
  (break_sep s).1 +:+ (break_sep s).2 = s.
Proof.
  induction s as [|c s IH]; [done |]. simpl.
  destruct (is_sep c); [done |].
  destruct (break_sep s) as [n t]. simpl in *. by rewrite append_cons, IH.
Qed.

Lemma break_sep_fst_free (s : string) : sep_free (break_sep s).1 = true.
Proof.
  induction s as [|c s IH]; [done |]. simpl.
  destruct (is_sep c) eqn:Hc; [done |].
  destruct (break_sep s) as [n t]. simpl in *. by rewrite Hc.
Qed.

Lemma break_sep_tail_ends (s : string) :
  ends_with_sep s = true → ends_with_sep (break_sep s).2 = true.
Proof.
  intros Hs. pose proof (break_sep_app s) as Happ.
  pose proof (break_sep_fst_free s) as Hfree.
  destruct (break_sep s) as [n t]. simpl in *.
  destruct t as [|c t].
  - rewrite append_nil_r in Happ. subst n.
    apply sep_free_ends in Hfree. congruence.
  - by rewrite <- Happ, ends_with_sep_app in Hs.
Qed.

Lemma expanduser_ends_with_sep (a : ambient) (path : string) :
  ends_with_sep path = true → ends_with_sep (expanduser a path) = true.
Proof.
  intros Hp. unfold expanduser.
  destruct path as [|c rest]; [done |].
  destruct (decide (c = "~"%char)) as [->|Hc]; last first.
  { destruct c as [[] [] [] [] [] [] [] []]; try done. }
  assert (ends_with_sep rest = true) as Hrest.
  { destruct rest; [done |]. by rewrite ends_with_sep_cons in Hp. }
  apply break_sep_tail_ends in Hrest.
  destruct (break_sep rest) as [name tail]. simpl in Hrest.
  destruct (if bool_decide (name = "") then home a else _) as [h|]; [|done].
  pose proof (ends_with_sep_nonempty _ Hrest) as Hne.
  rewrite <- (ends_with_sep_app (rstrip_sep h) tail) in Hrest by done.
  by destruct (rstrip_sep h +:+ tail).
Qed.

(** The default base directory: [~] followed by a fixed suffix. *)
Lemma expanduser_tilde_slash (a : ambient) (r : string) :
  expanduser a ("~/" +:+ r) =
    match home a with
    | Some h => rstrip_sep h +:+ "/" +:+ r
    | None => "~/" +:+ r
    end.
Proof.
  unfold expanduser. simpl.
  destruct (home a) as [h|]; [|done].
  rewrite append_nil_l. change ("/" +:+ r) with (String "/" r).
  destruct (rstrip_sep h +:+ String "/" r) eqn:E; [|done].
  apply append_eq_nil in E as [_ ?]. done.
Qed.

(** ** [os.path.split] *)

Lemma length_append (s t : string) :
  String.length (s +:+ t) = String.length s + String.length t.
Proof. induction s as [|c s IH]; [done |]. rewrite append_cons. simpl. by rewrite IH. Qed.

Lemma has_nul_app (s t : string) :
  has_nul (s +:+ t) = has_nul s || has_nul t.
Proof.
  induction s as [|c s IH]; [done |]. rewrite append_cons. simpl.
  by rewrite IH, orb_assoc.
Qed.

Lemma starts_with_sep_app (s t : string) :
  s ≠ "" → starts_with_sep (s +:+ t) = starts_with_sep s.
Proof. by destruct s. Qed.

Lemma rsplit_cons (c : ascii) (r : string) :
  rsplit (String c r) =
    match (rsplit r).1 with
    | "" => if is_sep c then (String c "", (rsplit r).2)
            else ("", String c (rsplit r).2)
    | _ => (String c (rsplit r).1, (rsplit r).2)
    end.
Proof. simpl. by destruct (rsplit r) as [[|c' h] t]. Qed.

Lemma rsplit_app (s : string) : (rsplit s).1 +:+ (rsplit s).2 = s.
Proof.
  induction s as [|c s IH]; [done |]. simpl.
  destruct (rsplit s) as [h t]. simpl in *.
  destruct h as [|c' h].
  - rewrite append_nil_l in IH. subst t. by destruct (is_sep c).
  - simpl. by rewrite <- IH.
Qed.

Lemma rsplit_tail_free (s : string) : sep_free (rsplit s).2 = true.
Proof.
  induction s as [|c s IH]; [done |]. simpl.
  destruct (rsplit s) as [h t]. simpl in *.
  destruct h as [|c' h]; [|done].
  destruct (is_sep c) eqn:Hc; [done |]. simpl. by rewrite Hc.
Qed.

Lemma rsplit_head (s : string) :
  (rsplit s).1 = "" ∨ ends_with_sep (rsplit s).1 = true.
Proof.
  induction s as [|c s IH]; [by left |]. rewrite rsplit_cons.
  destruct (rsplit s) as [h t]. cbn [fst snd] in *.
  destruct h as [|c' h].
  - destruct (is_sep c) eqn:Hc; [by right | by left].
  - right. destruct IH as [?|IH]; [done |]. cbn [fst].
    by rewrite ends_with_sep_cons.
Qed.

(** What follows the last separator is the tail. *)
Lemma rsplit_sep_free (x s : string) :
  sep_free s = true → rsplit (x +:+ "/" +:+ s) = (x +:+ "/", s).
Proof.
  intros Hs. induction x as [|c x IH].
  - rewrite !append_nil_l. change ("/" +:+ s) with (String "/" s). simpl.
    assert (rsplit s = ("", s)) as ->; [|done].
    clear -Hs. induction s as [|c s IH]; [done |]. simpl in *.
    apply andb_true_iff in Hs as [Hc Hs]. rewrite (IH Hs).
    by destruct (is_sep c).
  - change (String c x +:+ "/" +:+ s) with (String c (x +:+ "/" +:+ s)).
    change (String c x +:+ "/") with (String c (x +:+ "/")).
    rewrite rsplit_cons, IH. cbn [fst snd].
    destruct (x +:+ "/") eqn:E; [|done].
    by apply append_eq_nil in E as [_ ?].
Qed.

Lemma all_sep_app (s t : string) :
  all_sep (s +:+ t) = all_sep s && all_sep t.
Proof.
  induction s as [|c s IH]; [done |]. rewrite append_cons. simpl.
  by rewrite IH, andb_assoc.
Qed.

Lemma all_sep_ends (s : string) : all_sep s = true → s ≠ "" → ends_with_sep s = true.
Proof.
  induction s as [|c s IH]; [done |]. simpl.
  intros [Hc Hs]%andb_true_iff _. destruct s; [done |]. by apply IH.
Qed.

(** A string is what [rstrip] leaves of it, followed by separators. *)
Lemma rstrip_sep_spec (h : string) :
  ∃ seps, all_sep seps = true ∧ h = rstrip_sep h +:+ seps ∧
          (rstrip_sep h = "" ∨
           (ends_with_sep (rstrip_sep h) = false ∧ all_sep (rstrip_sep h) = false)).
Proof.
  induction h as [|c h (seps & Hall & Hh & Hcase)].
  - exists "". split_and!; [done | done | by left].
  - simpl. destruct (rstrip_sep h) as [|c1 r1] eqn:E.
    + destruct (is_sep c) eqn:Hc.
      * exists (String c seps). split_and!; [|by rewrite Hh at 1 | by left].
        simpl. by rewrite Hc.
      * exists seps. split_and!; [done | by rewrite Hh at 1 |].
        right. simpl. rewrite Hc. by destruct (is_sep c).
    + exists seps. split_and!; [done | by rewrite Hh at 1 |].
      right. destruct Hcase as [?|[He Ha]]; [done |]. split.
      * by rewrite ends_with_sep_cons.
      * change (is_sep c && all_sep (String c1 r1) = false).
        rewrite Ha. apply andb_false_r.
Qed.

Lemma rstrip_sep_id (s : string) :
  ends_with_sep s = false → rstrip_sep s = s.
Proof.
  induction s as [|c s IH]; [done |]. destruct s as [|c' s].
  - simpl. by intros ->.
  - intros H. rewrite ends_with_sep_cons in H by done.
    change (rstrip_sep (String c (String c' s)))
      with (match rstrip_sep (String c' s) with
            | "" => if is_sep c then "" else String c ""
            | r' => String c r'
            end).
    by rewrite (IH H).
Qed.

Lemma rstrip_sep_snoc (s : string) : rstrip_sep (s +:+ "/") = rstrip_sep s.
Proof.
  induction s as [|c s IH]; [done |]. rewrite append_cons. simpl. by rewrite IH.
Qed.

(** The head and the tail of [split], and the separators between them. *)
Lemma split_spec (p head tail : string) :
  split p = (head, tail) →
  sep_free tail = true ∧
  ∃ seps, all_sep seps = true ∧ p = head +:+ seps +:+ tail ∧
    ((head ≠ "" ∧ all_sep head = true ∧ seps = "") ∨
     (head = "" ∧ seps = "") ∨
     (head ≠ "" ∧ ends_with_sep head = false ∧ seps ≠ "")).
Proof.
  unfold split. pose proof (rsplit_app p) as Happ.
  pose proof (rsplit_tail_free p) as Hfree.
  pose proof (rsplit_head p) as Hhead.
  destruct (rsplit p) as [h t]. simpl in *.
  destruct (rstrip_sep_spec h) as (seps & Hall & Hh & Hcase).
  destruct (rstrip_sep h) as [|c r] eqn:E.
  - intros [= <- <-]. split; [done |]. exists "".
    rewrite append_nil_l in Hh. subst seps.
    split_and!; [done | by rewrite append_nil_l |].
    destruct h; [right; by left | left; done].
  - intros [= <- <-]. split; [done |]. exists seps.
    destruct Hcase as [?|[He Ha]]; [done |].
    split_and!; [done | by rewrite <- append_assoc, <- Hh |].
    right. right. split_and!; [done | done |].
    intros ->. rewrite append_nil_r in Hh. rewrite Hh in Hhead.
    destruct Hhead as [?|?]; [done | congruence].
Qed.

(** The head and the tail [os.makedirs] works with. *)
Lemma head_tail_spec (name head tail : string) :
  head_tail name = (head, tail) → tail ≠ "" →
  sep_free tail = true ∧
  ∃ seps seps', all_sep seps = true ∧ all_sep seps' = true ∧
    name = head +:+ seps +:+ tail +:+ seps' ∧
    ((head ≠ "" ∧ all_sep head = true ∧ seps = "") ∨
     (head = "" ∧ seps = "") ∨
     (head ≠ "" ∧ ends_with_sep head = false ∧ seps ≠ "")).
Proof.
  unfold head_tail. destruct (split name) as [h1 t1] eqn:E1.
  apply split_spec in E1 as (Hf1 & seps1 & Hall1 & Hname & Hcase1).
  case_bool_decide as Ht1.
  - subst t1. rewrite append_nil_r in Hname. intros E2 Hne.
    apply split_spec in E2 as (Hf & seps & Hall & Hh1 & Hcase).
    split; [done |]. exists seps, seps1. split_and!; [done | done | | done].
    by rewrite Hname, Hh1, !append_assoc.
  - intros [= <- <-] _. split; [done |]. exists seps1, "".
    split_and!; [done | done | | done]. by rewrite append_nil_r.
Qed.

Lemma head_tail_length (name head tail : string) :
  head_tail name = (head, tail) → tail ≠ "" →
  String.length head < String.length name.
Proof.
  intros H Hne.
  destruct (head_tail_spec _ _ _ H Hne) as (_ & seps & seps' & _ & _ & -> & _).
  rewrite !length_append. destruct tail; [done |]. simpl. lia.
Qed.

Lemma head_tail_nul (name head tail : string) :
  head_tail name = (head, tail) → tail ≠ "" →
  has_nul name = has_nul head || has_nul tail.
Proof.
  intros H Hne.
  destruct (head_tail_spec _ _ _ H Hne) as (_ & seps & seps' & Ha & Ha' & -> & _).
  assert (∀ s, all_sep s = true → has_nul s = false) as Hsn.
  { induction s as [|c s IH]; [done |]. simpl.
    intros [Hc Hs]%andb_true_iff. apply bool_decide_eq_true_1 in Hc. subst c.
    by rewrite (IH Hs). }
  rewrite !has_nul_app, (Hsn _ Ha), (Hsn _ Ha'). simpl.
  by rewrite orb_false_r.
Qed.

Lemma head_tail_starts (name head tail : string) :
  head_tail name = (head, tail) → tail ≠ "" → head ≠ "" →
  starts_with_sep head = starts_with_sep name.
Proof.
  intros H Hne Hh.
  destruct (head_tail_spec _ _ _ H Hne) as (_ & seps & seps' & _ & _ & -> & _).
  by rewrite starts_with_sep_app.
Qed.

(** ** [str.split] on the separator *)

Lemma components_cons (s : string) : ∃ hd tl, components s = hd :: tl.
Proof.
  induction s as [|c s (hd & tl & IH)]; simpl; [by eauto |].
  destruct (is_sep c); [by eauto |]. rewrite IH. eauto.
Qed.

(** [(x + "/" + y).split("/") == x.split("/") + y.split("/")]. *)
Lemma components_app_sep (x y : string) :
  components (x +:+ "/" +:+ y) = components x ++ components y.
Proof.
  induction x as [|c x IH].
  - rewrite append_nil_l. by change ("/" +:+ y) with (String "/" y).
  - rewrite append_cons. simpl. rewrite IH.
    destruct (is_sep c); [done |].
    by destruct (components_cons x) as (hd & tl & ->).
Qed.

Lemma components_sep_free (s : string) : sep_free s = true → components s = [s].
Proof.
  induction s as [|c s IH]; [done |]. simpl.
  intros [Hc Hs]%andb_true_iff. apply negb_true_iff in Hc.
  by rewrite Hc, (IH Hs).
Qed.

Lemma components_all_sep (s : string) :
  all_sep s = true → components s = replicate (S (String.length s)) "".
Proof.
  induction s as [|c s IH]; [done |]. simpl.
  intros [Hc Hs]%andb_true_iff. by rewrite Hc, (IH Hs).
Qed.

Lemma components_all_sep_app (s t : string) :
  all_sep s = true → s ≠ "" → ∃ l, components (s +:+ t) = "" :: l.
Proof.
  destruct s as [|c s]; [done |]. simpl. intros [Hc _]%andb_true_iff _.
  rewrite Hc. eauto.
Qed.

(** The components of the head come first among those of the path. *)
Lemma head_tail_components (name head tail : string) :
  head_tail name = (head, tail) → tail ≠ "" → head ≠ "" →
  comps_prefix (components head) (components name).
Proof.
  intros H Hne Hh.
  destruct (head_tail_spec _ _ _ H Hne)
    as (_ & seps & seps' & Ha & Ha' & -> & [(_ & Hall & ->)|[(? & _)|(_ & He & Hs)]]).
  - right. exists (String.length head).
    destruct (components_all_sep_app head ("" +:+ tail +:+ seps') Hall Hh)
      as [l ->].
    exists l. split; [by apply components_all_sep | done].
  - done.
  - left. destruct seps as [|c seps]; [done |]. simpl in Ha.
    apply andb_true_iff in Ha as [Hc _]. apply bool_decide_eq_true_1 in Hc.
    subst c. exists (components (seps +:+ tail +:+ seps')).
    change (String "/" seps) with ("/" +:+ seps).
    by rewrite <- components_app_sep, !append_assoc.
Qed.

Lemma ends_with_sep_split (d : string) :
  ends_with_sep d = true → ∃ d', d = d' +:+ "/".
Proof.
  induction d as [|c d IH]; [done |]. destruct d as [|c' d].
  - simpl. intros Hc%bool_decide_eq_true_1. subst c. by exists "".
  - intros H. rewrite ends_with_sep_cons in H by done.
    destruct (IH H) as [d' ->]. by exists (String c d').
Qed.

(** The last segment of a path that ends with a plain segment, and of one
    that ends with a plain segment and a separator. *)
Lemma last_segment_file (x s : string) :
  segment s = true → last_segment (x +:+ "/" +:+ s) = s.
Proof.
  intros Hs. pose proof Hs as [Hne Hf]%andb_true_iff.
  unfold last_segment, head_tail, split. rewrite (rsplit_sep_free x s Hf).
  rewrite bool_decide_eq_false_2; [done |]. by apply segment_nonempty.
Qed.

Lemma last_segment_dir (x s : string) :
  segment s = true → last_segment (x +:+ "/" +:+ s +:+ "/") = s.
Proof.
  intros Hs. pose proof Hs as [Hne Hf]%andb_true_iff.
  pose proof (segment_nonempty _ Hs) as Hsne.
  unfold last_segment, head_tail, split.
  assert (x +:+ "/" +:+ s +:+ "/" = (x +:+ "/" +:+ s) +:+ "/" +:+ "") as ->.
  { by rewrite !append_assoc. }
  rewrite (rsplit_sep_free _ "") by done.
  rewrite rstrip_sep_snoc, rstrip_sep_id; last first.
  { rewrite !ends_with_sep_app; [by apply segment_ends | done |].
    intros [? _]%append_eq_nil. done. }
  destruct (x +:+ "/" +:+ s) eqn:E.
  { apply append_eq_nil in E as [_ [? _]%append_eq_nil]. done. }
  rewrite <- E. rewrite bool_decide_eq_true_2 by done.
  rewrite (rsplit_sep_free x s Hf). simpl.
  destruct (rstrip_sep (x +:+ "/")); done.
Qed.

(** ** Resolution and the directory tree *)

Lemma is_dir_mono (fs fs' : gmap (list string) node) (k : list string) :
  fs ⊆ fs' → is_dir fs k = true → is_dir fs' k = true.
Proof.
  intros Hsub. destruct k as [|c k]; [done |]. simpl.
  intros H%bool_decide_eq_true_1. apply bool_decide_eq_true_2.
  by eapply lookup_weaken.
Qed.

Lemma is_dir_agree (fs1 fs2 : gmap (list string) node) (k : list string) :
  (k ≠ [] → fs1 !! k = fs2 !! k) → is_dir fs1 k = is_dir fs2 k.
Proof. destruct k; [done |]. intros H. simpl. by rewrite H. Qed.

Lemma is_dir_lookup (fs : gmap (list string) node) (k : list string) :
  fs !! k = Some Dir → is_dir fs k = true.
Proof. intros H. destruct k; [done |]. simpl. by rewrite H, bool_decide_eq_true_2. Qed.

Lemma lookup_step_Ok (fs : gmap (list string) node) (cur : list string)
    (c : string) (k : list string) :
  lookup_step fs cur c = Ok k → is_dir fs cur = true ∧ k = next cur c.
Proof.
  unfold lookup_step, next. destruct (is_dir fs cur); [|done]. simpl.
  destruct (is_dot c); simpl; [by intros [= <-] |].
  destruct (is_dotdot c); [by intros [= <-] |].
  destruct (_ <? _)%nat; [done |].
  destruct (fs !! _); [by intros [= <-] | done].
Qed.

Lemma lookup_step_raise (fs : gmap (list string) node) (cur : list string)
    (c : string) (e : exn) :
  lookup_step fs cur c = Raise e → ∃ n, e = OSError n.
Proof.
  unfold lookup_step. destruct (negb _); [intros [= <-]; eauto |].
  destruct (_ || _); [done |].
  destruct (_ <? _)%nat; [intros [= <-]; eauto |].
  destruct (fs !! _); [done | intros [= <-]; eauto].
Qed.

Lemma lookup_step_mono (fs fs' : gmap (list string) node) (cur : list string)
    (c : string) (k : list string) :
  fs ⊆ fs' → lookup_step fs cur c = Ok k → lookup_step fs' cur c = Ok k.
Proof.
  intros Hsub. unfold lookup_step. destruct (is_dir fs cur) eqn:Hd; [|done].
  rewrite (is_dir_mono _ _ _ Hsub Hd). simpl.
  destruct (is_dot c || is_dotdot c); [done |].
  destruct (_ <? _)%nat; [done |].
  destruct (fs !! (cur ++ [c])) eqn:E; [|done].
  by rewrite (lookup_weaken _ _ _ _ E Hsub).
Qed.

Lemma lookup_step_agree (fs1 fs2 : gmap (list string) node)
    (cur : list string) (c : string) :
  (cur ≠ [] → fs1 !! cur = fs2 !! cur) →
  (next cur c ≠ [] → fs1 !! next cur c = fs2 !! next cur c) →
  lookup_step fs1 cur c = lookup_step fs2 cur c.
Proof.
  intros H1 H2. unfold lookup_step. rewrite (is_dir_agree fs1 fs2 cur H1).
  destruct (is_dir fs2 cur); [|done]. simpl. unfold next in H2.
  destruct (is_dot c); [done |]. destruct (is_dotdot c); [done |]. simpl.
  destruct (_ <? _)%nat; [done |]. rewrite H2; [done |]. by destruct cur.
Qed.

Lemma namei_cons (fs : gmap (list string) node) (cur : list string)
    (c : string) (rest : list string) :
  namei fs cur (c :: rest) =
    match lookup_step fs cur c with
    | Ok k => namei fs k rest
    | Raise e => Raise e
    end.
Proof. done. Qed.

Lemma namei_dest (fs : gmap (list string) node) (cur comps k : list string) :
  namei fs cur comps = Ok k → k = dest cur comps.
Proof.
  revert cur. induction comps as [|c rest IH]; intros cur.
  - by intros [= <-].
  - rewrite namei_cons. destruct (lookup_step fs cur c) as [k1|] eqn:E; [|done].
    apply lookup_step_Ok in E as [_ ->]. apply IH.
Qed.

Lemma namei_raise (fs : gmap (list string) node) (cur comps : list string)
    (e : exn) :
  namei fs cur comps = Raise e → ∃ n, e = OSError n.
Proof.
  revert cur. induction comps as [|c rest IH]; intros cur; [done |].
  rewrite namei_cons. destruct (lookup_step fs cur c) as [k1|e1] eqn:E.
  - apply IH.
  - intros [= <-]. by eapply lookup_step_raise.
Qed.

Lemma namei_mono (fs fs' : gmap (list string) node) (cur comps k : list string) :
  fs ⊆ fs' → namei fs cur comps = Ok k → namei fs' cur comps = Ok k.
Proof.
  intros Hsub. revert cur. induction comps as [|c rest IH]; intros cur; [done |].
  rewrite !namei_cons. destruct (lookup_step fs cur c) as [k1|] eqn:E; [|done].
  rewrite (lookup_step_mono _ _ _ _ _ Hsub E). apply IH.
Qed.

Lemma namei_app (fs : gmap (list string) node) (cur l1 l2 : list string) :
  namei fs cur (l1 ++ l2) =
    match namei fs cur l1 with
    | Ok k => namei fs k l2
    | Raise e => Raise e
    end.
Proof.
  revert cur. induction l1 as [|c l1 IH]; intros cur; [done |].
  rewrite <- app_comm_cons, !namei_cons.
  destruct (lookup_step fs cur c); [apply IH | done].
Qed.

Lemma namei_is_dir (fs : gmap (list string) node) (cur : list string)
    (c : string) (rest k : list string) :
  namei fs cur (c :: rest) = Ok k → is_dir fs cur = true.
Proof.
  rewrite namei_cons. destruct (lookup_step fs cur c) eqn:E; [|done].
  intros _. by apply lookup_step_Ok in E as [? _].
Qed.

Lemma lookup_step_empty (fs : gmap (list string) node) (cur : list string)
    (c : string) :
  is_empty c = true → is_dir fs cur = true → lookup_step fs cur c = Ok cur.
Proof.
  intros Hc%bool_decide_eq_true_1 Hd. subst c. unfold lookup_step.
  by rewrite Hd.
Qed.

Lemma namei_empties (fs : gmap (list string) node) (cur l : list string) :
  forallb is_empty l = true → is_dir fs cur = true → namei fs cur l = Ok cur.
Proof.
  induction l as [|c l IH]; [done |]. simpl.
  intros [Hc Hl]%andb_true_iff Hd. rewrite (lookup_step_empty _ _ _ Hc Hd).
  by apply IH.
Qed.

Lemma forallb_is_empty_replicate (n : nat) :
  forallb is_empty (replicate n "") = true.
Proof. induction n as [|n IH]; [done |]. simpl. exact IH. Qed.

Lemma visited_here (cur comps : list string) : cur ∈ visited cur comps.
Proof. destruct comps; apply list_elem_of_here. Qed.

Lemma dest_visited (cur comps : list string) : dest cur comps ∈ visited cur comps.
Proof.
  revert cur. induction comps as [|c rest IH]; intros cur.
  - apply list_elem_of_here.
  - simpl. apply list_elem_of_further, IH.
Qed.

Lemma visited_app (cur l1 l2 k : list string) :
  k ∈ visited cur (l1 ++ l2) ↔ k ∈ visited cur l1 ∨ k ∈ visited (dest cur l1) l2.
Proof.
  revert cur. induction l1 as [|c l1 IH]; intros cur; simpl.
  - rewrite list_elem_of_singleton. split; [by right |].
    intros [->|?]; [apply visited_here | done].
  - rewrite !elem_of_cons, IH. unfold dest. simpl. tauto.
Qed.

Lemma visited_empties (cur l k : list string) :
  forallb is_empty l = true → k ∈ visited cur l → k = cur.
Proof.
  induction l as [|c l IH]; simpl.
  - by intros _ ->%list_elem_of_singleton.
  - intros [Hc%bool_decide_eq_true_1 Hl]%andb_true_iff. subst c.
    intros [->|Hk]%elem_of_cons; [done |]. by apply IH.
Qed.

Lemma comps_prefix_visited (ch cn cur k : list string) :
  comps_prefix ch cn → k ∈ visited cur ch → k ∈ visited cur cn.
Proof.
  intros [[l ->]|(n & l & -> & ->)] Hk.
  - apply visited_app. by left.
  - apply visited_empties in Hk as ->; [apply visited_here |].
    apply (forallb_is_empty_replicate (S n)).
Qed.

Lemma comps_prefix_namei (fs : gmap (list string) node) (ch cn cur k : list string) :
  comps_prefix ch cn → namei fs cur cn = Ok k → ∃ k', namei fs cur ch = Ok k'.
Proof.
  intros [[l ->]|(n & l & -> & ->)] Hk.
  - rewrite namei_app in Hk. destruct (namei fs cur ch); [eauto | done].
  - exists cur. apply namei_empties; [apply (forallb_is_empty_replicate (S n)) |].
    by eapply namei_is_dir.
Qed.

Lemma removelast_names (l : list string) (x : string) :
  x ∈ removelast l → x ∈ l.
Proof.
  induction l as [|c l IH]; [done |]. simpl. destruct l as [|c' l].
  - by intros ?%elem_of_nil.
  - intros [->|H]%elem_of_cons; [apply list_elem_of_here |].
    by apply list_elem_of_further, IH.
Qed.

Lemma next_names (cur : list string) (c x : string) :
  x ∈ next cur c → x ∈ cur ∨ x = c.
Proof.
  unfold next. destruct (is_dot c); [by left |].
  destruct (is_dotdot c).
  - intros H%removelast_names. by left.
  - intros [?|H]%elem_of_app; [by left |].
    apply list_elem_of_singleton in H. by right.
Qed.

(** Every name of a place on the way is a name of the start or a
    component. *)
Lemma visited_names (cur comps k : list string) (x : string) :
  k ∈ visited cur comps → x ∈ k → x ∈ cur ∨ x ∈ comps.
Proof.
  revert cur. induction comps as [|c rest IH]; intros cur; simpl.
  - intros ->%list_elem_of_singleton ?. by left.
  - intros [->|Hk]%elem_of_cons Hx; [by left |].
    destruct (IH _ Hk Hx) as [H|H].
    + apply next_names in H as [H|H]; [by left |].
      subst x. right. apply list_elem_of_here.
    + right. by apply list_elem_of_further.
Qed.

Lemma namei_agree (fs1 fs2 : gmap (list string) node) (cur comps : list string) :
  (∀ k, k ∈ visited cur comps → k ≠ [] → fs1 !! k = fs2 !! k) →
  namei fs1 cur comps = namei fs2 cur comps.
Proof.
  revert cur. induction comps as [|c rest IH]; intros cur Hag; [done |].
  rewrite !namei_cons.
  rewrite (lookup_step_agree fs1 fs2 cur c).
  - destruct (lookup_step fs2 cur c) as [k1|] eqn:E; [|done].
    apply lookup_step_Ok in E as [_ ->]. apply IH.
    intros k Hk. apply Hag. simpl. by apply list_elem_of_further.
  - apply Hag. apply visited_here.
  - apply Hag. simpl. apply list_elem_of_further, visited_here.
Qed.

(** ** [os.mkdir] *)

Lemma mkdir_walk_key (fs : gmap (list string) node) (cur comps : list string) :
  mkdir_walk fs cur comps =
    match mkdir_key fs cur comps with
    | Ok k => Ok (<[k := Dir]> fs)
    | Raise e => Raise e
    end.
Proof.
  revert cur. induction comps as [|c rest IH]; intros cur; simpl; [done |].
  destruct (forallb is_empty rest).
  - destruct (negb _); [done |]. destruct (_ || _); [done |].
    destruct (_ <? _)%nat; [done |]. by destruct (fs !! _).
  - destruct (lookup_step fs cur c); [apply IH | done].
Qed.

Lemma mkdir_key_raise (fs : gmap (list string) node) (cur comps : list string)
    (e : exn) :
  mkdir_key fs cur comps = Raise e → ∃ n, e = OSError n.
Proof.
  revert cur. induction comps as [|c rest IH]; intros cur; simpl.
  { intros [= <-]. eauto. }
  destruct (forallb is_empty rest).
  - destruct (negb _); [intros [= <-]; eauto |].
    destruct (_ || _); [intros [= <-]; eauto |].
    destruct (_ <? _)%nat; [intros [= <-]; eauto |].
    destruct (fs !! _); [intros [= <-]; eauto | done].
  - destruct (lookup_step fs cur c) eqn:E; [apply IH |].
    intros [= <-]. by eapply lookup_step_raise.
Qed.

(** The entry [mkdir] makes lies on the way and is new, and once it is
    there the path resolves to it. *)
Lemma mkdir_key_Ok (fs : gmap (list string) node) (cur comps k : list string) :
  mkdir_key fs cur comps = Ok k →
  k ∈ visited cur comps ∧ k ≠ [] ∧ fs !! k = None ∧
  ∀ fs', fs ⊆ fs' → fs' !! k = Some Dir → namei fs' cur comps = Ok k.
Proof.
  revert cur. induction comps as [|c rest IH]; intros cur; simpl; [done |].
  destruct (forallb is_empty rest) eqn:Hrest.
  - destruct (is_dir fs cur) eqn:Hd; [|done]. simpl.
    destruct (is_dot c || is_dotdot c) eqn:Hc; [done |].
    destruct (_ <? _)%nat eqn:Hlen; [done |].
    destruct (fs !! (cur ++ [c])) eqn:E; [done |]. intros [= <-].
    apply orb_false_iff in Hc as [Hc1 Hc2].
    assert (next cur c = cur ++ [c]) as Hnext.
    { unfold next. by rewrite Hc1, Hc2. }
    split_and!.
    + apply list_elem_of_further. rewrite Hnext. apply visited_here.
    + by destruct cur.
    + done.
    + intros fs' Hsub Hk.
      assert (lookup_step fs' cur c = Ok (cur ++ [c])) as ->.
      { unfold lookup_step. rewrite (is_dir_mono _ _ _ Hsub Hd). simpl.
        by rewrite Hc1, Hc2, Hlen, Hk. }
      apply namei_empties; [done | by apply is_dir_lookup].
  - destruct (lookup_step fs cur c) as [k1|] eqn:E; [|done].
    intros (Hin & Hne & Hnone & Hpost)%IH.
    pose proof (lookup_step_Ok _ _ _ _ E) as [_ ->].
    split_and!; [by apply list_elem_of_further | done | done |].
    intros fs' Hsub Hk.
    rewrite (lookup_step_mono _ _ _ _ _ Hsub E). by apply Hpost.
Qed.

Lemma mkdir_key_agree (fs1 fs2 : gmap (list string) node)
    (cur comps : list string) :
  (∀ k, k ∈ visited cur comps → k ≠ [] → fs1 !! k = fs2 !! k) →
  mkdir_key fs1 cur comps = mkdir_key fs2 cur comps.
Proof.
  revert cur. induction comps as [|c rest IH]; intros cur Hag; simpl; [done |].
  destruct (forallb is_empty rest).
  - rewrite (is_dir_agree fs1 fs2 cur) by (apply Hag, visited_here).
    destruct (negb _); [done |].
    destruct (is_dot c || is_dotdot c) eqn:Hc; [done |].
    destruct (_ <? _)%nat; [done |].
    apply orb_false_iff in Hc as [Hc1 Hc2].
    rewrite (Hag (cur ++ [c])); [done | | by destruct cur].
    simpl. apply list_elem_of_further.
    assert (next cur c = cur ++ [c]) as ->; [|apply visited_here].
    unfold next. by rewrite Hc1, Hc2.
  - rewrite (lookup_step_agree fs1 fs2 cur c).
    + destruct (lookup_step fs2 cur c) as [k1|] eqn:E; [|done].
      apply lookup_step_Ok in E as [_ ->]. apply IH.
      intros k Hk. apply Hag. simpl. by apply list_elem_of_further.
    + apply Hag. apply visited_here.
    + apply Hag. simpl. apply list_elem_of_further, visited_here.
Qed.

(** [mkdir] of a path that resolves raises. *)
Lemma namei_mkdir_key (fs : gmap (list string) node) (cur comps k : list string) :
  namei fs cur comps = Ok k → ∃ n, mkdir_key fs cur comps = Raise (OSError n).
Proof.
  revert cur. induction comps as [|c rest IH]; intros cur; [by eauto |].
  rewrite namei_cons. simpl.
  destruct (lookup_step fs cur c) as [k1|] eqn:E; [|done]. intros Hk.
  destruct (forallb is_empty rest); [|by eapply IH].
  pose proof (lookup_step_Ok _ _ _ _ E) as [Hd _].
  unfold lookup_step in E. rewrite Hd in *. simpl in *.
  destruct (is_dot c || is_dotdot c); [by eauto |].
  destruct (_ <? _)%nat; [by eauto |].
  destruct (fs !! (cur ++ [c])); [by eauto | done].
Qed.

(** ** From paths to entries *)

Lemma start_Ok (a : ambient) (fs : gmap (list string) node) (path : string)
    (cur : list string) :
  start a fs path = Ok cur → cur = start_key a path.
Proof.
  unfold start, start_key. destruct (starts_with_sep path); [by intros [= <-] |].
  destruct (is_dir fs (cwd a)); [by intros [= <-] | done].
Qed.

Lemma start_raise (a : ambient) (fs : gmap (list string) node) (path : string)
    (e : exn) :
  start a fs path = Raise e → e = OSError ENOENT.
Proof.
  unfold start. destruct (starts_with_sep path); [done |].
  destruct (is_dir fs (cwd a)); [done | by intros [= <-]].
Qed.

Lemma start_mono (a : ambient) (fs fs' : gmap (list string) node)
    (path : string) (cur : list string) :
  fs ⊆ fs' → start a fs path = Ok cur → start a fs' path = Ok cur.
Proof.
  intros Hsub. unfold start. destruct (starts_with_sep path); [done |].
  destruct (is_dir fs (cwd a)) eqn:E; [|done].
  by rewrite (is_dir_mono _ _ _ Hsub E).
Qed.

Lemma footprint_visited (a : ambient) (path : string) (k : list string) :
  k ∈ footprint a path ↔
  k ∈ visited (start_key a path) (components path) ∧ k ≠ [].
Proof. unfold footprint. rewrite list_elem_of_filter. tauto. Qed.

Lemma agree_on_visited (a : ambient) (path : string)
    (fs1 fs2 : gmap (list string) node) :
  agree_on (footprint a path) fs1 fs2 →
  ∀ k, k ∈ visited (start_key a path) (components path) → k ≠ [] →
       fs1 !! k = fs2 !! k.
Proof. intros Hag k Hk Hne. apply Hag. by apply footprint_visited. Qed.

Lemma start_agree (a : ambient) (fs1 fs2 : gmap (list string) node)
    (path : string) :
  agree_on (footprint a path) fs1 fs2 → start a fs1 path = start a fs2 path.
Proof.
  intros Hag. pose proof (agree_on_visited _ _ _ _ Hag) as Hv.
  unfold start, start_key in *. destruct (starts_with_sep path); [done |].
  rewrite (is_dir_agree fs1 fs2 (cwd a)); [done |]. apply Hv, visited_here.
Qed.

Lemma stat_agree (a : ambient) (fs1 fs2 : gmap (list string) node)
    (path : string) :
  agree_on (footprint a path) fs1 fs2 → stat a fs1 path = stat a fs2 path.
Proof.
  intros Hag. unfold stat. destruct (check_path path); [|done].
  unfold mbind, result_bind. rewrite (start_agree _ _ _ _ Hag).
  destruct (start a fs2 path) as [cur|] eqn:E; [|done].
  apply start_Ok in E as ->. apply namei_agree.
  by apply agree_on_visited.
Qed.

Lemma stat_footprint (a : ambient) (fs : gmap (list string) node)
    (path : string) (k : list string) :
  stat a fs path = Ok k → k ≠ [] → k ∈ footprint a path.
Proof.
  unfold stat. destruct (check_path path); [|done].
  unfold mbind, result_bind.
  destruct (start a fs path) as [cur|] eqn:E; [|done].
  apply start_Ok in E as ->. intros ->%namei_dest Hne.
  apply footprint_visited. split; [apply dest_visited | done].
Qed.

Lemma path_exists_agree (a : ambient) (fs1 fs2 : gmap (list string) node)
    (path : string) :
  agree_on (footprint a path) fs1 fs2 →
  path_exists a fs1 path = path_exists a fs2 path.
Proof. intros Hag. unfold path_exists. by rewrite (stat_agree _ _ _ _ Hag). Qed.

Lemma isdir_agree (a : ambient) (fs1 fs2 : gmap (list string) node)
    (path : string) :
  agree_on (footprint a path) fs1 fs2 → isdir a fs1 path = isdir a fs2 path.
Proof.
  intros Hag. unfold isdir. rewrite (stat_agree _ _ _ _ Hag).
  destruct (stat a fs2 path) as [k|] eqn:E; [|done].
  apply is_dir_agree. intros Hne. apply Hag. by eapply stat_footprint.
Qed.

Lemma stat_mono (a : ambient) (fs fs' : gmap (list string) node)
    (path : string) (k : list string) :
  fs ⊆ fs' → stat a fs path = Ok k → stat a fs' path = Ok k.
Proof.
  intros Hsub. unfold stat. destruct (check_path path); [|done].
  unfold mbind, result_bind.
  destruct (start a fs path) as [cur|] eqn:E; [|done].
  rewrite (start_mono _ _ _ _ _ Hsub E). by apply namei_mono.
Qed.

Lemma isdir_mono (a : ambient) (fs fs' : gmap (list string) node)
    (path : string) :
  fs ⊆ fs' → isdir a fs path = true → isdir a fs' path = true.
Proof.
  intros Hsub. unfold isdir. destruct (stat a fs path) as [k|] eqn:E; [|done].
  rewrite (stat_mono _ _ _ _ _ Hsub E). by apply is_dir_mono.
Qed.

Lemma check_path_raise (path : string) (e : exn) :
  check_path path = Raise e →
  (∃ n, e = OSError n) ∨ (e = ValueError ∧ has_nul path = true).
Proof.
  unfold check_path. destruct (has_nul path); [intros [= <-]; by right |].
  case_bool_decide; [intros [= <-]; left; eauto |].
  destruct (_ <=? _)%nat; [intros [= <-]; left; eauto | done].
Qed.


Lemma mkdir_eq (a : ambient) (path : string) (fs : gmap (list string) node) :
  mkdir a path fs =
    match mkdir_target a fs path with
    | Ok k => (Ok (), <[k := Dir]> fs)
    | Raise e => (Raise e, fs)
    end.
Proof.
  unfold mkdir, mkdir_target. destruct (check_path path); [|done].
  unfold mbind, result_bind. destruct (start a fs path); [|done].
  rewrite mkdir_walk_key. by destruct (mkdir_key _ _ _).
Qed.

Lemma mkdir_target_agree (a : ambient) (fs1 fs2 : gmap (list string) node)
    (path : string) :
  agree_on (footprint a path) fs1 fs2 →
  mkdir_target a fs1 path = mkdir_target a fs2 path.
Proof.
  intros Hag. unfold mkdir_target. destruct (check_path path); [|done].
  unfold mbind, result_bind. rewrite (start_agree _ _ _ _ Hag).
  destruct (start a fs2 path) as [cur|] eqn:E; [|done].
  apply start_Ok in E as ->. apply mkdir_key_agree.
  by apply agree_on_visited.
Qed.

Lemma mkdir_target_Ok (a : ambient) (fs : gmap (list string) node)
    (path : string) (k : list string) :
  mkdir_target a fs path = Ok k →
  k ∈ footprint a path ∧ fs !! k = None ∧
  ∀ fs', fs ⊆ fs' → fs' !! k = Some Dir → stat a fs' path = Ok k.
Proof.
  unfold mkdir_target, stat. destruct (check_path path); [|done].
  unfold mbind, result_bind.
  destruct (start a fs path) as [cur|] eqn:E; [|done].
  intros (Hin & Hne & Hnone & Hpost)%mkdir_key_Ok.
  pose proof (start_Ok _ _ _ _ E) as ->.
  split_and!; [by apply footprint_visited | done |].
  intros fs' Hsub Hk. rewrite (start_mono _ _ _ _ _ Hsub E). by apply Hpost.
Qed.

Lemma mkdir_target_raise (a : ambient) (fs : gmap (list string) node)
    (path : string) (e : exn) :
  mkdir_target a fs path = Raise e →
  (∃ n, e = OSError n) ∨ (e = ValueError ∧ has_nul path = true).
Proof.
  unfold mkdir_target. destruct (check_path path) eqn:Ec.
  - unfold mbind, result_bind. destruct (start a fs path) eqn:Es.
    + intros H%mkdir_key_raise. by left.
    + intros [= <-]. apply start_raise in Es as ->. left. eauto.
  - intros [= <-]. by apply check_path_raise.
Qed.

Lemma stat_mkdir_target (a : ambient) (fs : gmap (list string) node)
    (path : string) (k : list string) :
  stat a fs path = Ok k → ∃ n, mkdir_target a fs path = Raise (OSError n).
Proof.
  unfold stat, mkdir_target. destruct (check_path path); [|done].
  unfold mbind, result_bind. destruct (start a fs path); [|done].
  apply namei_mkdir_key.
Qed.

Lemma mkdir_exist_ok_eq (a : ambient) (name : string)
    (fs : gmap (list string) node) :
  mkdir_exist_ok a name fs =
    match mkdir_target a fs name with
    | Ok k => (Ok (), <[k := Dir]> fs)
    | Raise (OSError n) =>
        if isdir a fs name then (Ok (), fs) else (Raise (OSError n), fs)
    | Raise e => (Raise e, fs)
    end.
Proof.
  unfold mkdir_exist_ok. rewrite mkdir_eq.
  by destruct (mkdir_target a fs name) as [k|[]].
Qed.

(** ** Trees that grow *)

Lemma grown_refl (fs : gmap (list string) node) : grown fs fs.
Proof. split; [done |]. intros k n H1 H2. congruence. Qed.

Lemma grown_trans (fs1 fs2 fs3 : gmap (list string) node) :
  grown fs1 fs2 → grown fs2 fs3 → grown fs1 fs3.
Proof.
  intros [S1 D1] [S2 D2]. split; [by etrans |].
  intros k n Hnone H3. destruct (fs2 !! k) as [m|] eqn:E.
  - pose proof (D1 _ _ Hnone E) as ->.
    pose proof (lookup_weaken _ _ _ _ E S2). congruence.
  - by eapply D2.
Qed.

Lemma grown_insert (fs : gmap (list string) node) (k : list string) :
  fs !! k = None → grown fs (<[k := Dir]> fs).
Proof.
  intros Hk. split; [by apply insert_subseteq |].
  intros k' n Hnone. destruct (decide (k = k')) as [->|Hne].
  - rewrite lookup_insert_eq. congruence.
  - rewrite lookup_insert_ne by done. congruence.
Qed.

(** The regular files of a grown tree are those it had. *)
Lemma grown_files (fs fs' : gmap (list string) node) :
  grown fs fs' →
  ∀ k data, fs' !! k = Some (File data) ↔ fs !! k = Some (File data).
Proof.
  intros [Hsub Hdir] k data. split.
  - intros Hk. destruct (fs !! k) as [n|] eqn:E.
    + pose proof (lookup_weaken _ _ _ _ E Hsub). congruence.
    + by pose proof (Hdir _ _ E Hk).
  - intros Hk. by eapply lookup_weaken.
Qed.

Lemma add_dirs_cons (k : list string) (ks : list (list string))
    (fs : gmap (list string) node) :
  add_dirs (k :: ks) fs = <[k := Dir]> (add_dirs ks fs).
Proof. done. Qed.

Lemma add_dirs_app (ks2 ks1 : list (list string)) (fs : gmap (list string) node) :
  add_dirs (ks2 ++ ks1) fs = add_dirs ks2 (add_dirs ks1 fs).
Proof. apply foldr_app. Qed.

Lemma add_dirs_agree (F ks : list (list string))
    (fs1 fs2 : gmap (list string) node) :
  agree_on F fs1 fs2 → agree_on F (add_dirs ks fs1) (add_dirs ks fs2).
Proof.
  intros Hag. induction ks as [|k ks IH]; [done |].
  intros j Hj. rewrite !add_dirs_cons.
  destruct (decide (k = j)) as [->|Hne].
  - by rewrite !lookup_insert_eq.
  - rewrite !lookup_insert_ne by done. by apply IH.
Qed.

Lemma add_dirs_frame (ks : list (list string)) (fs : gmap (list string) node)
    (k : list string) :
  k ∉ ks → add_dirs ks fs !! k = fs !! k.
Proof.
  induction ks as [|k' ks IH]; [done |]. intros Hk. rewrite add_dirs_cons.
  rewrite lookup_insert_ne; [apply IH |]; set_solver.
Qed.

Lemma add_dirs_insert (ks : list (list string)) (fs : gmap (list string) node)
    (k : list string) (o : node) :
  k ∉ ks → add_dirs ks (<[k := o]> fs) = <[k := o]> (add_dirs ks fs).
Proof.
  induction ks as [|k' ks IH]; [done |]. intros Hk. rewrite !add_dirs_cons.
  rewrite IH by set_solver. apply insert_insert_ne. set_solver.
Qed.

Lemma add_dirs_delete (ks : list (list string)) (fs : gmap (list string) node)
    (k : list string) :
  k ∉ ks → add_dirs ks (delete k fs) = delete k (add_dirs ks fs).
Proof.
  induction ks as [|k' ks IH]; [done |]. intros Hk. rewrite !add_dirs_cons.
  rewrite IH by set_solver. symmetry. apply delete_insert_ne. set_solver.
Qed.

Lemma agree_on_weaken (F F' : list (list string))
    (fs1 fs2 : gmap (list string) node) :
  (∀ k, k ∈ F' → k ∈ F) → agree_on F fs1 fs2 → agree_on F' fs1 fs2.
Proof. intros Hsub Hag k Hk. by apply Hag, Hsub. Qed.

Lemma restrict_cons (k : list string) (ks : list (list string))
    (fs : gmap (list string) node) :
  restrict (k :: ks) fs =
    match fs !! k with
    | Some n => <[k := n]> (restrict ks fs)
    | None => restrict ks fs
    end.
Proof. unfold restrict. simpl. by destruct (fs !! k). Qed.

Lemma restrict_lookup_Some (ks : list (list string))
    (fs : gmap (list string) node) (k : list string) (n : node) :
  restrict ks fs !! k = Some n → fs !! k = Some n.
Proof.
  induction ks as [|k0 ks IH]; [done |]. rewrite restrict_cons.
  destruct (fs !! k0) as [n0|] eqn:E; [|done].
  destruct (decide (k0 = k)) as [->|Hne].
  - rewrite lookup_insert_eq. congruence.
  - by rewrite lookup_insert_ne.
Qed.

Lemma restrict_lookup (ks : list (list string)) (fs : gmap (list string) node)
    (k : list string) :
  k ∈ ks → restrict ks fs !! k = fs !! k.
Proof.
  induction ks as [|k0 ks IH]; [by intros ?%elem_of_nil |].
  rewrite restrict_cons. intros Hk.
  destruct (decide (k0 = k)) as [->|Hne].
  - destruct (fs !! k) as [n|] eqn:E; [by rewrite lookup_insert_eq |].
    destruct (restrict ks fs !! k) as [n|] eqn:E'; [|done].
    apply restrict_lookup_Some in E'. congruence.
  - apply elem_of_cons in Hk as [->|Hk]; [done |].
    destruct (fs !! k0); [rewrite lookup_insert_ne by done |]; by apply IH.
Qed.

(** ** [os.makedirs] *)

Lemma mkdir_exist_ok_grown (a : ambient) (name : string)
    (fs fs' : gmap (list string) node) (r : result unit) :
  mkdir_exist_ok a name fs = (r, fs') → grown fs fs'.
Proof.
  rewrite mkdir_exist_ok_eq.
  destruct (mkdir_target a fs name) as [k|e] eqn:E.
  - intros [= _ <-]. apply grown_insert. by apply mkdir_target_Ok in E as (_ & ? & _).
  - destruct e as [|n| | | |]; try (intros [= _ <-]; apply grown_refl).
    destruct (isdir a fs name); intros [= _ <-]; apply grown_refl.
Qed.

Lemma mkdir_exist_ok_post (a : ambient) (name : string)
    (fs fs' : gmap (list string) node) :
  mkdir_exist_ok a name fs = (Ok (), fs') → isdir a fs' name = true.
Proof.
  rewrite mkdir_exist_ok_eq.
  destruct (mkdir_target a fs name) as [k|e] eqn:E.
  - intros [= <-]. destruct (mkdir_target_Ok _ _ _ _ E) as (_ & Hnone & Hpost).
    unfold isdir. rewrite (Hpost (<[k := Dir]> fs)).
    + apply is_dir_lookup, lookup_insert_eq.
    + by apply insert_subseteq.
    + apply lookup_insert_eq.
  - destruct e as [|n| | | |]; try done.
    destruct (isdir a fs name) eqn:Hd; [by intros [= <-] | done].
Qed.

Lemma mkdir_exist_ok_noop (a : ambient) (name : string)
    (fs : gmap (list string) node) :
  isdir a fs name = true → mkdir_exist_ok a name fs = (Ok (), fs).
Proof.
  intros Hd. rewrite mkdir_exist_ok_eq. pose proof Hd as Hd'.
  unfold isdir in Hd'. destruct (stat a fs name) as [k|] eqn:E; [|done].
  destruct (stat_mkdir_target _ _ _ _ E) as [n ->]. by rewrite Hd.
Qed.

Lemma mkdir_exist_ok_raise (a : ambient) (name : string)
    (fs fs' : gmap (list string) node) (e : exn) :
  mkdir_exist_ok a name fs = (Raise e, fs') →
  (∃ n, e = OSError n) ∨ (e = ValueError ∧ has_nul name = true).
Proof.
  rewrite mkdir_exist_ok_eq.
  destruct (mkdir_target a fs name) as [k|e'] eqn:E; [done |].
  apply mkdir_target_raise in E. intros H.
  assert (e = e') as ->; [|done].
  destruct e' as [|n| | | |]; try congruence.
  destruct (isdir a fs name); congruence.
Qed.


(** What [mkdir] makes is on the way, and the outcome depends on the
    entries on the way only. *)
Lemma mkdir_exist_ok_local (a : ambient) (name : string)
    (fs1 fs1' : gmap (list string) node) (r : result unit) :
  mkdir_exist_ok a name fs1 = (r, fs1') →
  ∃ ks, fs1' = add_dirs ks fs1 ∧ (∀ k, k ∈ ks → k ∈ footprint a name) ∧
    ∀ fs2, agree_on (footprint a name) fs1 fs2 →
           mkdir_exist_ok a name fs2 = (r, add_dirs ks fs2).
Proof.
  rewrite mkdir_exist_ok_eq.
  destruct (mkdir_target a fs1 name) as [k|e] eqn:E.
  - intros [= <- <-]. exists [k]. split_and!; [done | |].
    + intros k' ->%list_elem_of_singleton.
      by apply mkdir_target_Ok in E as (? & _).
    + intros fs2 Hag.
      by rewrite mkdir_exist_ok_eq, <- (mkdir_target_agree _ _ _ _ Hag), E.
  - intros H. exists []. change (add_dirs [] fs1) with fs1. split_and!.
    + destruct e as [|n| | | |]; try congruence.
      destruct (isdir a fs1 name); congruence.
    + by intros k ?%elem_of_nil.
    + intros fs2 Hag.
      rewrite mkdir_exist_ok_eq, <- (mkdir_target_agree _ _ _ _ Hag), E.
      rewrite <- (isdir_agree _ _ _ _ Hag). change (add_dirs [] fs2) with fs2.
      destruct e as [|n| | | |]; try congruence.
      destruct (isdir a fs1 name); congruence.
Qed.

Lemma makedirs_rec_unfold (n : nat) (a : ambient) (name : string)
    (fs : gmap (list string) node) :
  makedirs_rec (S n) a name fs =
    if negb (bool_decide ((head_tail name).1 = ""))
       && negb (bool_decide ((head_tail name).2 = ""))
       && negb (path_exists a fs (head_tail name).1) then
      let '(r, fs1) := makedirs_rec n a (head_tail name).1 fs in
      if passes r then
        if bool_decide ((head_tail name).2 = ".") then (Ok (), fs1)
        else mkdir_exist_ok a name fs1
      else (r, fs1)
    else mkdir_exist_ok a name fs.
Proof.
  simpl. destruct (head_tail name) as [head tail]. cbn [fst snd].
  destruct (_ && _); [|done].
  by destruct (makedirs_rec n a head fs) as [[[]|[|[]| | | |]] fs1].
Qed.

Lemma head_tail_footprint (a : ambient) (name head tail : string)
    (k : list string) :
  head_tail name = (head, tail) → head ≠ "" → tail ≠ "" →
  k ∈ footprint a head → k ∈ footprint a name.
Proof.
  intros Hht Hh Ht. rewrite !footprint_visited. intros [Hk Hne].
  split; [|done]. unfold start_key in *.
  rewrite <- (head_tail_starts _ _ _ Hht Ht Hh).
  eapply comps_prefix_visited; [|done]. by eapply head_tail_components.
Qed.

Lemma check_path_Ok (path : string) :
  check_path path = Ok () ↔
  has_nul path = false ∧ path ≠ "" ∧ String.length path < PATH_MAX.
Proof.
  unfold check_path. destruct (has_nul path); [by split; [|intros [? _]] |].
  case_bool_decide; [by split; [|intros (_ & ? & _)] |].
  destruct (_ <=? _)%nat eqn:E.
  - apply Nat.leb_le in E. split; [done |]. intros (_ & _ & ?). lia.
  - apply Nat.leb_gt in E. done.
Qed.

(** Where a path resolves, so does its head. *)
Lemma stat_head (a : ambient) (fs : gmap (list string) node)
    (name head tail : string) (k : list string) :
  head_tail name = (head, tail) → head ≠ "" → tail ≠ "" →
  stat a fs name = Ok k → path_exists a fs head = true.
Proof.
  intros Hht Hh Ht. unfold path_exists, stat.
  destruct (check_path name) as [[]|] eqn:Ec; [|done].
  apply check_path_Ok in Ec as (Hnul & _ & Hlen).
  assert (check_path head = Ok ()) as ->.
  { apply check_path_Ok. split_and!; [| done |].
    - rewrite (head_tail_nul _ _ _ Hht Ht) in Hnul.
      by apply orb_false_iff in Hnul as [? _].
    - pose proof (head_tail_length _ _ _ Hht Ht). lia. }
  unfold mbind, result_bind.
  assert (start a fs head = start a fs name) as ->.
  { unfold start. by rewrite (head_tail_starts _ _ _ Hht Ht Hh). }
  destruct (start a fs name) as [cur|]; [|done]. intros Hk.
  destruct (comps_prefix_namei fs _ _ cur k
              (head_tail_components _ _ _ Hht Ht Hh) Hk) as [k' ->].
  done.
Qed.

Lemma makedirs_rec_grown (n : nat) (a : ambient) (name : string)
    (fs fs' : gmap (list string) node) (r : result unit) :
  makedirs_rec n a name fs = (r, fs') → grown fs fs'.
Proof.
  revert name fs fs' r. induction n as [|n IH]; intros name fs fs' r.
  { intros [= _ <-]. apply grown_refl. }
  rewrite makedirs_rec_unfold. destruct (_ && _).
  - destruct (makedirs_rec n a _ fs) as [r1 fs1] eqn:E1. apply IH in E1.
    destruct (passes r1).
    + case_bool_decide; [by intros [= _ <-] |].
      intros Hm. eapply grown_trans; [exact E1 | by eapply mkdir_exist_ok_grown].
    + by intros [= _ <-].
  - apply mkdir_exist_ok_grown.
Qed.

(** A call that returns for a path whose last segment is not [.] leaves
    the directory behind. *)
Lemma makedirs_rec_post (n : nat) (a : ambient) (name : string)
    (fs fs' : gmap (list string) node) :
  makedirs_rec n a name fs = (Ok (), fs') → last_segment name ≠ "." →
  isdir a fs' name = true.
Proof.
  destruct n as [|n]; [done |]. rewrite makedirs_rec_unfold.
  unfold last_segment. intros H Hl. destruct (_ && _).
  - destruct (makedirs_rec n a _ fs) as [r1 fs1].
    destruct (passes r1) eqn:Hp.
    + rewrite bool_decide_eq_false_2 in H by done.
      by eapply mkdir_exist_ok_post.
    + injection H as -> _. done.
  - by eapply mkdir_exist_ok_post.
Qed.

(** On a directory that exists nothing is done. *)
Lemma makedirs_rec_noop (n : nat) (a : ambient) (name : string)
    (fs : gmap (list string) node) :
  isdir a fs name = true → makedirs_rec (S n) a name fs = (Ok (), fs).
Proof.
  intros Hd. rewrite makedirs_rec_unfold.
  destruct (head_tail name) as [head tail] eqn:Hht. cbn [fst snd].
  destruct (_ && _) eqn:Hc; [|by apply mkdir_exist_ok_noop].
  apply andb_true_iff in Hc as [[Hh Ht]%andb_true_iff Hex].
  apply negb_true_iff, bool_decide_eq_false_1 in Hh, Ht.
  apply negb_true_iff in Hex. unfold isdir in Hd.
  destruct (stat a fs name) as [k|] eqn:E; [|done].
  rewrite (stat_head _ _ _ _ _ _ Hht Hh Ht E) in Hex. done.
Qed.

(** What a call makes is on the way, and its outcome depends on the
    entries on the way only. *)
Lemma makedirs_rec_local (n : nat) (a : ambient) (name : string)
    (fs1 fs1' : gmap (list string) node) (r : result unit) :
  makedirs_rec n a name fs1 = (r, fs1') →
  ∃ ks, fs1' = add_dirs ks fs1 ∧ (∀ k, k ∈ ks → k ∈ footprint a name) ∧
    ∀ fs2, agree_on (footprint a name) fs1 fs2 →
           makedirs_rec n a name fs2 = (r, add_dirs ks fs2).
Proof.
  revert name fs1 fs1' r. induction n as [|n IH]; intros name fs1 fs1' r.
  { intros [= <- <-]. exists []. split_and!; [done | by intros k ?%elem_of_nil | done]. }
  rewrite makedirs_rec_unfold.
  destruct (head_tail name) as [head tail] eqn:Hht. cbn [fst snd].
  destruct (negb (bool_decide (head = "")) && negb (bool_decide (tail = "")))
    eqn:Hc; last first.
  { cbn [andb negb]. intros (ks & -> & Hks & Hloc)%mkdir_exist_ok_local.
    exists ks. split_and!; [done | done |]. intros fs2 Hag.
    rewrite makedirs_rec_unfold, Hht. cbn [fst snd]. rewrite Hc. cbn [andb negb].
    by apply Hloc. }
  pose proof Hc as [Hh Ht]%andb_true_iff.
  apply negb_true_iff, bool_decide_eq_false_1 in Hh, Ht.
  assert (∀ k, k ∈ footprint a head → k ∈ footprint a name) as Hsub.
  { intros k. by eapply head_tail_footprint. }
  assert (∀ fs2, agree_on (footprint a name) fs1 fs2 →
                 path_exists a fs2 head = path_exists a fs1 head) as Hex.
  { intros fs2 Hag. symmetry. apply path_exists_agree.
    by eapply agree_on_weaken. }
  cbn [andb negb]. destruct (path_exists a fs1 head) eqn:Hex1; cbn [andb negb].
  { intros (ks & -> & Hks & Hloc)%mkdir_exist_ok_local.
    exists ks. split_and!; [done | done |]. intros fs2 Hag.
    rewrite makedirs_rec_unfold, Hht. cbn [fst snd]. rewrite Hc, (Hex _ Hag).
    cbn [andb negb]. by apply Hloc. }
  destruct (makedirs_rec n a head fs1) as [r1 fs1m] eqn:E1.
  apply IH in E1 as (ks1 & -> & Hks1 & Hloc1).
  assert (∀ fs2, agree_on (footprint a name) fs1 fs2 →
                 makedirs_rec (S n) a name fs2 =
                   if passes r1 then
                     if bool_decide (tail = ".") then (Ok (), add_dirs ks1 fs2)
                     else mkdir_exist_ok a name (add_dirs ks1 fs2)
                   else (r1, add_dirs ks1 fs2)) as Hrun2.
  { intros fs2 Hag. rewrite makedirs_rec_unfold, Hht. cbn [fst snd].
    rewrite Hc, (Hex _ Hag). cbn [andb negb].
    by rewrite (Hloc1 fs2 (agree_on_weaken _ _ _ _ Hsub Hag)). }
  destruct (passes r1).
  - case_bool_decide.
    + intros [= <- <-]. exists ks1. split_and!; [done | by auto |].
      intros fs2 Hag. by rewrite (Hrun2 _ Hag).
    + intros (ks2 & -> & Hks2 & Hloc2)%mkdir_exist_ok_local.
      exists (ks2 ++ ks1). split_and!.
      * by rewrite add_dirs_app.
      * intros k [?|?]%elem_of_app; auto.
      * intros fs2 Hag. rewrite (Hrun2 _ Hag), add_dirs_app.
        apply Hloc2. by apply add_dirs_agree.
  - intros [= <- <-]. exists ks1. split_and!; [done | by auto |].
    intros fs2 Hag. by rewrite (Hrun2 _ Hag).
Qed.

(** The fuel does not matter once it exceeds the length of the path. *)
Lemma makedirs_rec_fuel (n m : nat) (a : ambient) (name : string)
    (fs : gmap (list string) node) :
  String.length name < n → String.length name < m →
  makedirs_rec n a name fs = makedirs_rec m a name fs.
Proof.
  revert m name fs. induction n as [|n IH]; intros m name fs Hn Hm; [lia |].
  destruct m as [|m]; [lia |]. rewrite !makedirs_rec_unfold.
  destruct (head_tail name) as [head tail] eqn:Hht. cbn [fst snd].
  destruct (_ && _) eqn:Hc; [|done].
  apply andb_true_iff in Hc as [[_ Ht]%andb_true_iff _].
  apply negb_true_iff, bool_decide_eq_false_1 in Ht.
  pose proof (head_tail_length _ _ _ Hht Ht).
  rewrite (IH m head fs); [done | lia | lia].
Qed.

(** The recursion of [os.makedirs], with the fuel out of the way. *)
Lemma makedirs_unfold (a : ambient) (name : string)
    (fs : gmap (list string) node) :
  makedirs a name fs =
    if negb (bool_decide ((head_tail name).1 = ""))
       && negb (bool_decide ((head_tail name).2 = ""))
       && negb (path_exists a fs (head_tail name).1) then
      let '(r, fs1) := makedirs a (head_tail name).1 fs in
      if passes r then
        if bool_decide ((head_tail name).2 = ".") then (Ok (), fs1)
        else mkdir_exist_ok a name fs1
      else (r, fs1)
    else mkdir_exist_ok a name fs.
Proof.
  unfold makedirs. rewrite makedirs_rec_unfold.
  destruct (head_tail name) as [head tail] eqn:Hht. cbn [fst snd].
  destruct (_ && _) eqn:Hc; [|done].
  apply andb_true_iff in Hc as [[_ Ht]%andb_true_iff _].
  apply negb_true_iff, bool_decide_eq_false_1 in Ht.
  pose proof (head_tail_length _ _ _ Hht Ht).
  rewrite (makedirs_rec_fuel (String.length name) (S (String.length head)));
    [done | lia | lia].
Qed.

(** The exceptions of [os.makedirs]: an [OSError], or a [ValueError] for a
    path with a NUL byte.  The fuel is never used up. *)
Lemma makedirs_rec_raise (n : nat) (a : ambient) (name : string)
    (fs fs' : gmap (list string) node) (e : exn) :
  String.length name < n → makedirs_rec n a name fs = (Raise e, fs') →
  (∃ x, e = OSError x) ∨ (e = ValueError ∧ has_nul name = true).
Proof.
  revert name fs fs' e. induction n as [|n IH]; intros name fs fs' e Hn; [lia |].
  rewrite makedirs_rec_unfold.
  destruct (head_tail name) as [head tail] eqn:Hht. cbn [fst snd].
  destruct (_ && _) eqn:Hc; [|apply mkdir_exist_ok_raise].
  apply andb_true_iff in Hc as [[_ Ht]%andb_true_iff _].
  apply negb_true_iff, bool_decide_eq_false_1 in Ht.
  pose proof (head_tail_length _ _ _ Hht Ht).
  destruct (makedirs_rec n a head fs) as [r1 fs1] eqn:E1.
  destruct (passes r1) eqn:Hp.
  - case_bool_decide; [done | apply mkdir_exist_ok_raise].
  - intros [= -> <-].
    assert (String.length head < n) as Hlen by lia.
    apply (IH _ _ _ _ Hlen) in E1 as [?|[-> Hnul]]; [by left |].
    right. split; [done |]. rewrite (head_tail_nul _ _ _ Hht Ht), Hnul. done.
Qed.


(** The calls depend on the ambient state by the working directory only. *)
Lemma stat_cwd (a a' : ambient) (fs : gmap (list string) node) (path : string) :
  cwd a' = cwd a → stat a' fs path = stat a fs path.
Proof. intros H. unfold stat, start. by rewrite H. Qed.

Lemma mkdir_exist_ok_cwd (a a' : ambient) (name : string)
    (fs : gmap (list string) node) :
  cwd a' = cwd a → mkdir_exist_ok a' name fs = mkdir_exist_ok a name fs.
Proof.
  intros H. rewrite !mkdir_exist_ok_eq. unfold isdir, mkdir_target, start.
  by rewrite H, (stat_cwd a a' fs name H).
Qed.

Lemma makedirs_rec_cwd (n : nat) (a a' : ambient) (name : string)
    (fs : gmap (list string) node) :
  cwd a' = cwd a → makedirs_rec n a' name fs = makedirs_rec n a name fs.
Proof.
  intros H. revert name fs. induction n as [|n IH]; intros name fs; [done |].
  rewrite !makedirs_rec_unfold. unfold path_exists.
  rewrite (stat_cwd a a' fs _ H), IH.
  destruct (_ && _); [|by apply mkdir_exist_ok_cwd].
  destruct (makedirs_rec n a _ fs) as [r1 fs1].
  destruct (passes r1); [|done]. case_bool_decide; [done |].
  by apply mkdir_exist_ok_cwd.
Qed.

Lemma makedirs_cwd (a a' : ambient) (name : string)
    (fs : gmap (list string) node) :
  cwd a' = cwd a → makedirs a' name fs = makedirs a name fs.
Proof. apply makedirs_rec_cwd. Qed.

Lemma makedirs_grown (a : ambient) (name : string)
    (fs fs' : gmap (list string) node) (r : result unit) :
  makedirs a name fs = (r, fs') → grown fs fs'.
Proof. apply makedirs_rec_grown. Qed.

Lemma makedirs_post (a : ambient) (name : string)
    (fs fs' : gmap (list string) node) :
  makedirs a name fs = (Ok (), fs') → last_segment name ≠ "." →
  isdir a fs' name = true.
Proof. apply makedirs_rec_post. Qed.

Lemma makedirs_noop (a : ambient) (name : string)
    (fs : gmap (list string) node) :
  isdir a fs name = true → makedirs a name fs = (Ok (), fs).
Proof. apply makedirs_rec_noop. Qed.

Lemma makedirs_local (a : ambient) (name : string)
    (fs1 fs1' : gmap (list string) node) (r : result unit) :
  makedirs a name fs1 = (r, fs1') →
  ∃ ks, fs1' = add_dirs ks fs1 ∧ (∀ k, k ∈ ks → k ∈ footprint a name) ∧
    ∀ fs2, agree_on (footprint a name) fs1 fs2 →
           makedirs a name fs2 = (r, add_dirs ks fs2).
Proof. apply makedirs_rec_local. Qed.

Lemma makedirs_raise (a : ambient) (name : string)
    (fs fs' : gmap (list string) node) (e : exn) :
  makedirs a name fs = (Raise e, fs') →
  (∃ x, e = OSError x) ∨ (e = ValueError ∧ has_nul name = true).
Proof. apply makedirs_rec_raise. lia. Qed.


(** The fuel given to [makedirs] is never used up. *)
Lemma makedirs_fuel (a : ambient) (name : string)
    (fs fs' : gmap (list string) node) (r : result unit) :
  makedirs a name fs = (r, fs') → r ≠ Raise RecursionError.
Proof.
  intros H ->. apply makedirs_raise in H as [[x ?]|[? _]]; discriminate.
Qed.

(** ** Plans *)

Arguments join : simpl never.
Arguments expanduser : simpl never.
Arguments getuser : simpl never.
Arguments makedirs : simpl never.

Ltac unfold_monad :=
  repeat progress
    (unfold planned, mbind, M_bind, result_bind, lift, mret, M_ret, result_ret;
     simpl).

(** Closes an equation between closed terms by evaluation. *)
Ltac vm_refl :=
  lazymatch goal with
  | |- ?l = ?r => vm_cast_no_check (@eq_refl _ r)
  end.

Ltac case_makedirs :=
  repeat match goal with
         | |- context [makedirs ?a ?p ?fs] =>
             destruct (makedirs a p fs) as [[[]|?] ?]; unfold_monad
         end.

Lemma ensure_all_cons (a : ambient) (d : string) (ds : list string)
    (fs : gmap (list string) node) :
  ensure_all a (d :: ds) fs =
    match makedirs a d fs with
    | (Ok _, fs1) => ensure_all a ds fs1
    | (Raise e, fs1) => (Raise e, fs1)
    end.
Proof. done. Qed.

Lemma ensure_all_Ok (a : ambient) (d : string) (ds : list string)
    (fs fs' : gmap (list string) node) :
  ensure_all a (d :: ds) fs = (Ok (), fs') ↔
  ∃ fs1, makedirs a d fs = (Ok (), fs1) ∧ ensure_all a ds fs1 = (Ok (), fs').
Proof.
  rewrite ensure_all_cons.
  destruct (makedirs a d fs) as [[[]|e] fs1]; split.
  - eauto.
  - by intros (? & [= <-] & ?).
  - done.
  - by intros (? & ? & _).
Qed.

Lemma footprints_cons (a : ambient) (d : string) (ds : list string)
    (k : list string) :
  k ∈ footprints a (d :: ds) ↔ k ∈ footprint a d ∨ k ∈ footprints a ds.
Proof. unfold footprints. by rewrite bind_cons, elem_of_app. Qed.

Lemma footprints_nil (a : ambient) (k : list string) : k ∉ footprints a [].
Proof. by intros ?%elem_of_nil. Qed.

Lemma ensure_all_grown (a : ambient) (ds : list string)
    (fs fs' : gmap (list string) node) (r : result unit) :
  ensure_all a ds fs = (r, fs') → grown fs fs'.
Proof.
  revert fs. induction ds as [|d ds IH]; intros fs.
  - intros [= _ <-]. apply grown_refl.
  - rewrite ensure_all_cons.
    destruct (makedirs a d fs) as [[[]|e] fs1] eqn:E1.
    + intros H. eapply grown_trans; [by eapply makedirs_grown | by eapply IH].
    + intros [= _ <-]. by eapply makedirs_grown.
Qed.

(** What a plan makes lies in its footprint, and its outcome depends on
    the entries of its footprint only. *)
Lemma ensure_all_local (a : ambient) (ds : list string)
    (fs1 fs1' : gmap (list string) node) (r : result unit) :
  ensure_all a ds fs1 = (r, fs1') →
  ∃ ks, fs1' = add_dirs ks fs1 ∧ (∀ k, k ∈ ks → k ∈ footprints a ds) ∧
    ∀ fs2, agree_on (footprints a ds) fs1 fs2 →
           ensure_all a ds fs2 = (r, add_dirs ks fs2).
Proof.
  revert fs1. induction ds as [|d ds IH]; intros fs1.
  - intros [= <- <-]. exists [].
    split_and!; [done | by intros k ?%elem_of_nil | done].
  - rewrite ensure_all_cons.
    destruct (makedirs a d fs1) as [r1 fs1m] eqn:E1.
    apply makedirs_local in E1 as (ks1 & -> & Hks1 & Hloc1).
    assert (∀ fs2, agree_on (footprints a (d :: ds)) fs1 fs2 →
                   makedirs a d fs2 = (r1, add_dirs ks1 fs2)) as Hrun.
    { intros fs2 Hag. apply Hloc1. eapply agree_on_weaken; [|exact Hag].
      intros k Hk. apply footprints_cons. by left. }
    destruct r1 as [[]|e].
    + intros (ks2 & -> & Hks2 & Hloc2)%IH. exists (ks2 ++ ks1). split_and!.
      * by rewrite add_dirs_app.
      * intros k [?|?]%elem_of_app; apply footprints_cons; auto.
      * intros fs2 Hag. rewrite ensure_all_cons, (Hrun _ Hag), add_dirs_app.
        apply Hloc2, add_dirs_agree. eapply agree_on_weaken; [|exact Hag].
        intros k Hk. apply footprints_cons. by right.
    + intros [= <- <-]. exists ks1. split_and!; [done | |].
      * intros k ?. apply footprints_cons. auto.
      * intros fs2 Hag. by rewrite ensure_all_cons, (Hrun _ Hag).
Qed.

Lemma ensure_all_frame (a : ambient) (ds : list string)
    (fs fs' : gmap (list string) node) (r : result unit) :
  ensure_all a ds fs = (r, fs') →
  ∀ k, k ∉ footprints a ds → fs' !! k = fs !! k.
Proof.
  intros (ks & -> & Hks & _)%ensure_all_local k Hk.
  apply add_dirs_frame. intros Hin. by apply Hk, Hks.
Qed.

(** Writing or removing an entry off the footprint beforehand changes
    neither the outcome nor what is made. *)
Lemma ensure_all_insert (a : ambient) (ds : list string)
    (fs fs' : gmap (list string) node) (r : result unit)
    (k : list string) (o : node) :
  ensure_all a ds fs = (r, fs') → k ∉ footprints a ds →
  ensure_all a ds (<[k := o]> fs) = (r, <[k := o]> fs').
Proof.
  intros (ks & -> & Hks & Hloc)%ensure_all_local Hk.
  rewrite (Hloc (<[k := o]> fs)).
  - rewrite add_dirs_insert; [done |]. intros Hin. by apply Hk, Hks.
  - intros j Hj. rewrite lookup_insert_ne; [done |]. by intros ->.
Qed.

Lemma ensure_all_delete (a : ambient) (ds : list string)
    (fs fs' : gmap (list string) node) (r : result unit) (k : list string) :
  ensure_all a ds fs = (r, fs') → k ∉ footprints a ds →
  ensure_all a ds (delete k fs) = (r, delete k fs').
Proof.
  intros (ks & -> & Hks & Hloc)%ensure_all_local Hk.
  rewrite (Hloc (delete k fs)).
  - rewrite add_dirs_delete; [done |]. intros Hin. by apply Hk, Hks.
  - intros j Hj. rewrite lookup_delete_ne; [done |]. by intros ->.
Qed.

(** The outcome alone, on two trees that agree on the footprint. *)
Lemma ensure_all_outcome (a : ambient) (ds : list string)
    (fs1 fs2 : gmap (list string) node) :
  agree_on (footprints a ds) fs1 fs2 →
  (ensure_all a ds fs2).1 = (ensure_all a ds fs1).1.
Proof.
  intros Hag. destruct (ensure_all a ds fs1) as [r fs1'] eqn:E.
  apply ensure_all_local in E as (ks & _ & _ & Hloc).
  by rewrite (Hloc _ Hag).
Qed.

(** After a plan has run, its directories exist, those apart whose last
    segment is [.]. *)
Lemma ensure_all_isdir (a : ambient) (ds : list string)
    (fs fs' : gmap (list string) node) :
  ensure_all a ds fs = (Ok (), fs') →
  ∀ d, d ∈ ds → last_segment d ≠ "." → isdir a fs' d = true.
Proof.
  revert fs. induction ds as [|d0 ds IH]; intros fs.
  - intros _ d Hd. by apply elem_of_nil in Hd.
  - intros (fs1 & H1 & H2)%ensure_all_Ok d [->|Hd]%elem_of_cons Hl.
    + eapply isdir_mono; [by eapply ensure_all_grown |].
      by eapply makedirs_post.
    + by eapply IH.
Qed.

Lemma ensure_all_noop (a : ambient) (ds : list string)
    (fs : gmap (list string) node) :
  (∀ d, d ∈ ds → isdir a fs d = true) → ensure_all a ds fs = (Ok (), fs).
Proof.
  induction ds as [|d ds IH]; intros Hds; [done |].
  apply ensure_all_Ok. exists fs. split.
  - apply makedirs_noop, Hds, list_elem_of_here.
  - apply IH. intros d' Hd'. by apply Hds, list_elem_of_further.
Qed.

Lemma ensure_all_twice (a : ambient) (ds : list string)
    (fs fs' : gmap (list string) node) :
  ensure_all a ds fs = (Ok (), fs') → (∀ d, d ∈ ds → last_segment d ≠ ".") →
  ensure_all a ds fs' = (Ok (), fs').
Proof.
  intros H Hl. apply ensure_all_noop. intros d Hd.
  eapply ensure_all_isdir; eauto.
Qed.

Lemma ensure_all_raise (a : ambient) (ds : list string)
    (fs fs' : gmap (list string) node) (e : exn) :
  ensure_all a ds fs = (Raise e, fs') → (∃ x, e = OSError x) ∨ e = ValueError.
Proof.
  revert fs. induction ds as [|d ds IH]; intros fs; [done |].
  rewrite ensure_all_cons.
  destruct (makedirs a d fs) as [[[]|e'] fs1] eqn:E1; [apply IH |].
  intros [= <- <-]. apply makedirs_raise in E1 as [?|[? _]]; auto.
Qed.

Lemma ensure_all_cwd (a a' : ambient) (ds : list string)
    (fs : gmap (list string) node) :
  cwd a' = cwd a → ensure_all a' ds fs = ensure_all a ds fs.
Proof.
  intros H. revert fs. induction ds as [|d ds IH]; intros fs; [done |].
  rewrite !ensure_all_cons, (makedirs_cwd a a' d fs H).
  destruct (makedirs a d fs) as [[[]|e] fs1]; [apply IH | done].
Qed.

Lemma planned_eq {A} (a : ambient) (plan : result (list string * A))
    (fs : gmap (list string) node) :
  planned a plan fs =
    match plan with
    | Ok (ds, x) =>
        match ensure_all a ds fs with
        | (Ok _, fs') => (Ok x, fs')
        | (Raise e, fs') => (Raise e, fs')
        end
    | Raise e => (Raise e, fs)
    end.
Proof.
  unfold planned, mbind, M_bind, lift, mret, M_ret.
  destruct plan as [[ds x]|e]; [|done]. simpl.
  by destruct (ensure_all a ds fs) as [[[]|e] fs'].
Qed.

Lemma planned_Ok {A} (a : ambient) (plan : result (list string * A))
    (fs fs' : gmap (list string) node) (x : A) :
  planned a plan fs = (Ok x, fs') ↔
  ∃ ds, plan = Ok (ds, x) ∧ ensure_all a ds fs = (Ok (), fs').
Proof.
  rewrite planned_eq. destruct plan as [[ds x0]|e].
  - destruct (ensure_all a ds fs) as [[[]|e] fs1] eqn:E; split.
    + intros [= <- <-]. eauto.
    + intros (? & [= <- <-] & H). congruence.
    + done.
    + intros (? & [= <- <-] & H). congruence.
  - split; [done | by intros (? & ? & _)].
Qed.

Lemma planned_Raise {A} (a : ambient) (plan : result (list string * A))
    (fs fs' : gmap (list string) node) (e : exn) :
  planned a plan fs = (Raise e, fs') ↔
  (plan = Raise e ∧ fs' = fs) ∨
  ∃ ds x, plan = Ok (ds, x) ∧ ensure_all a ds fs = (Raise e, fs').
Proof.
  rewrite planned_eq. destruct plan as [[ds x0]|e0].
  - destruct (ensure_all a ds fs) as [[[]|e1] fs1] eqn:E; split.
    + done.
    + intros [[? _]|(? & ? & [= <- <-] & H)]; [done | congruence].
    + intros [= <- <-]. right. eauto.
    + intros [[? _]|(? & ? & [= <- <-] & H)]; [done | congruence].
  - split.
    + intros [= <- <-]. by left.
    + intros [[[= <-] ->]|(? & ? & ? & _)]; done.
Qed.

(** A plan changes the tree by adding directories of its footprint,
    whatever its outcome. *)
Lemma planned_grown {A} (a : ambient) (plan : result (list string * A))
    (fs fs' : gmap (list string) node) (r : result A) :
  planned a plan fs = (r, fs') → grown fs fs'.
Proof.
  rewrite planned_eq. destruct plan as [[ds x]|e].
  - destruct (ensure_all a ds fs) as [r0 fs1] eqn:E.
    apply ensure_all_grown in E. by destruct r0; intros [= _ <-].
  - intros [= _ <-]. apply grown_refl.
Qed.

(** ** The path functions follow their plans *)

Lemma get_base_path_plan (a : ambient) (fs : gmap (list string) node) :
  get_base_path a fs = planned a (base_plan a) fs.
Proof.
  unfold get_base_path, base_plan, base_path_of. unfold_monad.
  destruct (py_bool (environ a !! "EFB_DATA_PATH")); unfold_monad.
  - destruct (getuser a); unfold_monad; [|done]. by case_makedirs.
  - by case_makedirs.
Qed.

Lemma get_data_path_plan (a : ambient) (channel_id : string)
    (fs : gmap (list string) node) :
  get_data_path a channel_id fs = planned a (data_plan a channel_id) fs.
Proof.
  unfold get_data_path, mbind at 1, M_bind at 1.
  rewrite get_base_path_plan. unfold data_plan, base_plan. unfold_monad.
  destruct (base_path_of a); unfold_monad; [|done]. by case_makedirs.
Qed.

Lemma get_config_path_plan (a : ambient) (channel_id : option string)
    (ext : string) (fs : gmap (list string) node) :
  get_config_path a channel_id ext fs =
  planned a (config_plan a channel_id ext) fs.
Proof.
  unfold get_config_path, mbind at 1, M_bind at 1.
  rewrite get_base_path_plan. unfold config_plan, config_dir_of, base_plan.
  destruct (py_bool channel_id); unfold_monad;
    (destruct (base_path_of a) as [b|e] eqn:Eb; unfold_monad; [|done]).
  - destruct (makedirs a b fs) as [[[]|e] fs1] eqn:E1; unfold_monad; [|done].
    rewrite get_data_path_plan. unfold data_plan. unfold_monad.
    rewrite Eb. unfold_monad. by case_makedirs.
  - by case_makedirs.
Qed.

Lemma get_cache_path_plan (a : ambient) (channel : string)
    (fs : gmap (list string) node) :
  get_cache_path a channel fs = planned a (cache_plan a channel) fs.
Proof.
  unfold get_cache_path, cache_plan, cache_path_of. unfold_monad.
  destruct (py_bool (environ a !! "EFB_CACHE_PATH")); unfold_monad.
  - destruct (getuser a); unfold_monad; [|done]. by case_makedirs.
  - by case_makedirs.
Qed.

Lemma get_custom_channel_path_plan (a : ambient) (fs : gmap (list string) node) :
  get_custom_channel_path a fs = planned a (plugins_plan a) fs.
Proof.
  unfold get_custom_channel_path, mbind at 1, M_bind at 1.
  rewrite get_base_path_plan. unfold plugins_plan, base_plan. unfold_monad.
  destruct (base_path_of a); unfold_monad; [|done]. by case_makedirs.
Qed.

(** ** Environment variables the functions do not read *)

Lemma environ_unsetenv (a : ambient) (k : string) :
  environ (unsetenv k a) !! k = None.
Proof. unfold unsetenv. simpl. apply lookup_delete_eq. Qed.

Lemma home_unsetenv (a : ambient) (k : string) :
  k ≠ "HOME" → home (unsetenv k a) = home a.
Proof. intros Hk. unfold home. simpl. by rewrite lookup_delete_ne. Qed.

Lemma expanduser_unsetenv (a : ambient) (k path : string) :
  k ≠ "HOME" → expanduser (unsetenv k a) path = expanduser a path.
Proof. intros Hk. unfold expanduser. by rewrite home_unsetenv. Qed.

Lemma makedirs_unsetenv (a : ambient) (k path : string)
    (fs : gmap (list string) node) :
  makedirs (unsetenv k a) path fs = makedirs a path fs.
Proof. by apply makedirs_cwd. Qed.

(** ** The strings the functions compute *)

Lemma py_bool_true (o : option string) :
  py_bool o = true ↔ ∃ v, o = Some v ∧ v ≠ "".
Proof.
  destruct o as [[|c s]|]; simpl; split; try done.
  - by intros (v & [= <-] & ?).
  - intros _. by eexists.
  - by intros (v & ? & _).
Qed.

Lemma py_bool_false (o : option string) :
  py_bool o = false ↔ o = None ∨ o = Some "".
Proof.
  destruct o as [[|c s]|]; simpl; split; try done; auto.
  by intros [?|?].
Qed.

Lemma base_path_of_override (a : ambient) (v b : string) :
  environ a !! "EFB_DATA_PATH" = Some v → v ≠ "" →
  base_path_of a = Ok b →
  ∃ u, getuser a = Ok u ∧ b = join v [u; ""].
Proof.
  intros Hv Hne. unfold base_path_of.
  rewrite (proj2 (py_bool_true _)) by eauto. rewrite Hv. simpl.
  destruct (getuser a) as [u|e]; [|done]. intros [= <-]. eauto.
Qed.

Lemma base_path_of_default (a : ambient) (b : string) :
  py_bool (environ a !! "EFB_DATA_PATH") = false →
  base_path_of a = Ok b → b = expanduser a "~/.ehforwarderbot/".
Proof. intros H. unfold base_path_of. rewrite H. by intros [= <-]. Qed.

Lemma base_path_of_trailing (a : ambient) (b : string) :
  base_path_of a = Ok b → ends_with_sep b = true.
Proof.
  intros Hb. destruct (py_bool (environ a !! "EFB_DATA_PATH")) eqn:E.
  - apply py_bool_true in E as (v & Hv & Hne).
    destruct (base_path_of_override a v b Hv Hne Hb) as (u & _ & ->).
    by apply (join_trailing v [u]).
  - rewrite (base_path_of_default a b E Hb).
    by apply expanduser_ends_with_sep.
Qed.



Lemma cache_path_of_override (a : ambient) (channel v c : string) :
  environ a !! "EFB_CACHE_PATH" = Some v → v ≠ "" →
  cache_path_of a channel = Ok c →
  ∃ u, getuser a = Ok u ∧ c = join v [u; profile a; channel; ""].
Proof.
  intros Hv Hne. unfold cache_path_of.
  rewrite (proj2 (py_bool_true _)) by eauto. rewrite Hv. simpl.
  destruct (getuser a) as [u|e]; [|done]. intros [= <-]. eauto.
Qed.

Lemma cache_path_of_default (a : ambient) (channel c : string) :
  py_bool (environ a !! "EFB_CACHE_PATH") = false →
  cache_path_of a channel = Ok c →
  c = expanduser a (join (expanduser a "~/.ehforwarderbot/.cache/")
                      [profile a; channel; ""]).
Proof. intros H. unfold cache_path_of. rewrite H. by intros [= <-]. Qed.

Lemma expanduser_nonempty (a : ambient) (path : string) :
  ends_with_sep path = true → expanduser a path ≠ "".
Proof. intros H. by apply ends_with_sep_nonempty, expanduser_ends_with_sep. Qed.

Lemma cache_path_of_trailing (a : ambient) (channel c : string) :
  cache_path_of a channel = Ok c → ends_with_sep c = true.
Proof.
  intros Hc. destruct (py_bool (environ a !! "EFB_CACHE_PATH")) eqn:E.
  - apply py_bool_true in E as (v & Hv & Hne).
    destruct (cache_path_of_override a channel v c Hv Hne Hc) as (u & _ & ->).
    by apply (join_trailing v [u; profile a; channel]).
  - rewrite (cache_path_of_default a channel c E Hc).
    apply expanduser_ends_with_sep.
    by apply (join_trailing _ [profile a; channel]), expanduser_nonempty.
Qed.

(** What a returning call of each function says about its plan. *)
Lemma get_base_path_Ok (a : ambient) (fs fs' : gmap (list string) node)
    (p : string) :
  get_base_path a fs = (Ok p, fs') ↔
  base_path_of a = Ok p ∧ ensure_all a [p] fs = (Ok (), fs').
Proof.
  rewrite get_base_path_plan, planned_Ok. unfold base_plan.
  destruct (base_path_of a) as [b|e]; simpl; split.
  - by intros (ds & [= <- <-] & ?).
  - intros [[= <-] ?]. eauto.
  - by intros (ds & ? & _).
  - by intros [? _].
Qed.

Lemma get_cache_path_Ok (a : ambient) (channel : string)
    (fs fs' : gmap (list string) node) (p : string) :
  get_cache_path a channel fs = (Ok p, fs') ↔
  cache_path_of a channel = Ok p ∧ ensure_all a [p] fs = (Ok (), fs').
Proof.
  rewrite get_cache_path_plan, planned_Ok. unfold cache_plan.
  destruct (cache_path_of a channel) as [b|e]; simpl; split.
  - by intros (ds & [= <- <-] & ?).
  - intros [[= <-] ?]. eauto.
  - by intros (ds & ? & _).
  - by intros [? _].
Qed.

Lemma get_custom_channel_path_Ok (a : ambient)
    (fs fs' : gmap (list string) node) (p : string) :
  get_custom_channel_path a fs = (Ok p, fs') ↔
  ∃ b, base_path_of a = Ok b ∧ p = join b ["plugins"] ∧
       ensure_all a [b; p] fs = (Ok (), fs').
Proof.
  rewrite get_custom_channel_path_plan, planned_Ok. unfold plugins_plan.
  destruct (base_path_of a) as [b|e]; simpl; split.
  - intros (ds & [= <- <-] & ?). eauto.
  - intros (b' & [= <-] & -> & ?). eauto.
  - by intros (ds & ? & _).
  - by intros (b' & ? & _).
Qed.

Lemma get_data_path_Ok (a : ambient) (channel_id : string)
    (fs fs' : gmap (list string) node) (p : string) :
  get_data_path a channel_id fs = (Ok p, fs') ↔
  ∃ b, base_path_of a = Ok b ∧ p = join b [profile a; channel_id; ""] ∧
       ensure_all a [b; p] fs = (Ok (), fs').
Proof.
  rewrite get_data_path_plan, planned_Ok. unfold data_plan.
  destruct (base_path_of a) as [b|e]; simpl; split.
  - intros (ds & [= <- <-] & ?). eauto.
  - intros (b' & [= <-] & -> & ?). eauto.
  - by intros (ds & ? & _).
  - by intros (b' & ? & _).
Qed.

Lemma get_config_path_Ok (a : ambient) (channel_id : option string)
    (ext : string) (fs fs' : gmap (list string) node) (p : string) :
  get_config_path a channel_id ext fs = (Ok p, fs') ↔
  ∃ b, base_path_of a = Ok b ∧
       p = join (config_dir_of a channel_id b) ["config." +:+ ext] ∧
       ensure_all a
         (if py_bool channel_id
          then [b; b; config_dir_of a channel_id b; config_dir_of a channel_id b]
          else [b; config_dir_of a channel_id b]) fs = (Ok (), fs').
Proof.
  rewrite get_config_path_plan, planned_Ok. unfold config_plan.
  destruct (base_path_of a) as [b|e]; simpl; split.
  - intros (ds & [= <- <-] & ?). eauto.
  - intros (b' & [= <-] & -> & ?). eauto.
  - by intros (ds & ? & _).
  - by intros (b' & ? & _).
Qed.

(** The last segment of the default base directory and of the plugins
    directory. *)
Lemma default_base_last_segment (a : ambient) :
  last_segment (expanduser a "~/.ehforwarderbot/") = ".ehforwarderbot".
Proof.
  pose proof (expanduser_tilde_slash a ".ehforwarderbot/") as E.
  change ("~/" +:+ ".ehforwarderbot/") with "~/.ehforwarderbot/" in E.
  rewrite E. destruct (home a) as [h|].
  - by apply (last_segment_dir (rstrip_sep h) ".ehforwarderbot").
  - done.
Qed.

Lemma plugins_last_segment (b : string) :
  ends_with_sep b = true → last_segment (join b ["plugins"]) = "plugins".
Proof.
  intros Hb. rewrite (join_cons b "plugins"), join_nil.
  rewrite (join_step_dir b "plugins" Hb) by done.
  destruct (ends_with_sep_split b Hb) as [b' ->].
  rewrite append_assoc. by apply last_segment_file.
Qed.

(** * The claims *)

(** ** Emoji lookup *)

(** C7: [Emoji.get_source_emoji] maps [User], [Group] and [System] to their
    own symbols, which differ from one another and from the unknown symbol,
    and returns the unknown symbol exactly for the values that are none of
    the three.  The lookup is a total function: it has a value on every
    chat type. *)
Theorem C7_get_source_emoji (t : ChatType) :
  Emoji.get_source_emoji User = Emoji.USER_EMOJI ∧
  Emoji.get_source_emoji Group = Emoji.GROUP_EMOJI ∧
  Emoji.get_source_emoji System = Emoji.SYSTEM_EMOJI ∧
  NoDup [Emoji.USER_EMOJI; Emoji.GROUP_EMOJI; Emoji.SYSTEM_EMOJI;
         Emoji.UNKNOWN_EMOJI] ∧
  (Emoji.get_source_emoji t = Emoji.UNKNOWN_EMOJI ↔ t ∉ [User; Group; System]).
Proof.
  split_and!; try done.
  - apply (bool_decide_unpack _). by vm_compute.
  - destruct t as [| | |tag]; simpl; split; try done.
    + intros H. destruct H. set_solver.
    + intros H. destruct H. set_solver.
    + intros H. destruct H. set_solver.
    + intros _ H. repeat (apply elem_of_cons in H as [H|H]; [done |]).
      by apply elem_of_nil in H.
Qed.

(** ** The [extra] decorator *)

Lemma py_setattr_function (f : nat) (k : string) (v : pyval)
    (h : gmap nat pyobject) (o : function) :
  h !! f = Some (PyFunction o) →
  py_setattr f k v h = Some (Ok (), <[f := PyFunction (setattr_obj k v o)]> h).
Proof. intros H. unfold py_setattr. by rewrite H. Qed.

(** The object [attr_dec] leaves behind. *)
Lemma attr_dec_function (name desc : string) (f : nat) (h : gmap nat pyobject)
    (o : function) :
  h !! f = Some (PyFunction o) →
  attr_dec name desc f h =
    Some (Ok f, <[f := PyFunction
                         (setattr_obj "desc" (PyStr desc)
                            (setattr_obj "name" (PyStr name)
                               (setattr_obj "extra_fn" (PyBool true) o)))]> h).
Proof.
  intros H. unfold attr_dec.
  rewrite (py_setattr_function _ _ _ _ _ H). simpl.
  rewrite (py_setattr_function _ _ _ _ _ (lookup_insert_eq _ _ _)). simpl.
  rewrite (py_setattr_function _ _ _ _ _ (lookup_insert_eq _ _ _)). simpl.
  by rewrite !insert_insert_eq.
Qed.

(** What [attr_dec] does with an object that is no function object. *)
Lemma attr_dec_other (name desc : string) (f : nat) (h : gmap nat pyobject)
    (obj : pyobject) :
  h !! f = Some obj →
  attr_dec name desc f h =
    match obj with
    | PyFunction o =>
        Some (Ok f, <[f := PyFunction
                             (setattr_obj "desc" (PyStr desc)
                                (setattr_obj "name" (PyStr name)
                                   (setattr_obj "extra_fn" (PyBool true) o)))]> h)
    | PyBuiltin _ | PyMethod _ _ => Some (Raise AttributeError, h)
    | PyClass _ => Some (Raise TypeError, h)
    end.
Proof.
  intros H. destruct obj; [by apply attr_dec_function | | |];
    unfold attr_dec, py_setattr; by rewrite H.
Qed.

(** C8, as stated, fails: not every callable takes the attributes.  A
    built-in function and a bound method raise [AttributeError] at the first
    assignment, a class raises [TypeError]; nothing is returned and the
    objects stay as they were. *)
Lemma C8_not_every_callable_counterexample :
  sample_heap !! 3 = Some (PyBuiltin (λ args, PyStr "len")) ∧
  extra "Echo" "repeat" 3 sample_heap = Some (Raise AttributeError, sample_heap) ∧
  sample_heap !! 4 = Some (PyMethod 5 1) ∧
  extra "Echo" "repeat" 4 sample_heap = Some (Raise AttributeError, sample_heap) ∧
  sample_heap !! 5 = Some (PyClass ∅) ∧
  extra "Echo" "repeat" 5 sample_heap = Some (Raise TypeError, sample_heap).
Proof. split_and!; reflexivity. Qed.

(** C8, amended: for every name [N], description [D] and function object
    [f] (an object that keeps its attributes in a dictionary), [extra N D]
    applied to [f] returns the reference [f] itself; the object then carries
    [extra_fn = True], [name = N] and [desc = D]; its code, its other
    attributes and every other object are as before; and decorating it
    again with [N'] and [D'] leaves the values of the last application.
    Applied to a built-in function or a bound method the decorator raises
    [AttributeError], applied to a class [TypeError], and the store is left
    as it was. *)
Theorem C8_extra (N D N' D' : string) (f : nat) (h : gmap nat pyobject)
    (o : function) (Hf : h !! f = Some (PyFunction o)) :
  (∃ o',
    extra N D f h = Some (Ok f, <[f := PyFunction o']> h) ∧
    func_code o' = func_code o ∧
    func_dict o' !! "extra_fn" = Some (PyBool true) ∧
    func_dict o' !! "name" = Some (PyStr N) ∧
    func_dict o' !! "desc" = Some (PyStr D) ∧
    (∀ k, k ∉ ["extra_fn"; "name"; "desc"] →
          func_dict o' !! k = func_dict o !! k) ∧
    (∀ g, g ≠ f → (<[f := PyFunction o']> h) !! g = h !! g) ∧
    ∃ o'',
      extra N' D' f (<[f := PyFunction o']> h) =
        Some (Ok f, <[f := PyFunction o'']> h) ∧
      func_code o'' = func_code o ∧
      func_dict o'' !! "extra_fn" = Some (PyBool true) ∧
      func_dict o'' !! "name" = Some (PyStr N') ∧
      func_dict o'' !! "desc" = Some (PyStr D')) ∧
  (∀ g obj, h !! g = Some obj →
     match obj with
     | PyFunction _ => ∃ h', extra N D g h = Some (Ok g, h')
     | PyBuiltin _ | PyMethod _ _ => extra N D g h = Some (Raise AttributeError, h)
     | PyClass _ => extra N D g h = Some (Raise TypeError, h)
     end).
Proof.
  split.
  - eexists. split; [by apply attr_dec_function |].
    split_and!; try done;
      try (simpl; repeat (rewrite lookup_insert_ne by done);
           by apply lookup_insert_eq).
    + simpl. intros k Hk. rewrite !lookup_insert_ne; [done | | |];
        intros <-; apply Hk; set_solver.
    + intros g Hg. by rewrite lookup_insert_ne.
    + eexists. split.
      * unfold extra.
        rewrite (attr_dec_function N' D' f _ _ (lookup_insert_eq _ _ _)).
        by rewrite insert_insert_eq.
      * split_and!; try done;
          (simpl; repeat (rewrite lookup_insert_ne by done);
           by apply lookup_insert_eq).
  - intros g obj Hg. unfold extra. rewrite (attr_dec_other N D g h obj Hg).
    destruct obj; eauto.
Qed.

Lemma C8_extra_witness :
  ∃ o',
    extra "Echo" "{function_name}: repeat" 1 sample_heap =
      Some (Ok 1, <[1 := PyFunction o']> sample_heap) ∧
    func_code o' = func_code sample_function ∧
    func_dict o' !! "extra_fn" = Some (PyBool true) ∧
    func_dict o' !! "name" = Some (PyStr "Echo") ∧
    func_dict o' !! "desc" = Some (PyStr "{function_name}: repeat") ∧
    func_dict o' !! "__doc__" = Some (PyStr "help").
Proof.
  destruct (C8_extra "Echo" "{function_name}: repeat" "Ping" "ping"
              1 sample_heap sample_function)
    as ((o' & H1 & H2 & H3 & H4 & H5 & H6 & _) & _).
  { reflexivity. }
  exists o'. split_and!; try done.
  rewrite H6; [reflexivity |].
  intros H. repeat (apply elem_of_cons in H as [H|H]; [discriminate |]).
  by apply elem_of_nil in H.
Defined.

(** ** Base and cache paths *)

(** The literal shape of a path joined from segments. *)
Lemma join_step_segment (path s : string) :
  path ≠ "" → ends_with_sep path = false → segment s = true →
  join_step path s = path +:+ "/" +:+ s ∧
  path +:+ "/" +:+ s ≠ "" ∧ ends_with_sep (path +:+ "/" +:+ s) = false.
Proof.
  intros Hne He Hs. split_and!.
  - apply join_step_file; auto using segment_starts.
  - intros [? _]%append_eq_nil. done.
  - pose proof (segment_nonempty _ Hs).
    rewrite !ends_with_sep_app; [by apply segment_ends | done |].
    intros [? _]%append_eq_nil. done.
Qed.

(** C1, as stated, fails when the variable is set to the empty string: the
    call returns the home-relative default, not the empty override joined
    with the user name. *)
Lemma C1_empty_override_counterexample :
  environ (setenv "EFB_DATA_PATH" "" alice_env) !! "EFB_DATA_PATH" = Some "" ∧
  getuser (setenv "EFB_DATA_PATH" "" alice_env) = Ok "alice" ∧
  get_base_path (setenv "EFB_DATA_PATH" "" alice_env) ∅ =
    (Ok "/home/alice/.ehforwarderbot/", alice_base_tree) ∧
  join "" ["alice"; ""] = "alice/" ∧
  "/home/alice/.ehforwarderbot/" ≠ "alice/" ∧
  "/home/alice/.ehforwarderbot/" ≠ "/alice/".
Proof. split_and!; first [vm_refl | by vm_compute]. Qed.

(** C1, amended: whenever [get_base_path] returns, (i) if [EFB_DATA_PATH] is
    set to a non-empty value [v], the result is [v] joined with the OS user
    name and the empty component, which reads [v/user/] when [v] has no
    trailing separator and the user name is a plain segment; (ii) if the
    variable is absent, the result is the expansion of
    [~/.ehforwarderbot/], that is the home directory, stripped of trailing
    separators, followed by [/.ehforwarderbot/]; (iii) in every case the
    result ends with a separator. *)
Theorem C1_get_base_path (a : ambient) (fs fs' : gmap (list string) node)
    (p : string) (Hret : get_base_path a fs = (Ok p, fs')) :
  (∀ v, environ a !! "EFB_DATA_PATH" = Some v → v ≠ "" →
        ∃ u, getuser a = Ok u ∧ p = join v [u; ""] ∧
             (ends_with_sep v = false → segment u = true →
              p = v +:+ "/" +:+ u +:+ "/")) ∧
  (environ a !! "EFB_DATA_PATH" = None →
     p = expanduser a "~/.ehforwarderbot/" ∧
     ∀ h, home a = Some h → p = rstrip_sep h +:+ "/.ehforwarderbot/") ∧
  ends_with_sep p = true.
Proof.
  apply get_base_path_Ok in Hret as [Hb _]. split_and!.
  - intros v Hv Hne.
    destruct (base_path_of_override a v p Hv Hne Hb) as (u & Hu & ->).
    exists u. split_and!; [done | done |].
    intros He Hs. by apply join_file_segment.
  - intros Hnone.
    assert (p = expanduser a "~/.ehforwarderbot/") as ->.
    { apply base_path_of_default; [|done]. by rewrite Hnone. }
    split; [done |]. intros h Hh.
    pose proof (expanduser_tilde_slash a ".ehforwarderbot/") as E.
    rewrite Hh in E. exact E.
  - by eapply base_path_of_trailing.
Qed.

Lemma C1_get_base_path_witness :
  get_base_path (setenv "EFB_DATA_PATH" "/tmp/efb" alice_env) ∅ =
    (Ok "/tmp/efb/alice/", {[ ["tmp"] := Dir; ["tmp"; "efb"] := Dir;
                              ["tmp"; "efb"; "alice"] := Dir ]}) ∧
  (∃ u, getuser (setenv "EFB_DATA_PATH" "/tmp/efb" alice_env) = Ok u ∧
        "/tmp/efb/alice/" = join "/tmp/efb" [u; ""]) ∧
  ends_with_sep "/tmp/efb/alice/" = true.
Proof.
  assert (get_base_path (setenv "EFB_DATA_PATH" "/tmp/efb" alice_env) ∅ =
    (Ok "/tmp/efb/alice/", {[ ["tmp"] := Dir; ["tmp"; "efb"] := Dir;
                              ["tmp"; "efb"; "alice"] := Dir ]})) as Hret.
  { vm_refl. }
  destruct (C1_get_base_path _ _ _ _ Hret) as (Hset & _ & Hend).
  split_and!; [exact Hret | | exact Hend].
  destruct (Hset "/tmp/efb") as (u & Hu & Hp & _); [vm_refl | done |].
  by exists u.
Defined.

Lemma rstrip_sep_tilde (h r t : string) :
  rstrip_sep h +:+ String "/" r = String "~" t → ∃ t', h = String "~" t'.
Proof.
  destruct h as [|c0 h]; simpl.
  - rewrite append_nil_l. by intros [=].
  - destruct (rstrip_sep h) as [|c1 t1].
    + destruct (is_sep c0) eqn:Hc0.
      * rewrite append_nil_l. by intros [=].
      * rewrite append_cons. intros [= -> _]. eauto.
    + rewrite append_cons. intros [= -> _]. eauto.
Qed.

(** An expanded path that does not start with a tilde expands to itself. *)
Lemma expanduser_id (a : ambient) (path : string) :
  (∀ t, path ≠ String "~" t) → expanduser a path = path.
Proof.
  intros H. unfold expanduser. destruct path as [|c t]; [done |].
  destruct c as [[] [] [] [] [] [] [] []]; try done. by destruct (H t).
Qed.

Lemma home_cache_literal (a : ambient) (h channel : string) :
  home a = Some h → (∀ t, h ≠ String "~" t) →
  segment (profile a) = true → segment channel = true →
  expanduser a (join (expanduser a "~/.ehforwarderbot/.cache/")
                  [profile a; channel; ""]) =
  rstrip_sep h +:+ "/.ehforwarderbot/.cache/" +:+ profile a +:+ "/"
    +:+ channel +:+ "/".
Proof.
  intros Hh Hnt Hp Hc.
  pose proof (expanduser_tilde_slash a ".ehforwarderbot/.cache/") as E.
  rewrite Hh in E.
  change ("~/" +:+ ".ehforwarderbot/.cache/") with "~/.ehforwarderbot/.cache/" in E.
  change ("/" +:+ ".ehforwarderbot/.cache/") with "/.ehforwarderbot/.cache/" in E.
  rewrite E. clear E.
  set (x := rstrip_sep h +:+ "/.ehforwarderbot/.cache/").
  assert (ends_with_sep x = true) as Hx by (unfold x; by rewrite ends_with_sep_app).
  rewrite (join_cons x (profile a)), (join_step_dir x (profile a))
    by auto using segment_starts.
  assert (x +:+ profile a ≠ "") as Hne.
  { intros [_ ?]%append_eq_nil. by apply segment_nonempty in Hp. }
  assert (ends_with_sep (x +:+ profile a) = false) as Hnd.
  { rewrite ends_with_sep_app; [by apply segment_ends |].
    by apply segment_nonempty. }
  rewrite (join_file_segment _ channel Hne Hnd Hc).
  subst x. rewrite !append_assoc. apply expanduser_id. intros t Ht.
  change ("/.ehforwarderbot/.cache/" +:+ profile a +:+ "/" +:+ channel +:+ "/")
    with (String "/" (".ehforwarderbot/.cache/" +:+ profile a +:+ "/" +:+ channel +:+ "/"))
    in Ht.
  apply rstrip_sep_tilde in Ht as [t' ->]. by eapply Hnt.
Qed.

(** C4, as stated, fails when [EFB_CACHE_PATH] is set to the empty string:
    the call returns the home-relative default. *)
Lemma C4_empty_override_counterexample :
  environ (setenv "EFB_CACHE_PATH" "" alice_env) !! "EFB_CACHE_PATH" = Some "" ∧
  getuser (setenv "EFB_CACHE_PATH" "" alice_env) = Ok "alice" ∧
  profile (setenv "EFB_CACHE_PATH" "" alice_env) = "default" ∧
  get_cache_path (setenv "EFB_CACHE_PATH" "" alice_env) "irc" ∅ =
    (Ok "/home/alice/.ehforwarderbot/.cache/default/irc/", alice_cache_tree) ∧
  join "" ["alice"; "default"; "irc"; ""] = "alice/default/irc/" ∧
  "/home/alice/.ehforwarderbot/.cache/default/irc/" ≠ "alice/default/irc/" ∧
  "/home/alice/.ehforwarderbot/.cache/default/irc/" ≠ "/alice/default/irc/".
Proof. split_and!; first [vm_refl | by vm_compute]. Qed.

(** C4, amended: whenever [get_cache_path channel] returns, (i) if
    [EFB_CACHE_PATH] is set to a non-empty value [v], the result is [v]
    joined with the OS user name, the profile, the channel and the empty
    component, which reads [v/user/profile/channel/] when [v] has no
    trailing separator and the three are plain segments; (ii) if the
    variable is absent, the result is the expansion of
    [~/.ehforwarderbot/.cache/] joined with the profile, the channel and the
    empty component, which reads [home/.ehforwarderbot/.cache/profile/channel/]
    when the home directory does not itself start with a tilde and the
    two are plain segments; (iii) in every case the result ends with a
    separator. *)
Theorem C4_get_cache_path (a : ambient) (channel : string)
    (fs fs' : gmap (list string) node) (p : string)
    (Hret : get_cache_path a channel fs = (Ok p, fs')) :
  (∀ v, environ a !! "EFB_CACHE_PATH" = Some v → v ≠ "" →
        ∃ u, getuser a = Ok u ∧ p = join v [u; profile a; channel; ""] ∧
             (ends_with_sep v = false → segment u = true →
              segment (profile a) = true → segment channel = true →
              p = v +:+ "/" +:+ u +:+ "/" +:+ profile a +:+ "/"
                    +:+ channel +:+ "/")) ∧
  (environ a !! "EFB_CACHE_PATH" = None →
     p = expanduser a (join (expanduser a "~/.ehforwarderbot/.cache/")
                         [profile a; channel; ""]) ∧
     ∀ h, home a = Some h → (∀ t, h ≠ String "~" t) →
          segment (profile a) = true → segment channel = true →
          p = rstrip_sep h +:+ "/.ehforwarderbot/.cache/" +:+ profile a
                +:+ "/" +:+ channel +:+ "/") ∧
  ends_with_sep p = true.
Proof.
  apply get_cache_path_Ok in Hret as [Hc _]. split_and!.
  - intros v Hv Hne.
    destruct (cache_path_of_override a channel v p Hv Hne Hc) as (u & Hu & ->).
    exists u. split_and!; [done | done |].
    intros He Hu' Hp Hch.
    destruct (join_step_segment v u Hne He Hu') as (E1 & N1 & D1).
    destruct (join_step_segment _ (profile a) N1 D1 Hp) as (E2 & N2 & D2).
    rewrite (join_cons v u), E1, (join_cons _ (profile a)), E2.
    rewrite (join_file_segment _ channel N2 D2 Hch).
    by rewrite !append_assoc.
  - intros Hnone.
    assert (p = expanduser a (join (expanduser a "~/.ehforwarderbot/.cache/")
                                [profile a; channel; ""])) as ->.
    { apply cache_path_of_default; [|done]. by rewrite Hnone. }
    split; [done |]. intros h Hh Hnt Hp Hch. by apply home_cache_literal.
  - by eapply cache_path_of_trailing.
Qed.

Lemma C4_get_cache_path_witness :
  get_cache_path (setenv "EFB_CACHE_PATH" "/var/cache" alice_env) "irc" ∅ =
    (Ok "/var/cache/alice/default/irc/",
        list_to_map
          [ (["var"], Dir); (["var"; "cache"], Dir);
            (["var"; "cache"; "alice"], Dir);
            (["var"; "cache"; "alice"; "default"], Dir);
            (["var"; "cache"; "alice"; "default"; "irc"], Dir) ]) ∧
  (∃ u, getuser (setenv "EFB_CACHE_PATH" "/var/cache" alice_env) = Ok u ∧
        "/var/cache/alice/default/irc/" =
          join "/var/cache" [u; "default"; "irc"; ""]) ∧
  ends_with_sep "/var/cache/alice/default/irc/" = true.
Proof.
  assert (get_cache_path (setenv "EFB_CACHE_PATH" "/var/cache" alice_env) "irc" ∅ =
    (Ok "/var/cache/alice/default/irc/",
        list_to_map
          [ (["var"], Dir); (["var"; "cache"], Dir);
            (["var"; "cache"; "alice"], Dir);
            (["var"; "cache"; "alice"; "default"], Dir);
            (["var"; "cache"; "alice"; "default"; "irc"], Dir) ])) as Hret.
  { vm_refl. }
  destruct (C4_get_cache_path _ _ _ _ _ Hret) as (Hset & _ & Hend).
  split_and!; [exact Hret | | exact Hend].
  destruct (Hset "/var/cache") as (u & Hu & Hp & _); [vm_refl | done |].
  by exists u.
Defined.

(** ** The plugins path *)

(** C5, as stated, fails: the string returned for the plugins directory has
    no trailing separator. *)
Lemma C5_no_trailing_separator_counterexample :
  environ alice_env !! "EFB_DATA_PATH" = None ∧
  environ alice_env !! "EFB_CACHE_PATH" = None ∧
  home alice_env = Some "/home/alice" ∧
  get_custom_channel_path alice_env ∅ =
    (Ok "/home/alice/.ehforwarderbot/plugins", alice_plugins_tree) ∧
  ends_with_sep "/home/alice/.ehforwarderbot/plugins" = false ∧
  "/home/alice/.ehforwarderbot/plugins" ≠ "/home/alice/.ehforwarderbot/plugins/".
Proof. split_and!; first [vm_refl | by vm_compute]. Qed.

(** C5, amended: when [EFB_DATA_PATH] is not set and
    [get_custom_channel_path] returns, the result is the base path followed
    by [plugins], that is the home directory, stripped of trailing
    separators, followed by [/.ehforwarderbot/plugins]; it does not end with
    a separator; the directory it names exists afterwards. *)
Theorem C5_get_custom_channel_path (a : ambient)
    (fs fs' : gmap (list string) node) (p : string)
    (Hunset : environ a !! "EFB_DATA_PATH" = None)
    (Hret : get_custom_channel_path a fs = (Ok p, fs')) :
  p = expanduser a "~/.ehforwarderbot/" +:+ "plugins" ∧
  (∀ h, home a = Some h → p = rstrip_sep h +:+ "/.ehforwarderbot/plugins") ∧
  ends_with_sep p = false ∧
  isdir a fs' p = true.
Proof.
  apply get_custom_channel_path_Ok in Hret as (b & Hb & -> & Hrun).
  assert (b = expanduser a "~/.ehforwarderbot/") as Eb.
  { apply base_path_of_default; [|done]. by rewrite Hunset. }
  pose proof (base_path_of_trailing a b Hb) as Hdir.
  assert (join b ["plugins"] = b +:+ "plugins") as Ej.
  { by apply join_step_dir. }
  rewrite Ej. split_and!.
  - by rewrite Eb.
  - intros h Hh. rewrite Eb.
    pose proof (expanduser_tilde_slash a ".ehforwarderbot/") as E.
    rewrite Hh in E.
    change ("~/" +:+ ".ehforwarderbot/") with "~/.ehforwarderbot/" in E.
    rewrite E. by rewrite !append_assoc.
  - by rewrite ends_with_sep_app.
  - rewrite <- Ej. apply (ensure_all_isdir _ _ _ _ Hrun).
    + apply list_elem_of_further, list_elem_of_here.
    + by rewrite plugins_last_segment.
Qed.

Lemma C5_get_custom_channel_path_witness :
  get_custom_channel_path alice_env ∅ =
    (Ok "/home/alice/.ehforwarderbot/plugins", alice_plugins_tree) ∧
  "/home/alice/.ehforwarderbot/plugins" =
    rstrip_sep "/home/alice" +:+ "/.ehforwarderbot/plugins" ∧
  ends_with_sep "/home/alice/.ehforwarderbot/plugins" = false ∧
  isdir alice_env alice_plugins_tree "/home/alice/.ehforwarderbot/plugins" = true.
Proof.
  assert (get_custom_channel_path alice_env ∅ =
    (Ok "/home/alice/.ehforwarderbot/plugins", alice_plugins_tree)) as Hret.
  { vm_refl. }
  assert (environ alice_env !! "EFB_DATA_PATH" = None) as Hunset.
  { vm_refl. }
  destruct (C5_get_custom_channel_path _ _ _ _ Hunset Hret)
    as (_ & Hhome & Hend & Hdir).
  split_and!; [exact Hret | | exact Hend | exact Hdir].
  apply Hhome. vm_refl.
Defined.

(** ** Overrides set to the empty string *)

(** C10: if [EFB_DATA_PATH] is set to the empty string, [get_base_path]
    does on every tree exactly what it does with the variable removed, and
    what it returns is the home-relative default; likewise
    [get_cache_path] for [EFB_CACHE_PATH]. *)
Theorem C10_empty_override (a : ambient) (channel : string)
    (fs : gmap (list string) node) :
  (environ a !! "EFB_DATA_PATH" = Some "" →
     get_base_path a fs = get_base_path (unsetenv "EFB_DATA_PATH" a) fs ∧
     ∀ p fs', get_base_path a fs = (Ok p, fs') →
              p = expanduser a "~/.ehforwarderbot/") ∧
  (environ a !! "EFB_CACHE_PATH" = Some "" →
     get_cache_path a channel fs =
       get_cache_path (unsetenv "EFB_CACHE_PATH" a) channel fs ∧
     ∀ p fs', get_cache_path a channel fs = (Ok p, fs') →
              p = expanduser a (join (expanduser a "~/.ehforwarderbot/.cache/")
                                  [profile a; channel; ""])).
Proof.
  split; intros Hempty.
  - split.
    + unfold get_base_path. rewrite Hempty, environ_unsetenv. simpl.
      rewrite expanduser_unsetenv by done. unfold_monad.
      by rewrite makedirs_unsetenv.
    + intros p fs' [Hb _]%get_base_path_Ok.
      apply base_path_of_default; [|done]. by rewrite Hempty.
  - split.
    + unfold get_cache_path. rewrite Hempty, environ_unsetenv. simpl.
      rewrite !expanduser_unsetenv by done. unfold_monad.
      by rewrite makedirs_unsetenv.
    + intros p fs' [Hc _]%get_cache_path_Ok.
      apply cache_path_of_default; [|done]. by rewrite Hempty.
Qed.

Lemma C10_empty_override_witness :
  get_base_path (setenv "EFB_DATA_PATH" "" alice_env) ∅ =
    get_base_path (unsetenv "EFB_DATA_PATH" (setenv "EFB_DATA_PATH" "" alice_env)) ∅ ∧
  get_cache_path (setenv "EFB_CACHE_PATH" "" alice_env) "irc" ∅ =
    get_cache_path (unsetenv "EFB_CACHE_PATH" (setenv "EFB_CACHE_PATH" "" alice_env))
      "irc" ∅.
Proof.
  split.
  - apply (C10_empty_override (setenv "EFB_DATA_PATH" "" alice_env) "irc" ∅).
    vm_refl.
  - apply (C10_empty_override (setenv "EFB_CACHE_PATH" "" alice_env) "irc" ∅).
    vm_refl.
Defined.

(** ** The data path *)

(** The string [get_data_path] returns for plain segments. *)
Lemma data_path_literal (b profile channel : string) :
  ends_with_sep b = true → segment profile = true → segment channel = true →
  join b [profile; channel; ""] = b +:+ profile +:+ "/" +:+ channel +:+ "/".
Proof.
  intros Hb Hp Hc.
  rewrite (join_cons b profile), (join_step_dir b profile)
    by auto using segment_starts.
  rewrite join_file_segment; [by rewrite !append_assoc | | | done].
  - intros [_ ?]%append_eq_nil. by apply segment_nonempty in Hp.
  - rewrite ends_with_sep_app; [by apply segment_ends |].
    by apply segment_nonempty.
Qed.

Lemma named_segment (c : string) : named c = true → segment c = true.
Proof. unfold named. by intros [[? _]%andb_true_iff _]%andb_true_iff. Qed.

Lemma named_not_dot (c : string) : named c = true → c ≠ ".".
Proof. intros H ->. done. Qed.

(** The last segment of a data path made of plain segments is the channel
    id. *)
Lemma data_path_last_segment (b profile channel : string) :
  ends_with_sep b = true → segment profile = true → segment channel = true →
  last_segment (join b [profile; channel; ""]) = channel.
Proof.
  intros Hb Hp Hc. rewrite (data_path_literal b profile channel Hb Hp Hc).
  assert (b +:+ profile +:+ "/" +:+ channel +:+ "/" =
          (b +:+ profile) +:+ "/" +:+ channel +:+ "/") as ->.
  { by rewrite !append_assoc. }
  by apply last_segment_dir.
Qed.

(** The scenario of the specification, on a tree that holds at most the
    five directories concerned. *)
Lemma scenario_outcome (a : ambient) (fs : gmap (list string) node) :
  (∀ k, k ∈ [ ["tmp"]; ["tmp"; "efb"]; ["tmp"; "efb"; "alice"];
              ["tmp"; "efb"; "alice"; "default"];
              ["tmp"; "efb"; "alice"; "default"; "irc"] ] →
        is_file fs k = false) →
  (ensure_all a ["/tmp/efb/alice/"; "/tmp/efb/alice/default/irc/"] fs).1 = Ok ().
Proof.
  intros Hnf.
  set (ks := [ ["tmp"]; ["tmp"; "efb"]; ["tmp"; "efb"; "alice"];
               ["tmp"; "efb"; "alice"; "default"];
               ["tmp"; "efb"; "alice"; "default"; "irc"] ]) in *.
  rewrite (ensure_all_outcome a _ (restrict ks fs) fs); last first.
  { intros k Hk. apply restrict_lookup. vm_compute in Hk. unfold ks.
    repeat (apply elem_of_cons in Hk as [->|Hk];
            [repeat first [apply list_elem_of_here | apply list_elem_of_further] |]).
    by apply elem_of_nil in Hk. }
  assert (∀ k, k ∈ ks → fs !! k = None ∨ fs !! k = Some Dir) as Hcases.
  { intros k Hk. apply Hnf in Hk. unfold is_file in Hk.
    destruct (fs !! k) as [[|d]|]; auto. done. }
  unfold ks in *. rewrite !restrict_cons.
  change (restrict [] fs) with (∅ : gmap (list string) node).
  destruct (Hcases ["tmp"]) as [->| ->];
    [repeat first [apply list_elem_of_here | apply list_elem_of_further] ..|];
  (destruct (Hcases ["tmp"; "efb"]) as [->| ->];
    [repeat first [apply list_elem_of_here | apply list_elem_of_further] ..|]);
  (destruct (Hcases ["tmp"; "efb"; "alice"]) as [->| ->];
    [repeat first [apply list_elem_of_here | apply list_elem_of_further] ..|]);
  (destruct (Hcases ["tmp"; "efb"; "alice"; "default"]) as [->| ->];
    [repeat first [apply list_elem_of_here | apply list_elem_of_further] ..|]);
  (destruct (Hcases ["tmp"; "efb"; "alice"; "default"; "irc"]) as [->| ->];
    [repeat first [apply list_elem_of_here | apply list_elem_of_further] ..|]);
  vm_refl.
Qed.

(** C2: (i) whenever [get_data_path channel_id] returns, for any string
    [channel_id], the result is the base path (what [get_base_path] returns
    on the same tree) joined with the profile, the channel id and the empty
    component; it ends with a separator; it reads [b profile/channel_id/]
    when the two are plain segments; and the directory exists afterwards
    unless the last segment of the path is [.], in particular whenever the
    profile and the channel id are plain segments and the channel id is not
    [.]; (ii) with [EFB_DATA_PATH=/tmp/efb], user [alice], profile [default]
    and channel [irc], on every tree where no regular file is in the way,
    the call returns [/tmp/efb/alice/default/irc/] and that directory exists
    afterwards. *)
Theorem C2_get_data_path (a : ambient) (channel_id : string)
    (fs : gmap (list string) node) :
  (∀ p fs', get_data_path a channel_id fs = (Ok p, fs') →
     ∃ b fs1, get_base_path a fs = (Ok b, fs1) ∧
              p = join b [profile a; channel_id; ""] ∧
              ends_with_sep p = true ∧
              (segment (profile a) = true → segment channel_id = true →
               p = b +:+ profile a +:+ "/" +:+ channel_id +:+ "/" ∧
               (channel_id ≠ "." → isdir a fs' p = true)) ∧
              (last_segment p ≠ "." → isdir a fs' p = true)) ∧
  (environ a !! "EFB_DATA_PATH" = Some "/tmp/efb" →
   getuser a = Ok "alice" → profile a = "default" → channel_id = "irc" →
   (∀ k, k ∈ [ ["tmp"]; ["tmp"; "efb"]; ["tmp"; "efb"; "alice"];
               ["tmp"; "efb"; "alice"; "default"];
               ["tmp"; "efb"; "alice"; "default"; "irc"] ] →
         is_file fs k = false) →
   ∃ fs', get_data_path a channel_id fs =
            (Ok "/tmp/efb/alice/default/irc/", fs') ∧
          isdir a fs' "/tmp/efb/alice/default/irc/" = true).
Proof.
  split.
  - intros p fs' (b & Hb & -> & Hrun)%get_data_path_Ok.
    pose proof Hrun as (fs1 & H1 & _)%ensure_all_Ok.
    pose proof (base_path_of_trailing a b Hb) as Hdir.
    assert (last_segment (join b [profile a; channel_id; ""]) ≠ "." →
            isdir a fs' (join b [profile a; channel_id; ""]) = true) as Hpost.
    { intros Hl. apply (ensure_all_isdir _ _ _ _ Hrun); [|done].
      apply list_elem_of_further, list_elem_of_here. }
    exists b, fs1. split_and!.
    + apply get_base_path_Ok. split; [done |].
      apply ensure_all_Ok. by exists fs1.
    + done.
    + apply (join_trailing b [profile a; channel_id]).
      by apply ends_with_sep_nonempty.
    + intros Hp Hc. split; [by apply data_path_literal |].
      intros Hdot. apply Hpost. by rewrite data_path_last_segment.
    + done.
  - intros Henv Huser Hprof -> Hnf.
    assert (base_path_of a = Ok "/tmp/efb/alice/") as Hb.
    { unfold base_path_of. rewrite Henv. simpl. by rewrite Huser. }
    pose proof (scenario_outcome a fs Hnf) as Hout.
    destruct (ensure_all a ["/tmp/efb/alice/"; "/tmp/efb/alice/default/irc/"] fs)
      as [r fs'] eqn:Hrun.
    simpl in Hout. subst r. exists fs'. split.
    + apply get_data_path_Ok. exists "/tmp/efb/alice/".
      rewrite Hprof. by split_and!.
    + apply (ensure_all_isdir _ _ _ _ Hrun).
      * apply list_elem_of_further, list_elem_of_here.
      * intros H. vm_compute in H. discriminate.
Qed.

Lemma C2_get_data_path_witness :
  get_data_path (setenv "EFB_DATA_PATH" "/tmp/efb" alice_env) "irc"
    alice_home_tree =
    (Ok "/tmp/efb/alice/default/irc/", tmp_efb_tree ∪ alice_home_tree) ∧
  isdir (setenv "EFB_DATA_PATH" "/tmp/efb" alice_env)
    (tmp_efb_tree ∪ alice_home_tree) "/tmp/efb/alice/default/irc/" = true ∧
  ∃ fs', get_data_path (setenv "EFB_DATA_PATH" "/tmp/efb" alice_env) "irc" ∅ =
           (Ok "/tmp/efb/alice/default/irc/", fs') ∧
         isdir (setenv "EFB_DATA_PATH" "/tmp/efb" alice_env) fs'
           "/tmp/efb/alice/default/irc/" = true.
Proof.
  assert (get_data_path (setenv "EFB_DATA_PATH" "/tmp/efb" alice_env) "irc"
            alice_home_tree =
          (Ok "/tmp/efb/alice/default/irc/", tmp_efb_tree ∪ alice_home_tree))
    as Hret.
  { vm_refl. }
  destruct (C2_get_data_path (setenv "EFB_DATA_PATH" "/tmp/efb" alice_env)
              "irc" alice_home_tree) as [Hgen _].
  destruct (Hgen _ _ Hret) as (b & fs1 & _ & _ & _ & _ & Hdir).
  split_and!; [exact Hret | |].
  { apply Hdir. intros H. vm_compute in H. discriminate. }
  destruct (C2_get_data_path (setenv "EFB_DATA_PATH" "/tmp/efb" alice_env)
              "irc" ∅) as [_ Hscen].
  apply Hscen; [vm_refl | vm_refl | reflexivity | reflexivity |].
  intros k _. unfold is_file. by rewrite lookup_empty.
Defined.

(** ** The configuration path *)

(** The empty component before a relative one changes nothing. *)
Lemma join_step_empty_then (d x : string) :
  d ≠ "" → starts_with_sep x = false →
  join_step (join_step d "") x = join_step d x.
Proof.
  intros Hd Hx. pose proof (join_step_empty d Hd) as He.
  rewrite (join_step_dir _ x He Hx). unfold join_step. rewrite Hx. simpl.
  rewrite bool_decide_eq_false_2 by done. simpl.
  destruct (ends_with_sep d); [by rewrite append_nil_r |].
  by rewrite append_assoc.
Qed.

Lemma join_singleton (a b : string) : join a [b] = join_step a b.
Proof. done. Qed.

(** The last component of a path is what follows its last separator. *)
Lemma components_snoc (x s : string) :
  sep_free s = true → ∃ l, components (x +:+ "/" +:+ s) = l ++ [s].
Proof.
  intros Hs. exists (components x).
  by rewrite components_app_sep, (components_sep_free s Hs).
Qed.

Lemma join_step_components (d s : string) :
  d ≠ "" → starts_with_sep s = false → sep_free s = true →
  ∃ l, components (join_step d s) = l ++ [s].
Proof.
  intros Hd Hst Hs. destruct (ends_with_sep d) eqn:He.
  - rewrite (join_step_dir d s He Hst).
    destruct (ends_with_sep_split d He) as [d' ->].
    rewrite append_assoc. by apply components_snoc.
  - rewrite (join_step_file d s Hd He Hst). by apply components_snoc.
Qed.

Lemma join_step_last (d s : string) :
  d ≠ "" → starts_with_sep s = false → sep_free s = true →
  last (components (join_step d s)) = Some s.
Proof.
  intros Hd Hst Hs.
  destruct (join_step_components d s Hd Hst Hs) as [l ->]. apply last_snoc.
Qed.

Lemma config_dir_of_nonempty (a : ambient) (channel_id : option string)
    (b : string) :
  b ≠ "" → config_dir_of a channel_id b ≠ "".
Proof.
  intros Hb. unfold config_dir_of.
  destruct (py_bool channel_id); by apply join_nonempty.
Qed.

(** C3, as stated, fails: the profile is not validated, and a profile that
    is an absolute path takes the place of the base path; the call then
    returns a path outside the base directory.  With an empty profile the
    file lies in the base directory itself. *)
Lemma C3_profile_not_validated_counterexample :
  profile (with_profile "/x" alice_env) = "/x" ∧
  get_base_path (with_profile "/x" alice_env) ∅ =
    (Ok "/home/alice/.ehforwarderbot/", alice_base_tree) ∧
  get_config_path (with_profile "/x" alice_env) None "yaml" ∅ =
    (Ok "/x/config.yaml", <[ ["x"] := Dir ]> alice_base_tree) ∧
  String.prefix "/home/alice/.ehforwarderbot/" "/x/config.yaml" = false ∧
  "/x/config.yaml" ≠ "/home/alice/.ehforwarderbot/" +:+ "/x" +:+ "/config.yaml" ∧
  get_config_path (with_profile "/x" alice_env) (Some "foo") "yaml" ∅ =
    (Ok "/x/foo/config.yaml",
     <[ ["x"; "foo"] := Dir ]> (<[ ["x"] := Dir ]> alice_base_tree)) ∧
  String.prefix "/home/alice/.ehforwarderbot/" "/x/foo/config.yaml" = false ∧
  get_config_path (with_profile "" alice_env) None "yaml" ∅ =
    (Ok "/home/alice/.ehforwarderbot/config.yaml", alice_base_tree) ∧
  "/home/alice/.ehforwarderbot/config.yaml" ≠
    "/home/alice/.ehforwarderbot/" +:+ "" +:+ "/config.yaml".
Proof. split_and!; first [vm_refl | by vm_compute]. Qed.

(** C3, amended: whenever [get_config_path channel_id ext] returns, with [b]
    what [get_base_path] returns on the same tree: (i) without a channel id
    the result is [b] joined with the profile and [config.ext], which reads
    [b profile/config.ext] when the profile is a plain segment; (ii) with a
    non-empty channel id [c], such as [foo], it is [b] joined with the
    profile, [c] and [config.ext], which reads [b profile/c/config.ext] when
    both are plain segments; (iii) the file name, the last component of the
    result, is [config.ext]: [config.yaml] for the default extension and
    [config.json] for [json]. *)
Theorem C3_get_config_path (a : ambient) (channel_id : option string)
    (ext : string) (fs fs' : gmap (list string) node) (p : string)
    (Hret : get_config_path a channel_id ext fs = (Ok p, fs')) :
  ∃ b fs1,
    get_base_path a fs = (Ok b, fs1) ∧
    (channel_id = None →
       p = join b [profile a; "config." +:+ ext] ∧
       (segment (profile a) = true →
        p = b +:+ profile a +:+ "/config." +:+ ext)) ∧
    (∀ c, channel_id = Some c → c ≠ "" →
       p = join b [profile a; c; "config." +:+ ext] ∧
       (segment (profile a) = true → segment c = true →
        p = b +:+ profile a +:+ "/" +:+ c +:+ "/config." +:+ ext)) ∧
    (sep_free ext = true → last (components p) = Some ("config." +:+ ext)) ∧
    (ext = "yaml" → last (components p) = Some "config.yaml") ∧
    (ext = "json" → last (components p) = Some "config.json").
Proof.
  apply get_config_path_Ok in Hret as (b & Hb & -> & Hrun).
  pose proof (base_path_of_trailing a b Hb) as Hdir.
  pose proof (ends_with_sep_nonempty b Hdir) as Hbne.
  assert (∃ fs1, makedirs a b fs = (Ok (), fs1)) as [fs1 H1].
  { destruct (py_bool channel_id);
      apply ensure_all_Ok in Hrun as (fs1 & H1 & _); eauto. }
  assert (starts_with_sep ("config." +:+ ext) = false) as Hcfg by done.
  pose proof (config_dir_of_nonempty a channel_id b Hbne) as Hdne.
  assert (sep_free ext = true →
          last (components (join (config_dir_of a channel_id b)
                              ["config." +:+ ext])) = Some ("config." +:+ ext))
    as Hlast.
  { intros Hext. by apply (join_step_last _ ("config." +:+ ext)). }
  exists b, fs1. split_and!.
  - apply get_base_path_Ok. split; [done |].
    apply ensure_all_Ok. by exists fs1.
  - intros ->. unfold config_dir_of. simpl. split; [done |].
    intros Hp. rewrite (join_singleton b (profile a)),
      (join_step_dir b (profile a)) by auto using segment_starts.
    rewrite join_singleton.
    rewrite join_step_file; [by rewrite !append_assoc | | | done].
    + intros [_ ?]%append_eq_nil. by apply segment_nonempty in Hp.
    + rewrite ends_with_sep_app; [by apply segment_ends |].
      by apply segment_nonempty.
  - intros c -> Hc. unfold config_dir_of.
    rewrite (proj2 (py_bool_true (Some c))) by eauto. simpl.
    assert (join (join b [profile a; c; ""]) ["config." +:+ ext] =
            join b [profile a; c; "config." +:+ ext]) as ->.
    { change (join_step (join_step (join b [profile a; c]) "")
                ("config." +:+ ext) =
              join_step (join b [profile a; c]) ("config." +:+ ext)).
      apply join_step_empty_then; [|done].
      by apply (join_nonempty b [profile a; c]). }
    split; [done |]. intros Hp Hseg.
    rewrite (join_cons b (profile a)), (join_step_dir b (profile a))
      by auto using segment_starts.
    assert (b +:+ profile a ≠ "") as N0.
    { intros [_ ?]%append_eq_nil. by apply segment_nonempty in Hp. }
    assert (ends_with_sep (b +:+ profile a) = false) as D0.
    { rewrite ends_with_sep_app; [by apply segment_ends |].
      by apply segment_nonempty. }
    destruct (join_step_segment _ c N0 D0 Hseg) as (E1 & N1 & D1).
    rewrite (join_cons _ c), E1.
    rewrite join_singleton.
    rewrite join_step_file; [by rewrite !append_assoc | done | done | done].
  - done.
  - intros ->. by apply Hlast.
  - intros ->. by apply Hlast.
Qed.

Lemma C3_get_config_path_witness :
  get_config_path alice_env None "yaml" ∅ =
    (Ok "/home/alice/.ehforwarderbot/default/config.yaml", alice_profile_tree) ∧
  get_config_path alice_env (Some "foo") "json" ∅ =
    (Ok "/home/alice/.ehforwarderbot/default/foo/config.json",
     alice_config_tree) ∧
  "/home/alice/.ehforwarderbot/default/config.yaml" =
    "/home/alice/.ehforwarderbot/" +:+ "default" +:+ "/config." +:+ "yaml" ∧
  last (components "/home/alice/.ehforwarderbot/default/config.yaml") =
    Some "config.yaml" ∧
  last (components "/home/alice/.ehforwarderbot/default/foo/config.json") =
    Some "config.json".
Proof.
  assert (get_config_path alice_env None "yaml" ∅ =
    (Ok "/home/alice/.ehforwarderbot/default/config.yaml", alice_profile_tree))
    as Hyaml.
  { vm_refl. }
  assert (get_config_path alice_env (Some "foo") "json" ∅ =
    (Ok "/home/alice/.ehforwarderbot/default/foo/config.json",
     alice_config_tree)) as Hjson.
  { vm_refl. }
  destruct (C3_get_config_path _ _ _ _ _ _ Hyaml)
    as (b1 & fs1 & _ & _ & _ & _ & Hy & _).
  destruct (C3_get_config_path _ _ _ _ _ _ Hjson)
    as (b2 & fs2 & _ & _ & _ & _ & _ & Hj).
  split_and!; [exact Hyaml | exact Hjson | reflexivity | by apply Hy | by apply Hj].
Defined.

(** ** Calling a path function twice *)

(** C6, as stated, fails.  With a regular file [file] in the profile
    directory and the channel id [new/../file/.], the first call makes the
    directory [new] and returns, though the path it returns names no
    directory; the second call, on the tree the first one left, raises
    [NotADirectoryError]. *)
Lemma C6_second_call_raises_counterexample :
  get_data_path alice_env "new/../file/." alice_file_tree =
    (Ok "/home/alice/.ehforwarderbot/default/new/../file/./", alice_new_tree) ∧
  isdir alice_env alice_new_tree
    "/home/alice/.ehforwarderbot/default/new/../file/./" = false ∧
  path_exists alice_env alice_new_tree
    "/home/alice/.ehforwarderbot/default/new/../file/./" = false ∧
  get_data_path alice_env "new/../file/." alice_new_tree =
    (Raise (OSError ENOTDIR), alice_new_tree) ∧
  last_segment "/home/alice/.ehforwarderbot/default/new/../file/./" = ".".
Proof. split_and!; vm_refl. Qed.

(** C6, amended: for each of the five path functions, under a fixed ambient
    state and fixed arguments, if a call returns [p] and leaves the tree
    [fs'], and no directory the function hands to [os.makedirs] has [.] as
    its last segment, then a second call, made on [fs'], returns the same
    [p] and leaves [fs'] as it is, and the directory concerned (the returned
    one, or for [get_config_path] the one containing the returned file path)
    exists in [fs'].  The directories handed over are the base path and the
    path returned, for [get_config_path] the containing directory; the last
    segment of the plugins directory is [plugins], and that of the default
    base path is [.ehforwarderbot]. *)
Theorem C6_path_functions_idempotent (a : ambient) (channel_id : string)
    (config_channel : option string) (ext : string)
    (fs fs' : gmap (list string) node) (p : string) :
  (get_base_path a fs = (Ok p, fs') → last_segment p ≠ "." →
     get_base_path a fs' = (Ok p, fs') ∧ isdir a fs' p = true) ∧
  (get_data_path a channel_id fs = (Ok p, fs') →
   (∀ b, base_path_of a = Ok b → last_segment b ≠ ".") →
   last_segment p ≠ "." →
     get_data_path a channel_id fs' = (Ok p, fs') ∧ isdir a fs' p = true) ∧
  (get_config_path a config_channel ext fs = (Ok p, fs') →
   (∀ b, base_path_of a = Ok b →
         last_segment b ≠ "." ∧
         last_segment (config_dir_of a config_channel b) ≠ ".") →
     get_config_path a config_channel ext fs' = (Ok p, fs') ∧
     ∃ d, p = join d ["config." +:+ ext] ∧ isdir a fs' d = true) ∧
  (get_cache_path a channel_id fs = (Ok p, fs') → last_segment p ≠ "." →
     get_cache_path a channel_id fs' = (Ok p, fs') ∧ isdir a fs' p = true) ∧
  (get_custom_channel_path a fs = (Ok p, fs') →
   (∀ b, base_path_of a = Ok b → last_segment b ≠ ".") →
     get_custom_channel_path a fs' = (Ok p, fs') ∧ isdir a fs' p = true) ∧
  (py_bool (environ a !! "EFB_DATA_PATH") = false →
   ∀ b, base_path_of a = Ok b → last_segment b = ".ehforwarderbot").
Proof.
  split_and!.
  - intros [Hb Hrun]%get_base_path_Ok Hl.
    assert (∀ d, d ∈ [p] → last_segment d ≠ ".") as Hds.
    { by intros d ->%list_elem_of_singleton. }
    split.
    + apply get_base_path_Ok. eauto using ensure_all_twice.
    + apply (ensure_all_isdir _ _ _ _ Hrun); [apply list_elem_of_here | done].
  - intros (b & Hb & Hp & Hrun)%get_data_path_Ok Hbase Hl.
    assert (∀ d, d ∈ [b; p] → last_segment d ≠ ".") as Hds.
    { intros d [->|[->|[]%elem_of_nil]%elem_of_cons]%elem_of_cons; auto. }
    split.
    + apply get_data_path_Ok. exists b. eauto using ensure_all_twice.
    + apply (ensure_all_isdir _ _ _ _ Hrun); [|done].
      apply list_elem_of_further, list_elem_of_here.
  - intros (b & Hb & Hp & Hrun)%get_config_path_Ok Hbase.
    destruct (Hbase b Hb) as [Hlb Hld].
    set (d := config_dir_of a config_channel b) in *.
    assert (∀ x, x ∈ (if py_bool config_channel then [b; b; d; d] else [b; d]) →
                 last_segment x ≠ ".") as Hds.
    { intros x Hx. destruct (py_bool config_channel);
        repeat (apply elem_of_cons in Hx as [->|Hx]; [done |]);
        by apply elem_of_nil in Hx. }
    split.
    + apply get_config_path_Ok. exists b. eauto using ensure_all_twice.
    + exists d. split; [done |].
      apply (ensure_all_isdir _ _ _ _ Hrun); [|done].
      destruct (py_bool config_channel);
        repeat first [apply list_elem_of_here | apply list_elem_of_further].
  - intros [Hb Hrun]%get_cache_path_Ok Hl.
    assert (∀ d, d ∈ [p] → last_segment d ≠ ".") as Hds.
    { by intros d ->%list_elem_of_singleton. }
    split.
    + apply get_cache_path_Ok. eauto using ensure_all_twice.
    + apply (ensure_all_isdir _ _ _ _ Hrun); [apply list_elem_of_here | done].
  - intros (b & Hb & Hp & Hrun)%get_custom_channel_path_Ok Hbase.
    assert (last_segment p ≠ ".") as Hl.
    { rewrite Hp, plugins_last_segment; [done |].
      by apply (base_path_of_trailing a). }
    assert (∀ d, d ∈ [b; p] → last_segment d ≠ ".") as Hds.
    { intros d [->|[->|[]%elem_of_nil]%elem_of_cons]%elem_of_cons; auto. }
    split.
    + apply get_custom_channel_path_Ok. exists b. eauto using ensure_all_twice.
    + apply (ensure_all_isdir _ _ _ _ Hrun); [|done].
      apply list_elem_of_further, list_elem_of_here.
  - intros Hunset b Hb. rewrite (base_path_of_default a b Hunset Hb).
    apply default_base_last_segment.
Qed.

Lemma C6_path_functions_idempotent_witness :
  (get_base_path alice_env ∅ = (Ok "/home/alice/.ehforwarderbot/", alice_base_tree) ∧
   get_base_path alice_env alice_base_tree =
     (Ok "/home/alice/.ehforwarderbot/", alice_base_tree) ∧
   isdir alice_env alice_base_tree "/home/alice/.ehforwarderbot/" = true) ∧
  (get_data_path alice_env "irc" ∅ =
     (Ok "/home/alice/.ehforwarderbot/default/irc/", alice_data_tree) ∧
   get_data_path alice_env "irc" alice_data_tree =
     (Ok "/home/alice/.ehforwarderbot/default/irc/", alice_data_tree) ∧
   isdir alice_env alice_data_tree "/home/alice/.ehforwarderbot/default/irc/" = true) ∧
  (get_config_path alice_env (Some "foo") "json" ∅ =
     (Ok "/home/alice/.ehforwarderbot/default/foo/config.json", alice_config_tree) ∧
   get_config_path alice_env (Some "foo") "json" alice_config_tree =
     (Ok "/home/alice/.ehforwarderbot/default/foo/config.json", alice_config_tree)) ∧
  (get_cache_path alice_env "irc" ∅ =
     (Ok "/home/alice/.ehforwarderbot/.cache/default/irc/", alice_cache_tree) ∧
   get_cache_path alice_env "irc" alice_cache_tree =
     (Ok "/home/alice/.ehforwarderbot/.cache/default/irc/", alice_cache_tree) ∧
   isdir alice_env alice_cache_tree
     "/home/alice/.ehforwarderbot/.cache/default/irc/" = true) ∧
  (get_custom_channel_path alice_env ∅ =
     (Ok "/home/alice/.ehforwarderbot/plugins", alice_plugins_tree) ∧
   get_custom_channel_path alice_env alice_plugins_tree =
     (Ok "/home/alice/.ehforwarderbot/plugins", alice_plugins_tree) ∧
   isdir alice_env alice_plugins_tree "/home/alice/.ehforwarderbot/plugins" = true).
Proof.
  assert (get_base_path alice_env ∅ =
          (Ok "/home/alice/.ehforwarderbot/", alice_base_tree)) as H1 by vm_refl.
  assert (get_data_path alice_env "irc" ∅ =
          (Ok "/home/alice/.ehforwarderbot/default/irc/", alice_data_tree))
    as H2 by vm_refl.
  assert (get_config_path alice_env (Some "foo") "json" ∅ =
          (Ok "/home/alice/.ehforwarderbot/default/foo/config.json",
           alice_config_tree)) as H3 by vm_refl.
  assert (get_cache_path alice_env "irc" ∅ =
          (Ok "/home/alice/.ehforwarderbot/.cache/default/irc/",
           alice_cache_tree)) as H4 by vm_refl.
  assert (get_custom_channel_path alice_env ∅ =
          (Ok "/home/alice/.ehforwarderbot/plugins", alice_plugins_tree))
    as H5 by vm_refl.
  assert (base_path_of alice_env = Ok "/home/alice/.ehforwarderbot/") as Hb
    by vm_refl.
  assert (∀ b, base_path_of alice_env = Ok b → last_segment b ≠ ".") as Hbase.
  { intros b Hb'. rewrite Hb in Hb'. injection Hb' as <-.
    intros Hw. vm_compute in Hw. discriminate. }
  destruct (C6_path_functions_idempotent alice_env "irc" None "yaml" ∅
              alice_base_tree "/home/alice/.ehforwarderbot/")
    as (Hbase' & _).
  destruct (C6_path_functions_idempotent alice_env "irc" None "yaml" ∅
              alice_data_tree "/home/alice/.ehforwarderbot/default/irc/")
    as (_ & Hdata & _).
  destruct (C6_path_functions_idempotent alice_env "irc" (Some "foo") "json" ∅
              alice_config_tree
              "/home/alice/.ehforwarderbot/default/foo/config.json")
    as (_ & _ & Hconfig & _).
  destruct (C6_path_functions_idempotent alice_env "irc" None "yaml" ∅
              alice_cache_tree "/home/alice/.ehforwarderbot/.cache/default/irc/")
    as (_ & _ & _ & Hcache & _).
  destruct (C6_path_functions_idempotent alice_env "irc" None "yaml" ∅
              alice_plugins_tree "/home/alice/.ehforwarderbot/plugins")
    as (_ & _ & _ & _ & Hplugins & _).
  destruct (Hbase' H1) as [R1 D1].
  { intros Hw. vm_compute in Hw. discriminate. }
  destruct (Hdata H2 Hbase) as [R2 D2].
  { intros Hw. vm_compute in Hw. discriminate. }
  destruct (Hconfig H3) as [R3 _].
  { intros b Hb'. rewrite Hb in Hb'. injection Hb' as <-.
    split; intros Hw; vm_compute in Hw; discriminate. }
  destruct (Hcache H4) as [R4 D4].
  { intros Hw. vm_compute in Hw. discriminate. }
  destruct (Hplugins H5 Hbase) as [R5 D5].
  by split_and!.
Defined.

(** ** What [get_config_path] touches *)

Lemma footprints_config (a : ambient) (c : bool) (b d : string)
    (k : list string) :
  k ∈ footprints a (if c then [b; b; d; d] else [b; d]) ↔
  k ∈ footprint a b ++ footprint a d.
Proof.
  unfold footprints. destruct c; rewrite !bind_cons, !elem_of_app;
    change (@nil string ≫= footprint a) with (@nil (list string));
    rewrite elem_of_nil; tauto.
Qed.

(** An entry on the way bears names of the path or of the working
    directory only. *)
Lemma footprint_names (a : ambient) (p : string) (k : list string) (c : string) :
  k ∈ footprint a p → c ∈ k → c ∈ components p ++ cwd a.
Proof.
  intros [Hk _]%footprint_visited Hc. apply elem_of_app.
  destruct (visited_names _ _ _ _ Hk Hc) as [H|H]; [|by left].
  unfold start_key in H. destruct (starts_with_sep p); [|by right].
  by apply elem_of_nil in H.
Qed.

Lemma last_elem_of (k : list string) (c : string) : last k = Some c → c ∈ k.
Proof.
  induction k as [|x k IH]; [done |]. destruct k as [|y k].
  - intros [= ->]. apply list_elem_of_here.
  - intros H. apply list_elem_of_further, IH. exact H.
Qed.

Lemma dest_app (cur l1 l2 : list string) :
  dest cur (l1 ++ l2) = dest (dest cur l1) l2.
Proof. apply fold_left_app. Qed.

(** How [get_config_path] runs once the base path is known. *)
Lemma get_config_path_run (a : ambient) (channel_id : option string)
    (ext : string) (fs fs' : gmap (list string) node) (r : result string)
    (b : string) :
  base_path_of a = Ok b →
  get_config_path a channel_id ext fs = (r, fs') ↔
  ∃ r0, ensure_all a
          (if py_bool channel_id
           then [b; b; config_dir_of a channel_id b; config_dir_of a channel_id b]
           else [b; config_dir_of a channel_id b]) fs = (r0, fs') ∧
        r = match r0 with
            | Ok _ => Ok (join (config_dir_of a channel_id b) ["config." +:+ ext])
            | Raise e => Raise e
            end.
Proof.
  intros Hb. rewrite get_config_path_plan, planned_eq. unfold config_plan.
  rewrite Hb. simpl.
  destruct (ensure_all a _ fs) as [[[]|e] fs1]; split.
  - intros [= <- <-]. by exists (Ok ()).
  - by intros (r0 & [= <- <-] & ->).
  - intros [= <- <-]. by exists (Raise e).
  - by intros (r0 & [= <- <-] & ->).
Qed.

(** C9, as stated, fails: the channel id is not validated, and with the
    channel id [config.yaml/..] the entry that the returned path names is
    made by the call, as a directory. *)
Lemma C9_config_entry_created_counterexample :
  get_config_path alice_env (Some "config.yaml/..") "yaml" ∅ =
    (Ok "/home/alice/.ehforwarderbot/default/config.yaml/../config.yaml",
     <[ ["home"; "alice"; ".ehforwarderbot"; "default"; "config.yaml"] := Dir ]>
       alice_profile_tree) ∧
  resolve alice_env
    (<[ ["home"; "alice"; ".ehforwarderbot"; "default"; "config.yaml"] := Dir ]>
       alice_profile_tree)
    "/home/alice/.ehforwarderbot/default/config.yaml/../config.yaml" =
    Some ["home"; "alice"; ".ehforwarderbot"; "default"; "config.yaml"] ∧
  path_exists alice_env ∅
    "/home/alice/.ehforwarderbot/default/config.yaml/../config.yaml" = false ∧
  (<[ ["home"; "alice"; ".ehforwarderbot"; "default"; "config.yaml"] := Dir ]>
     alice_profile_tree)
    !! ["home"; "alice"; ".ehforwarderbot"; "default"; "config.yaml"] = Some Dir.
Proof. split_and!; vm_refl. Qed.

(** C9, amended: whatever [get_config_path channel_id ext] does, return or
    raise, with [fs'] the tree it leaves: every entry of the tree is kept,
    every new entry is a directory, and the regular files and their
    contents are the same before and after; if no user name is found for an
    override in force, the tree is untouched.  With [b] the base path, [d]
    the containing directory and [F] the entries on the way to [b] and to
    [d]: a call that returns gives [d] joined with [config.ext], and [d]
    exists afterwards unless its last segment is [.]; every entry outside
    [F] is as before; writing any entry outside [F] beforehand, or removing
    it, changes neither the outcome nor what is made, so such an entry is
    not even looked at; an entry named [config.ext] is outside [F] unless
    [config.ext] is itself a segment of [b], of [d] or of the working
    directory; and under that condition, for an extension without
    separator, the entry that the returned path names is outside [F], so
    that it is neither made, nor changed, nor looked at. *)
Theorem C9_get_config_path_frame (a : ambient) (channel_id : option string)
    (ext : string) (fs fs' : gmap (list string) node) (r : result string)
    (Hrun : get_config_path a channel_id ext fs = (r, fs')) :
  fs ⊆ fs' ∧
  (∀ k n, fs !! k = None → fs' !! k = Some n → n = Dir) ∧
  (∀ k data, fs' !! k = Some (File data) ↔ fs !! k = Some (File data)) ∧
  (∀ e, base_path_of a = Raise e → r = Raise e ∧ fs' = fs) ∧
  ∀ b, base_path_of a = Ok b →
    let d := config_dir_of a channel_id b in
    let p := join d ["config." +:+ ext] in
    let F := footprint a b ++ footprint a d in
    let kp := dest (start_key a p) (components p) in
    (∀ p', r = Ok p' → p' = p ∧ (last_segment d ≠ "." → isdir a fs' d = true)) ∧
    (∀ k, k ∉ F → fs' !! k = fs !! k) ∧
    (∀ k o, k ∉ F →
       get_config_path a channel_id ext (<[k := o]> fs) = (r, <[k := o]> fs') ∧
       get_config_path a channel_id ext (delete k fs) = (r, delete k fs')) ∧
    (∀ k, last k = Some ("config." +:+ ext) →
          "config." +:+ ext ∉ components b ++ components d ++ cwd a →
          k ∉ F) ∧
    (sep_free ext = true →
     "config." +:+ ext ∉ components b ++ components d ++ cwd a →
     (kp ∉ F) ∧ (∀ k, resolve a fs' p = Some k → k = kp) ∧
     fs' !! kp = fs !! kp).
Proof.
  pose proof Hrun as Hgrown. rewrite get_config_path_plan in Hgrown.
  apply planned_grown in Hgrown. pose proof Hgrown as [Hsub Hnew].
  split_and!; [done | done | by apply grown_files | |].
  { intros e He. rewrite get_config_path_plan, planned_eq in Hrun.
    unfold config_plan in Hrun. rewrite He in Hrun. simpl in Hrun.
    by injection Hrun as <- <-. }
  intros b Hb d p F kp.
  apply (get_config_path_run _ _ _ _ _ _ _ Hb) in Hrun as (r0 & Hens & Hr).
  fold d in Hens, Hr.
  assert (∀ k, k ∉ F → fs' !! k = fs !! k) as Hframe.
  { intros k Hk. apply (ensure_all_frame _ _ _ _ _ Hens).
    by rewrite footprints_config. }
  assert (∀ k, last k = Some ("config." +:+ ext) →
               "config." +:+ ext ∉ components b ++ components d ++ cwd a →
               k ∉ F) as Hnames.
  { intros k Hlast Hname Hk. apply Hname. apply last_elem_of in Hlast.
    apply elem_of_app in Hk as [Hk|Hk];
      pose proof (footprint_names _ _ _ _ Hk Hlast) as Hin;
      rewrite !elem_of_app in *; tauto. }
  split_and!.
  - intros p' ->. destruct r0 as [[]|e]; [|done]. injection Hr as ->.
    split; [done |]. intros Hl. apply (ensure_all_isdir _ _ _ _ Hens); [|done].
    destruct (py_bool channel_id);
      repeat first [apply list_elem_of_here | apply list_elem_of_further].
  - done.
  - intros k o Hk.
    split; apply (get_config_path_run _ _ _ _ _ _ _ Hb); exists r0;
      (split; [|done]); fold d.
    + apply ensure_all_insert; [done |]. by rewrite footprints_config.
    + apply ensure_all_delete; [done |]. by rewrite footprints_config.
  - done.
  - intros Hext Hname.
    assert (last kp = Some ("config." +:+ ext)) as Hlast.
    { assert (d ≠ "") as Hd.
      { apply config_dir_of_nonempty, ends_with_sep_nonempty.
        by apply (base_path_of_trailing a). }
      destruct (join_step_components d ("config." +:+ ext) Hd) as [l Hl];
        [done | done |].
      unfold kp, p. rewrite join_singleton, Hl, dest_app. simpl.
      unfold dest. simpl. unfold next. simpl. apply last_snoc. }
    pose proof (Hnames _ Hlast Hname) as Hout.
    split_and!; [done | | by apply Hframe].
    intros k Hk. unfold resolve in Hk.
    destruct (stat a fs' p) as [k'|] eqn:E; [|done]. injection Hk as ->.
    unfold stat in E. destruct (check_path p); [|done].
    unfold mbind, result_bind in E.
    destruct (start a fs' p) as [cur|] eqn:Es; [|done].
    apply start_Ok in Es as ->. by apply namei_dest in E.
Qed.

Lemma C9_get_config_path_frame_witness :
  get_config_path alice_env (Some "foo") "json" alice_home_tree =
    (Ok "/home/alice/.ehforwarderbot/default/foo/config.json",
     alice_config_tree) ∧
  alice_config_tree
    !! ["home"; "alice"; ".ehforwarderbot"; "default"; "foo"; "config.json"] =
    None ∧
  get_config_path alice_env (Some "foo") "json"
    (<[ ["home"; "alice"; ".ehforwarderbot"; "default"; "foo"; "config.json"]
        := File "token: 1" ]> alice_home_tree) =
    (Ok "/home/alice/.ehforwarderbot/default/foo/config.json",
     <[ ["home"; "alice"; ".ehforwarderbot"; "default"; "foo"; "config.json"]
        := File "token: 1" ]> alice_config_tree) ∧
  get_config_path alice_env (Some ("foo/" +:+ String "000" "")) "json"
    alice_home_tree =
    (Raise ValueError, alice_config_tree) ∧
  alice_home_tree ⊆ alice_config_tree.
Proof.
  assert (get_config_path alice_env (Some "foo") "json" alice_home_tree =
    (Ok "/home/alice/.ehforwarderbot/default/foo/config.json",
     alice_config_tree)) as Hret by vm_refl.
  assert (get_config_path alice_env (Some ("foo/" +:+ String "000" "")) "json"
            alice_home_tree =
    (Raise ValueError, alice_config_tree)) as Hraise by vm_refl.
  destruct (C9_get_config_path_frame _ _ _ _ _ _ Hret)
    as (_ & _ & _ & _ & Hb).
  destruct (Hb "/home/alice/.ehforwarderbot/") as (_ & Hframe & Hoff & Hcfg & _).
  { vm_refl. }
  assert (["home"; "alice"; ".ehforwarderbot"; "default"; "foo"; "config.json"]
          ∉ footprint alice_env "/home/alice/.ehforwarderbot/" ++
            footprint alice_env
              (config_dir_of alice_env (Some "foo")
                 "/home/alice/.ehforwarderbot/")) as Hout.
  { apply Hcfg; [reflexivity |]. vm_compute.
    intros H. repeat (apply elem_of_cons in H as [H|H]; [discriminate |]).
    by apply elem_of_nil in H. }
  destruct (Hoff _ (File "token: 1") Hout) as [Hins _].
  destruct (C9_get_config_path_frame _ _ _ _ _ _ Hraise) as (Hsub & _).
  split_and!; [exact Hret | | exact Hins | exact Hraise | exact Hsub].
  rewrite (Hframe _ Hout). vm_refl.
Defined.

(** * Further properties of the path functions *)

(** ** What the functions add to the tree *)

(** X1: whichever of [get_base_path], [get_data_path], [get_cache_path]
    and [get_custom_channel_path] returns, every entry of the tree is kept
    as it was, every entry that is new is a directory, and the regular
    files and their contents are the same before and after. *)
Theorem X1_paths_only_add_directories (a : ambient) (channel : string)
    (fs fs' : gmap (list string) node) (p : string)
    (Hret : get_base_path a fs = (Ok p, fs') ∨
            get_data_path a channel fs = (Ok p, fs') ∨
            get_cache_path a channel fs = (Ok p, fs') ∨
            get_custom_channel_path a fs = (Ok p, fs')) :
  fs ⊆ fs' ∧
  (∀ k n, fs !! k = None → fs' !! k = Some n → n = Dir) ∧
  (∀ k data, fs' !! k = Some (File data) ↔ fs !! k = Some (File data)).
Proof.
  assert (grown fs fs') as Hg.
  { destruct Hret as [H|[H|[H|H]]].
    - rewrite get_base_path_plan in H. by eapply planned_grown.
    - rewrite get_data_path_plan in H. by eapply planned_grown.
    - rewrite get_cache_path_plan in H. by eapply planned_grown.
    - rewrite get_custom_channel_path_plan in H. by eapply planned_grown. }
  destruct Hg as [Hsub Hnew]. split_and!; [done | done |].
  by apply grown_files.
Qed.

Lemma X1_paths_only_add_directories_witness :
  get_cache_path alice_env "irc"
    (<[ ["home"; "alice"; "notes.txt"] := File "buy milk" ]> alice_home_tree) =
    (Ok "/home/alice/.ehforwarderbot/.cache/default/irc/",
     <[ ["home"; "alice"; "notes.txt"] := File "buy milk" ]> alice_cache_tree) ∧
  <[ ["home"; "alice"; "notes.txt"] := File "buy milk" ]> alice_home_tree ⊆
    <[ ["home"; "alice"; "notes.txt"] := File "buy milk" ]> alice_cache_tree.
Proof.
  assert (get_cache_path alice_env "irc"
    (<[ ["home"; "alice"; "notes.txt"] := File "buy milk" ]> alice_home_tree) =
    (Ok "/home/alice/.ehforwarderbot/.cache/default/irc/",
     <[ ["home"; "alice"; "notes.txt"] := File "buy milk" ]> alice_cache_tree))
    as Hret by vm_refl.
  split; [exact Hret |].
  apply (X1_paths_only_add_directories alice_env "irc" _ _
           "/home/alice/.ehforwarderbot/.cache/default/irc/").
  right. right. left. exact Hret.
Defined.

(** ** The configuration path of a channel lies in its data path *)

Lemma makedirs_again (a : ambient) (d : string)
    (fs fs1 : gmap (list string) node) :
  makedirs a d fs = (Ok (), fs1) → last_segment d ≠ "." →
  makedirs a d fs1 = (Ok (), fs1).
Proof. intros H Hl. by eapply makedirs_noop, makedirs_post. Qed.

Lemma ensure_all_dup (a : ambient) (d : string) (ds : list string)
    (fs : gmap (list string) node) :
  last_segment d ≠ "." →
  ensure_all a (d :: d :: ds) fs = ensure_all a (d :: ds) fs.
Proof.
  intros Hl. rewrite (ensure_all_cons a d (d :: ds)), (ensure_all_cons a d ds).
  destruct (makedirs a d fs) as [[[]|e] fs1] eqn:E1; [|done].
  by rewrite ensure_all_cons, (makedirs_again _ _ _ _ E1 Hl).
Qed.

Lemma get_config_path_via_data_path (a : ambient) (c ext : string)
    (fs : gmap (list string) node) :
  c ≠ "" →
  (∀ b, base_path_of a = Ok b →
        last_segment b ≠ "." ∧
        last_segment (join b [profile a; c; ""]) ≠ ".") →
  get_config_path a (Some c) ext fs =
    match get_data_path a c fs with
    | (Ok d, fs') => (Ok (d +:+ "config." +:+ ext), fs')
    | (Raise e, fs') => (Raise e, fs')
    end.
Proof.
  intros Hc Hseg.
  rewrite get_config_path_plan, get_data_path_plan, !planned_eq.
  unfold config_plan, data_plan, config_dir_of.
  rewrite (proj2 (py_bool_true (Some c))) by eauto.
  destruct (base_path_of a) as [b|e] eqn:Eb; [|done]. cbn -[ensure_all].
  destruct (Hseg b eq_refl) as [Hlb Hld].
  set (d := join b [profile a; c; ""]) in *.
  assert (join d ["config." +:+ ext] = d +:+ "config." +:+ ext) as ->.
  { rewrite join_singleton. apply join_step_dir; [|done].
    apply (join_trailing b [profile a; c]).
    by apply ends_with_sep_nonempty, (base_path_of_trailing a). }
  rewrite (ensure_all_dup a b [d; d] fs Hlb).
  rewrite (ensure_all_cons a b [d; d]), (ensure_all_cons a b [d]).
  destruct (makedirs a b fs) as [[[]|e] fs1] eqn:E1; [|done].
  rewrite (ensure_all_dup a d [] fs1 Hld).
  by destruct (ensure_all a [d] fs1) as [[[]|e] fs2].
Qed.

(** X2: for a non-empty channel id [c], when neither the base path nor the
    data path of [c] has [.] as its last segment, [get_config_path c ext]
    does on every tree what [get_data_path c] does: it raises the same
    exception and leaves the same tree, or it leaves the same tree and
    returns what [get_data_path c] returns followed by [config.ext]. *)
Theorem X2_config_path_in_data_path (a : ambient) (c ext : string)
    (fs : gmap (list string) node) (Hc : c ≠ "")
    (Hseg : ∀ b, base_path_of a = Ok b →
                 last_segment b ≠ "." ∧
                 last_segment (join b [profile a; c; ""]) ≠ ".") :
  get_config_path a (Some c) ext fs =
    match get_data_path a c fs with
    | (Ok d, fs') => (Ok (d +:+ "config." +:+ ext), fs')
    | (Raise e, fs') => (Raise e, fs')
    end.
Proof. by apply get_config_path_via_data_path. Qed.

Lemma X2_config_path_in_data_path_witness :
  get_data_path alice_env "foo" ∅ =
    (Ok "/home/alice/.ehforwarderbot/default/foo/", alice_config_tree) ∧
  get_config_path alice_env (Some "foo") "yaml" ∅ =
    (Ok "/home/alice/.ehforwarderbot/default/foo/config.yaml", alice_config_tree).
Proof.
  assert (get_data_path alice_env "foo" ∅ =
    (Ok "/home/alice/.ehforwarderbot/default/foo/", alice_config_tree))
    as Hdata by vm_refl.
  split; [exact Hdata |].
  rewrite (X2_config_path_in_data_path alice_env "foo" "yaml" ∅).
  - by rewrite Hdata.
  - done.
  - intros b Hb. assert (b = "/home/alice/.ehforwarderbot/") as ->.
    { assert (base_path_of alice_env = Ok "/home/alice/.ehforwarderbot/")
        as Hb' by vm_refl.
      congruence. }
    split; intros Hw; vm_compute in Hw; discriminate.
Defined.

(** ** A channel id that is an absolute path *)

Lemma join_absolute_last (b : string) (l : list string) (c : string) :
  starts_with_sep c = true → join b (l ++ [c; ""]) = join c [""].
Proof.
  intros Hc. rewrite join_app, join_cons.
  assert (join_step (join b l) c = c) as ->; [|done].
  unfold join_step. by rewrite Hc.
Qed.

Lemma expanduser_absolute (a : ambient) (path : string) :
  starts_with_sep path = true → expanduser a path = path.
Proof.
  intros H. apply expanduser_id. intros t ->. discriminate.
Qed.

Lemma join_step_starts (path b : string) :
  starts_with_sep path = true → starts_with_sep (join_step path b) = true.
Proof.
  intros Hp. unfold join_step.
  destruct (starts_with_sep b) eqn:Hb; [done |].
  destruct path as [|c path]; [done |].
  by destruct (_ || _).
Qed.

Lemma join_starts (b : string) (l : list string) :
  starts_with_sep b = true → starts_with_sep (join b l) = true.
Proof.
  revert b. induction l as [|c l IH]; intros b Hb; [done |].
  rewrite join_cons. by apply IH, join_step_starts.
Qed.

(** X3: a channel id that starts with a separator takes the place of all
    that precedes it.  [get_data_path] and [get_cache_path] then return the
    channel id itself, closed by a separator, whatever the base path, the
    overrides, the user and the profile are, and [get_config_path] returns
    the file [config.ext] in it; [get_data_path] has made the base
    directory all the same, which exists afterwards unless its last segment
    is [.]. *)
Theorem X3_absolute_channel_escapes (a : ambient) (channel ext : string)
    (fs fs' : gmap (list string) node) (p : string)
    (Habs : starts_with_sep channel = true) :
  (get_data_path a channel fs = (Ok p, fs') →
     p = join channel [""] ∧
     ∃ b fs1, base_path_of a = Ok b ∧ get_base_path a fs = (Ok b, fs1) ∧
              fs1 ⊆ fs' ∧ (last_segment b ≠ "." → isdir a fs' b = true)) ∧
  (get_cache_path a channel fs = (Ok p, fs') → p = join channel [""]) ∧
  (get_config_path a (Some channel) ext fs = (Ok p, fs') →
     p = join channel [""] +:+ "config." +:+ ext).
Proof.
  assert (channel ≠ "") as Hne by (by destruct channel).
  split_and!.
  - intros (b & Hb & -> & Hrun)%get_data_path_Ok. split.
    + by apply (join_absolute_last b [profile a]).
    + pose proof Hrun as (fs1 & H1 & H2)%ensure_all_Ok.
      exists b, fs1. split_and!; [done | | |].
      * apply get_base_path_Ok. split; [done |].
        apply ensure_all_Ok. by exists fs1.
      * by apply ensure_all_grown in H2 as [? _].
      * intros Hl. apply (ensure_all_isdir _ _ _ _ Hrun); [|done].
        apply list_elem_of_here.
  - intros [Hc _]%get_cache_path_Ok. unfold cache_path_of in Hc.
    destruct (py_bool (environ a !! "EFB_CACHE_PATH")).
    + simpl in Hc. destruct (getuser a) as [u|e]; [|done]. injection Hc as <-.
      by apply (join_absolute_last _ [u; profile a]).
    + injection Hc as <-.
      assert (join (expanduser a "~/.ehforwarderbot/.cache/")
                [profile a; channel; ""] = join channel [""]) as ->.
      { by apply (join_absolute_last _ [profile a]). }
      apply expanduser_absolute. by apply join_starts.
  - intros (b & Hb & -> & _)%get_config_path_Ok. unfold config_dir_of.
    rewrite (proj2 (py_bool_true (Some channel))) by eauto. simpl.
    assert (join b [profile a; channel; ""] = join channel [""]) as ->.
    { by apply (join_absolute_last b [profile a]). }
    rewrite join_singleton. apply join_step_dir; [|done].
    by apply (join_trailing channel []).
Qed.

Lemma X3_absolute_channel_escapes_witness :
  get_data_path alice_env "/etc/efb" ∅ =
    (Ok "/etc/efb/",
     {[ ["etc"] := Dir; ["etc"; "efb"] := Dir ]} ∪ alice_base_tree) ∧
  "/etc/efb/" = join "/etc/efb" [""].
Proof.
  assert (get_data_path alice_env "/etc/efb" ∅ =
    (Ok "/etc/efb/",
     {[ ["etc"] := Dir; ["etc"; "efb"] := Dir ]} ∪ alice_base_tree))
    as Hret by vm_refl.
  split; [exact Hret |].
  destruct (X3_absolute_channel_escapes alice_env "/etc/efb" "yaml" ∅
              ({[ ["etc"] := Dir; ["etc"; "efb"] := Dir ]} ∪ alice_base_tree)
              "/etc/efb/") as (Hdata & _); [reflexivity |].
  by destruct (Hdata Hret) as [? _].
Defined.

(** ** Where the data directory lies in the tree *)

Lemma named_next (cur : list string) (c : string) :
  named c = true → next cur c = cur ++ [c].
Proof.
  unfold named. intros [[_ H1%negb_true_iff]%andb_true_iff
                         H2%negb_true_iff]%andb_true_iff.
  unfold next. by rewrite H1, H2.
Qed.

(** A name that resolution passes through is short enough and, where more
    follows, names a directory. *)
Lemma lookup_step_named (fs : gmap (list string) node) (cur : list string)
    (c : string) (k : list string) :
  named c = true → lookup_step fs cur c = Ok k →
  is_dir fs cur = true ∧ k = cur ++ [c] ∧ (String.length c ≤ NAME_MAX)%nat ∧
  is_Some (fs !! (cur ++ [c])).
Proof.
  intros Hc H. pose proof (lookup_step_Ok _ _ _ _ H) as [Hd ->].
  rewrite (named_next cur c Hc).
  unfold named in Hc. apply andb_true_iff in Hc as [[_ H1]%andb_true_iff H2].
  apply negb_true_iff in H1, H2.
  unfold lookup_step in H. rewrite Hd, H1, H2 in H. simpl in H.
  destruct (_ <? _)%nat eqn:E; [done |]. apply Nat.ltb_ge in E.
  split_and!; [done | done | done |]. by destruct (fs !! (cur ++ [c])).
Qed.

Lemma is_dir_snoc (fs : gmap (list string) node) (cur : list string)
    (c : string) :
  is_dir fs (cur ++ [c]) = true → fs !! (cur ++ [c]) = Some Dir.
Proof.
  unfold is_dir. destruct (cur ++ [c]) eqn:E; [by destruct cur |].
  apply bool_decide_eq_true_1.
Qed.

Lemma check_path_prefix (s t : string) :
  s ≠ "" → check_path (s +:+ t) = Ok () → check_path s = Ok ().
Proof.
  intros Hs (Hnul & _ & Hlen)%check_path_Ok. apply check_path_Ok.
  rewrite has_nul_app in Hnul. apply orb_false_iff in Hnul as [? _].
  rewrite length_append in Hlen. split_and!; [done | done | lia].
Qed.

Lemma start_app (a : ambient) (fs : gmap (list string) node) (s t : string) :
  s ≠ "" → start a fs (s +:+ t) = start a fs s.
Proof. intros Hs. unfold start. by rewrite starts_with_sep_app. Qed.

(** Where a directory [b profile/channel/] that exists lies in the tree. *)
Lemma data_dir_layout (a : ambient) (fs : gmap (list string) node)
    (b profile channel : string) :
  ends_with_sep b = true → named profile = true → named channel = true →
  isdir a fs (b +:+ profile +:+ "/" +:+ channel +:+ "/") = true →
  ∃ kb, resolve a fs b = Some kb ∧
        resolve a fs (b +:+ profile +:+ "/" +:+ channel +:+ "/") =
          Some (kb ++ [profile; channel]) ∧
        fs !! (kb ++ [profile]) = Some Dir ∧
        fs !! (kb ++ [profile; channel]) = Some Dir ∧
        (String.length profile ≤ NAME_MAX)%nat ∧
        (String.length channel ≤ NAME_MAX)%nat.
Proof.
  intros Hdir Hprofile Hchannel Hisdir.
  pose proof (ends_with_sep_nonempty b Hdir) as Hbne.
  set (p := b +:+ profile +:+ "/" +:+ channel +:+ "/") in *.
  destruct (ends_with_sep_split b Hdir) as [b' Eb'].
  assert (components b = components b' ++ [""]) as Hcb.
  { rewrite Eb', <- (append_nil_r (b' +:+ "/")), append_assoc.
    by rewrite components_app_sep. }
  assert (components p = components b' ++ [profile; channel; ""]) as Hcp.
  { unfold p. rewrite Eb', !append_assoc.
    rewrite <- (append_nil_r (channel +:+ "/")), !append_assoc.
    rewrite !components_app_sep.
    rewrite (components_sep_free profile), (components_sep_free channel).
    - done.
    - by apply named_segment, andb_true_iff in Hchannel as [_ ?].
    - by apply named_segment, andb_true_iff in Hprofile as [_ ?]. }
  unfold isdir in Hisdir. destruct (stat a fs p) as [k|] eqn:Hstat; [|done].
  pose proof Hstat as Hstat'. unfold stat in Hstat'.
  destruct (check_path p) as [[]|] eqn:Hcheck; [|done].
  unfold mbind, result_bind in Hstat'.
  assert (start a fs p = start a fs b) as Hstart by by apply start_app.
  rewrite Hstart in Hstat'.
  destruct (start a fs b) as [cur|] eqn:Hcur; [|done].
  rewrite Hcp, namei_app in Hstat'.
  destruct (namei fs cur (components b')) as [kb|] eqn:Hkb; [|done].
  rewrite namei_cons in Hstat'.
  destruct (lookup_step fs kb profile) as [k1|] eqn:E1; [|done].
  apply (lookup_step_named _ _ _ _ Hprofile) in E1 as (Hdb & -> & Hlp & _).
  rewrite namei_cons in Hstat'.
  destruct (lookup_step fs (kb ++ [profile]) channel) as [k2|] eqn:E2; [|done].
  apply (lookup_step_named _ _ _ _ Hchannel) in E2 as (Hd1 & -> & Hlc & _).
  rewrite namei_cons in Hstat'.
  destruct (lookup_step fs ((kb ++ [profile]) ++ [channel]) "") as [k3|] eqn:E3;
    [|done].
  apply lookup_step_Ok in E3 as [Hd2 ->]. injection Hstat' as <-.
  apply is_dir_snoc in Hd1, Hd2.
  change (next ((kb ++ [profile]) ++ [channel]) "")
    with ((kb ++ [profile]) ++ [channel]) in *.
  rewrite <- app_assoc in *. simpl in *.
  exists kb. split_and!; try done.
  - unfold resolve, stat. rewrite (check_path_prefix b _ Hbne Hcheck).
    unfold mbind, result_bind. rewrite Hcur, Hcb, namei_app, Hkb.
    by rewrite (namei_empties fs kb [""]).
  - unfold resolve. by rewrite Hstat.
Qed.

(** X4: when the profile and the channel id are named segments (plain, and
    neither [.] nor [..]) and [get_data_path] returns, the result reads
    [b profile/channel/] for the base path [b], and in the tree the data
    directory is the entry [channel] of the entry [profile] of the base
    directory, both of them directories. *)
Theorem X4_data_path_layout (a : ambient) (channel : string)
    (fs fs' : gmap (list string) node) (p : string)
    (Hret : get_data_path a channel fs = (Ok p, fs'))
    (Hprofile : named (profile a) = true) (Hchannel : named channel = true) :
  ∃ b kb,
    base_path_of a = Ok b ∧
    p = b +:+ profile a +:+ "/" +:+ channel +:+ "/" ∧
    resolve a fs' b = Some kb ∧
    resolve a fs' p = Some (kb ++ [profile a; channel]) ∧
    fs' !! (kb ++ [profile a]) = Some Dir ∧
    fs' !! (kb ++ [profile a; channel]) = Some Dir.
Proof.
  apply get_data_path_Ok in Hret as (b & Hb & Hp & Hrun).
  pose proof (base_path_of_trailing a b Hb) as Hdir.
  assert (isdir a fs' p = true) as Hisdir.
  { apply (ensure_all_isdir _ _ _ _ Hrun).
    - apply list_elem_of_further, list_elem_of_here.
    - rewrite Hp, data_path_last_segment by auto using named_segment.
      by apply named_not_dot. }
  rewrite (data_path_literal b (profile a) channel Hdir)
    in Hp by auto using named_segment.
  subst p.
  destruct (data_dir_layout a fs' b (profile a) channel Hdir Hprofile Hchannel
              Hisdir) as (kb & H1 & H2 & H3 & H4 & _).
  by exists b, kb.
Qed.

Lemma X4_data_path_layout_witness :
  get_data_path alice_env "irc" ∅ =
    (Ok "/home/alice/.ehforwarderbot/default/irc/", alice_data_tree) ∧
  ∃ kb, resolve alice_env alice_data_tree
          "/home/alice/.ehforwarderbot/default/irc/" =
          Some (kb ++ ["default"; "irc"]) ∧
        alice_data_tree !! (kb ++ ["default"; "irc"]) = Some Dir.
Proof.
  assert (get_data_path alice_env "irc" ∅ =
    (Ok "/home/alice/.ehforwarderbot/default/irc/", alice_data_tree))
    as Hret by vm_refl.
  split; [exact Hret |].
  destruct (X4_data_path_layout alice_env "irc" ∅ alice_data_tree _ Hret)
    as (b & kb & _ & _ & _ & Hres & _ & Hdir); [reflexivity | reflexivity |].
  by exists kb.
Defined.

(** ** Different channels, different data directories *)

Lemma append_inj_l (s t1 t2 : string) : s +:+ t1 = s +:+ t2 → t1 = t2.
Proof.
  induction s as [|c s IH]; [done |]. rewrite !append_cons.
  intros [= H]. by apply IH.
Qed.

Lemma segment_sep_inj (c1 c2 r1 r2 : string) :
  sep_free c1 = true → sep_free c2 = true →
  c1 +:+ "/" +:+ r1 = c2 +:+ "/" +:+ r2 → c1 = c2.
Proof.
  revert c2. induction c1 as [|x c1 IH]; intros [|y c2]; simpl.
  - done.
  - intros _ [Hy _]%andb_true_iff. rewrite append_nil_l, append_cons.
    intros [= <- _]. done.
  - intros [Hx _]%andb_true_iff _. rewrite append_nil_l, append_cons.
    intros [= -> _]. done.
  - intros [_ H1]%andb_true_iff [_ H2]%andb_true_iff. rewrite !append_cons.
    intros [= -> H]. f_equal. by apply IH.
Qed.

(** X5: under one ambient state, two plain channel ids (non-empty, without
    separator) for which [get_data_path] returns the same string are the
    same channel id.  Without the restriction it fails: [a] and [a/] share
    a data directory. *)
Theorem X5_data_paths_distinct (a : ambient) (c1 c2 : string)
    (fs1 fs1' fs2 fs2' : gmap (list string) node) (p : string)
    (H1 : get_data_path a c1 fs1 = (Ok p, fs1'))
    (H2 : get_data_path a c2 fs2 = (Ok p, fs2'))
    (Hc1 : segment c1 = true) (Hc2 : segment c2 = true) :
  c1 = c2.
Proof.
  apply get_data_path_Ok in H1 as (b & Hb & Hp1 & _).
  apply get_data_path_Ok in H2 as (b' & Hb' & Hp2 & _).
  assert (b' = b) as -> by congruence.
  rewrite (join_cons b (profile a)) in Hp1, Hp2.
  set (x := join_step b (profile a)) in *.
  assert (x ≠ "") as Hx.
  { apply join_step_nonempty, ends_with_sep_nonempty.
    by apply (base_path_of_trailing a). }
  pose proof (proj1 (andb_true_iff _ _) Hc1) as [_ Hf1].
  pose proof (proj1 (andb_true_iff _ _) Hc2) as [_ Hf2].
  destruct (ends_with_sep x) eqn:Ex.
  - rewrite (join_dir_segment x c1 Ex Hc1) in Hp1.
    rewrite (join_dir_segment x c2 Ex Hc2) in Hp2.
    rewrite Hp1 in Hp2. apply append_inj_l in Hp2.
    rewrite <- (append_nil_r (c1 +:+ "/")), <- (append_nil_r (c2 +:+ "/")),
      !append_assoc in Hp2.
    by eapply segment_sep_inj.
  - rewrite (join_file_segment x c1 Hx Ex Hc1) in Hp1.
    rewrite (join_file_segment x c2 Hx Ex Hc2) in Hp2.
    rewrite Hp1 in Hp2. do 2 apply append_inj_l in Hp2.
    rewrite <- (append_nil_r (c1 +:+ "/")), <- (append_nil_r (c2 +:+ "/")),
      !append_assoc in Hp2.
    by eapply segment_sep_inj.
Qed.

Lemma X5_data_paths_distinct_witness :
  get_data_path alice_env "irc" ∅ =
    (Ok "/home/alice/.ehforwarderbot/default/irc/", alice_data_tree) ∧
  get_data_path alice_env "irc" alice_data_tree =
    (Ok "/home/alice/.ehforwarderbot/default/irc/", alice_data_tree) ∧
  "irc" = "irc" ∧
  get_data_path alice_env "irc/" ∅ =
    (Ok "/home/alice/.ehforwarderbot/default/irc/", alice_data_tree).
Proof.
  assert (get_data_path alice_env "irc" ∅ =
    (Ok "/home/alice/.ehforwarderbot/default/irc/", alice_data_tree))
    as H1 by vm_refl.
  assert (get_data_path alice_env "irc" alice_data_tree =
    (Ok "/home/alice/.ehforwarderbot/default/irc/", alice_data_tree))
    as H2 by vm_refl.
  split_and!; [exact H1 | exact H2 | | vm_refl].
  by apply (X5_data_paths_distinct alice_env "irc" "irc" _ _ _ _ _ H1 H2).
Defined.

(** ** The two overrides do not interfere *)

Lemma environ_setenv_ne (a : ambient) (k k' v : string) :
  k ≠ k' → environ (setenv k v a) !! k' = environ a !! k'.
Proof. intros H. unfold setenv. simpl. by apply lookup_insert_ne. Qed.

Lemma environ_unsetenv_ne (a : ambient) (k k' : string) :
  k ≠ k' → environ (unsetenv k a) !! k' = environ a !! k'.
Proof. intros H. unfold unsetenv. simpl. by apply lookup_delete_ne. Qed.

Lemma same_but_setenv (k v : string) (a : ambient) : same_but k a (setenv k v a).
Proof. split_and!; try done. intros k' H. by apply environ_setenv_ne. Qed.

Lemma same_but_unsetenv (k : string) (a : ambient) : same_but k a (unsetenv k a).
Proof. split_and!; try done. intros k' H. by apply environ_unsetenv_ne. Qed.

Lemma same_but_getuser (k : string) (a a' : ambient) :
  same_but k a a' →
  k ≠ "LOGNAME" → k ≠ "USER" → k ≠ "LNAME" → k ≠ "USERNAME" →
  getuser a' = getuser a.
Proof.
  intros (Henv & Hpw & _) H1 H2 H3 H4. unfold getuser. simpl.
  by rewrite (Henv "LOGNAME" H1), (Henv "USER" H2), (Henv "LNAME" H3),
             (Henv "USERNAME" H4), Hpw.
Qed.

Lemma same_but_expanduser (k : string) (a a' : ambient) (path : string) :
  same_but k a a' → k ≠ "HOME" → expanduser a' path = expanduser a path.
Proof.
  intros (Henv & Hpw & Hnam & _) H. unfold expanduser, home.
  by rewrite (Henv "HOME" H), Hpw, Hnam.
Qed.

Lemma planned_cwd {A} (a a' : ambient) (plan : result (list string * A))
    (fs : gmap (list string) node) :
  cwd a' = cwd a → planned a' plan fs = planned a plan fs.
Proof.
  intros H. rewrite !planned_eq. destruct plan as [[ds x]|e]; [|done].
  by rewrite (ensure_all_cwd a a' ds fs H).
Qed.

Lemma same_but_base_path_of (a a' : ambient) :
  same_but "EFB_CACHE_PATH" a a' → base_path_of a' = base_path_of a.
Proof.
  intros H. pose proof H as (Henv & _). unfold base_path_of.
  rewrite (Henv "EFB_DATA_PATH") by done.
  rewrite (same_but_getuser _ _ _ H) by done.
  by rewrite (same_but_expanduser _ _ _ "~/.ehforwarderbot/" H).
Qed.

Lemma same_but_cache_path_of (a a' : ambient) (channel : string) :
  same_but "EFB_DATA_PATH" a a' →
  cache_path_of a' channel = cache_path_of a channel.
Proof.
  intros H. pose proof H as (Henv & _ & _ & Hprof & _). unfold cache_path_of.
  rewrite (Henv "EFB_CACHE_PATH") by done.
  rewrite (same_but_getuser _ _ _ H) by done. rewrite Hprof.
  rewrite (same_but_expanduser _ _ _ "~/.ehforwarderbot/.cache/" H) by done.
  by rewrite (same_but_expanduser _ _ _ _ H).
Qed.

Lemma same_but_base_path (a a' : ambient) (fs : gmap (list string) node) :
  same_but "EFB_CACHE_PATH" a a' → get_base_path a' fs = get_base_path a fs.
Proof.
  intros H. rewrite !get_base_path_plan. unfold base_plan.
  rewrite (same_but_base_path_of a a' H). apply planned_cwd. apply H.
Qed.

Lemma same_but_data_path (a a' : ambient) (channel : string)
    (fs : gmap (list string) node) :
  same_but "EFB_CACHE_PATH" a a' →
  get_data_path a' channel fs = get_data_path a channel fs.
Proof.
  intros H. rewrite !get_data_path_plan. unfold data_plan.
  rewrite (same_but_base_path_of a a' H).
  assert (profile a' = profile a) as -> by apply H.
  apply planned_cwd. apply H.
Qed.

Lemma same_but_cache_path (a a' : ambient) (channel : string)
    (fs : gmap (list string) node) :
  same_but "EFB_DATA_PATH" a a' →
  get_cache_path a' channel fs = get_cache_path a channel fs.
Proof.
  intros H. rewrite !get_cache_path_plan. unfold cache_plan.
  rewrite (same_but_cache_path_of a a' channel H). apply planned_cwd. apply H.
Qed.

(** X6: setting [EFB_DATA_PATH] to any value, or removing it, changes
    nothing in what [get_cache_path] does; setting [EFB_CACHE_PATH] to any
    value, or removing it, changes nothing in what [get_base_path] and
    [get_data_path] do.  In particular an overridden data directory leaves
    the cache directory where it was. *)
Theorem X6_overrides_independent (a : ambient) (v channel : string)
    (fs : gmap (list string) node) :
  get_cache_path (setenv "EFB_DATA_PATH" v a) channel fs =
    get_cache_path a channel fs ∧
  get_cache_path (unsetenv "EFB_DATA_PATH" a) channel fs =
    get_cache_path a channel fs ∧
  get_base_path (setenv "EFB_CACHE_PATH" v a) fs = get_base_path a fs ∧
  get_base_path (unsetenv "EFB_CACHE_PATH" a) fs = get_base_path a fs ∧
  get_data_path (setenv "EFB_CACHE_PATH" v a) channel fs =
    get_data_path a channel fs ∧
  get_data_path (unsetenv "EFB_CACHE_PATH" a) channel fs =
    get_data_path a channel fs.
Proof.
  split_and!.
  - apply same_but_cache_path, same_but_setenv.
  - apply same_but_cache_path, same_but_unsetenv.
  - apply same_but_base_path, same_but_setenv.
  - apply same_but_base_path, same_but_unsetenv.
  - apply same_but_data_path, same_but_setenv.
  - apply same_but_data_path, same_but_unsetenv.
Qed.

(** ** The default cache directory lies inside the base directory *)





(** ** Exceptions *)

(** X8: an exception [get_base_path] raises on a tree is raised, on that
    tree, by [get_data_path], [get_config_path] and
    [get_custom_channel_path] as well, whatever their arguments, and they
    leave the tree that [get_base_path] leaves. *)
Theorem X8_base_path_errors_propagate (a : ambient) (channel : string)
    (config_channel : option string) (ext : string)
    (fs fs' : gmap (list string) node) (e : exn)
    (Hraise : get_base_path a fs = (Raise e, fs')) :
  get_data_path a channel fs = (Raise e, fs') ∧
  get_config_path a config_channel ext fs = (Raise e, fs') ∧
  get_custom_channel_path a fs = (Raise e, fs').
Proof.
  unfold get_data_path, get_config_path, get_custom_channel_path.
  unfold mbind, M_bind. by rewrite Hraise.
Qed.

Lemma X8_base_path_errors_propagate_witness :
  get_base_path alice_env {[ ["home"] := File "in the way" ]} =
    (Raise (OSError ENOTDIR), {[ ["home"] := File "in the way" ]}) ∧
  get_data_path alice_env "irc" {[ ["home"] := File "in the way" ]} =
    (Raise (OSError ENOTDIR), {[ ["home"] := File "in the way" ]}) ∧
  get_config_path alice_env None "yaml" {[ ["home"] := File "in the way" ]} =
    (Raise (OSError ENOTDIR), {[ ["home"] := File "in the way" ]}) ∧
  get_custom_channel_path alice_env {[ ["home"] := File "in the way" ]} =
    (Raise (OSError ENOTDIR), {[ ["home"] := File "in the way" ]}).
Proof.
  assert (get_base_path alice_env {[ ["home"] := File "in the way" ]} =
          (Raise (OSError ENOTDIR), {[ ["home"] := File "in the way" ]}))
    as H by vm_refl.
  split; [exact H |].
  exact (X8_base_path_errors_propagate alice_env "irc" None "yaml" _ _ _ H).
Defined.




(** ** Channel ids that no directory can bear *)





(** ** Decorating two functions *)

(** X11: decorating two different function objects gives the same store in
    either order, and decorating one of them leaves the other one as it
    was. *)
Theorem X11_extra_commutes (N D N' D' : string) (f g : nat)
    (h : gmap nat pyobject) (obj_f obj_g : function)
    (Hf : h !! f = Some (PyFunction obj_f))
    (Hg : h !! g = Some (PyFunction obj_g)) (Hne : f ≠ g) :
  ∃ h1 h1' h2,
    extra N D f h = Some (Ok f, h1) ∧ extra N' D' g h1 = Some (Ok g, h2) ∧
    extra N' D' g h = Some (Ok g, h1') ∧ extra N D f h1' = Some (Ok f, h2) ∧
    h1 !! g = Some (PyFunction obj_g) ∧ h1' !! f = Some (PyFunction obj_f).
Proof.
  unfold extra. rewrite (attr_dec_function N D f h obj_f Hf).
  rewrite (attr_dec_function N' D' g h obj_g Hg).
  eexists _, _, _. split_and!; [done | | done | | |].
  - apply attr_dec_function. by rewrite lookup_insert_ne.
  - rewrite (attr_dec_function N D f _ obj_f) by by rewrite lookup_insert_ne.
    do 2 f_equal. by apply insert_insert_ne.
  - by rewrite lookup_insert_ne.
  - by rewrite lookup_insert_ne.
Qed.

Lemma X11_extra_commutes_witness :
  ∃ h1 h2,
    extra "Echo" "repeat" 1 sample_heap = Some (Ok 1, h1) ∧
    extra "Ping" "answer" 2 h1 = Some (Ok 2, h2) ∧
    h1 !! 2 = sample_heap !! 2.
Proof.
  destruct (X11_extra_commutes "Echo" "repeat" "Ping" "answer" 1 2 sample_heap
              sample_function {| func_code := λ args, PyBool true; func_dict := ∅ |})
    as (h1 & h1' & h2 & E1 & E2 & _ & _ & Hg & _);
    [reflexivity | reflexivity | done |].
  exists h1, h2. split_and!; [exact E1 | exact E2 |].
  rewrite Hg. reflexivity.
Defined.

(** ** The empty channel id, and calls that follow one another *)

(** X12: an empty channel id counts as none: [get_config_path ""] does on
    every tree what [get_config_path] does without a channel id, so it
    names the configuration file of the profile, not one of a channel. *)
Theorem X12_config_path_empty_channel (a : ambient) (ext : string)
    (fs : gmap (list string) node) :
  get_config_path a (Some "") ext fs = get_config_path a None ext fs ∧
  ∀ p fs', get_config_path a (Some "") ext fs = (Ok p, fs') →
           ∃ b, base_path_of a = Ok b ∧
                p = join b [profile a; "config." +:+ ext].
Proof.
  split; [done |].
  intros p fs' (b & Hb & -> & _)%get_config_path_Ok. by exists b.
Qed.

(** X13: once [get_data_path c] has returned [p] for a non-empty channel
    id [c], leaving the tree [fs'], where neither the base path nor [p] has
    [.] as its last segment, the calls [get_base_path], [get_data_path c]
    and [get_config_path c ext] all return on [fs'] and leave it as it is;
    the last one returns [p] followed by [config.ext]. *)
Theorem X13_after_data_path (a : ambient) (c ext : string)
    (fs fs' : gmap (list string) node) (p : string)
    (Hc : c ≠ "") (Hret : get_data_path a c fs = (Ok p, fs'))
    (Hbase : ∀ b, base_path_of a = Ok b → last_segment b ≠ ".")
    (Hlast : last_segment p ≠ ".") :
  (∃ b, get_base_path a fs' = (Ok b, fs')) ∧
  get_data_path a c fs' = (Ok p, fs') ∧
  get_config_path a (Some c) ext fs' = (Ok (p +:+ "config." +:+ ext), fs').
Proof.
  pose proof Hret as (b & Hb & Hp & Hrun)%get_data_path_Ok.
  assert (∀ d, d ∈ [b; p] → last_segment d ≠ ".") as Hds.
  { intros d [->|[->|[]%elem_of_nil]%elem_of_cons]%elem_of_cons; auto. }
  assert (get_data_path a c fs' = (Ok p, fs')) as Hagain.
  { apply get_data_path_Ok. exists b. eauto using ensure_all_twice. }
  split_and!; [| done |].
  - exists b. apply get_base_path_Ok. split; [done |].
    apply ensure_all_noop. intros d ->%list_elem_of_singleton.
    apply (ensure_all_isdir _ _ _ _ Hrun); [apply list_elem_of_here | auto].
  - rewrite get_config_path_via_data_path; [by rewrite Hagain | done |].
    intros b' Hb'. assert (b' = b) as -> by congruence.
    split; [auto | by rewrite <- Hp].
Qed.

Lemma X13_after_data_path_witness :
  get_data_path alice_env "foo" ∅ =
    (Ok "/home/alice/.ehforwarderbot/default/foo/", alice_config_tree) ∧
  get_config_path alice_env (Some "foo") "json" alice_config_tree =
    (Ok "/home/alice/.ehforwarderbot/default/foo/config.json",
     alice_config_tree).
Proof.
  assert (get_data_path alice_env "foo" ∅ =
    (Ok "/home/alice/.ehforwarderbot/default/foo/", alice_config_tree))
    as Hret by vm_refl.
  split; [exact Hret |].
  destruct (X13_after_data_path alice_env "foo" "json" ∅ alice_config_tree
              "/home/alice/.ehforwarderbot/default/foo/") as (_ & _ & H);
    [done | exact Hret | | | exact H].
  - intros b Hb. assert (b = "/home/alice/.ehforwarderbot/") as ->.
    { assert (base_path_of alice_env = Ok "/home/alice/.ehforwarderbot/")
        as Hb' by vm_refl.
      congruence. }
    intros Hw. vm_compute in Hw. discriminate.
  - intros Hw. vm_compute in Hw. discriminate.
Defined.

